(** * Encryptio: deterministic secret derivation

    A shallow embedding of the derivation code of the repository:

    - [crypto.service.ts]: [generateDeterministicChallenge],
      [getDeterministicAuthenticatorData], [deriveMasterSeed],
      [selectCharacter] and the tail of [generateCodename];
    - the [passwords] Pinia store: [generatePassword],
      [generatePasswordFromEntropy], [removePassword], [clearPasswords].

    Bytes are integers in [0, 255] (type [Z]); a [Uint8Array] is a list of
    bytes, living in a heap of buffers where the code allocates and writes
    one.  A JavaScript string is the list of its UTF-16 code units.  The
    WebCrypto primitives the code calls ([digest] with SHA-256, [deriveBits]
    with HKDF) are written out from FIPS 180-4, RFC 2104 and RFC 5869. *)

From Stdlib Require Import ZArith List Ascii String Lia Bool.
From Stdlib Require Import DecimalString DecimalPos DecimalZ Sorted.
From stdpp Require Import base tactics option list gmap strings.

Import ListNotations.
Local Open Scope Z_scope.

(** * Bytes and 32-bit words *)

Abbreviation byte := Z (only parsing).
Abbreviation bytes := (list Z) (only parsing).

(** What storing [v] in a [Uint8Array] element keeps of it. *)
Definition to_uint8 (v : Z) : byte := v mod 256.

Module Word32.

Definition modulus : Z := 2 ^ 32.
Definition wrap (x : Z) : Z := x mod modulus.
Definition add (x y : Z) : Z := wrap (x + y).
Definition rotr (n x : Z) : Z :=
  wrap (Z.lor (Z.shiftr x n) (Z.shiftl x (32 - n))).
Definition shr (n x : Z) : Z := Z.shiftr x n.
Definition not32 (x : Z) : Z := modulus - 1 - x.

(** Big-endian conversions. *)
Definition of_bytes (b3 b2 b1 b0 : Z) : Z :=
  Z.lor (Z.shiftl b3 24) (Z.lor (Z.shiftl b2 16) (Z.lor (Z.shiftl b1 8) b0)).

Definition to_bytes (w : Z) : bytes :=
  [ Z.shiftr w 24 mod 256; Z.shiftr w 16 mod 256;
    Z.shiftr w 8 mod 256; w mod 256 ].

End Word32.

(** * SHA-256 (FIPS 180-4), the hash behind [crypto.subtle.digest] *)

Module SHA256.
Import Word32.

Definition Ch (x y z : Z) : Z := Z.lxor (Z.land x y) (Z.land (not32 x) z).
Definition Maj (x y z : Z) : Z :=
  Z.lxor (Z.land x y) (Z.lxor (Z.land x z) (Z.land y z)).
Definition Sigma0 (x : Z) : Z := Z.lxor (rotr 2 x) (Z.lxor (rotr 13 x) (rotr 22 x)).
Definition Sigma1 (x : Z) : Z := Z.lxor (rotr 6 x) (Z.lxor (rotr 11 x) (rotr 25 x)).
Definition sigma0 (x : Z) : Z := Z.lxor (rotr 7 x) (Z.lxor (rotr 18 x) (shr 3 x)).
Definition sigma1 (x : Z) : Z := Z.lxor (rotr 17 x) (Z.lxor (rotr 19 x) (shr 10 x)).

(** The constants are fractional parts of roots of the first primes, 32
    bits of each: of the cube roots of the first 64 primes for the round
    constants, of the square roots of the first 8 for the initial value. *)
Definition is_prime (p : Z) : bool :=
  forallb (fun d => negb (p mod d =? 0)) (map Z.of_nat (seq 2 (Z.to_nat p - 2))).

Definition primes : list Z := List.filter is_prime (map Z.of_nat (seq 2 310)).

(** The integer cube root, one bit at a time from bit [n - 1] down. *)
Fixpoint cube_root_bits (n : nat) (x r : Z) : Z :=
  match n with
  | O => r
  | S n' =>
      let c := r + 2 ^ Z.of_nat n' in
      if c * c * c <=? x then cube_root_bits n' x c else cube_root_bits n' x r
  end.

Definition K : list Z :=
  Eval vm_compute in
    map (fun p => wrap (cube_root_bits 36 (p * 2 ^ 96) 0)) primes.

(** The eight working variables, and the chaining value. *)
Record regs := Regs { ra : Z; rb : Z; rc : Z; rd : Z; re : Z; rf : Z; rg : Z; rh : Z }.

Definition initial_words : list Z :=
  Eval vm_compute in map (fun p => wrap (Z.sqrt (p * 2 ^ 64))) (firstn 8 primes).

Definition H0 : regs :=
  match initial_words with
  | [a; b; c; d; e; f; g; h] => Regs a b c d e f g h
  | _ => Regs 0 0 0 0 0 0 0 0
  end.

(** One round, on the window of the sixteen latest schedule words: the
    word of this round is the oldest of the window, and the window moves
    on by the word sixteen rounds ahead. *)
Definition round (st : regs * list Z) (k : Z) : regs * list Z :=
  let '(r, w) := st in
  let wt := nth 0 w 0 in
  let t1 := add (add (add (add (rh r) (Sigma1 (re r))) (Ch (re r) (rf r) (rg r))) k) wt in
  let t2 := add (Sigma0 (ra r)) (Maj (ra r) (rb r) (rc r)) in
  let wnext := add (add (add (sigma1 (nth 14 w 0)) (nth 9 w 0)) (sigma0 (nth 1 w 0))) wt in
  (Regs (add t1 t2) (ra r) (rb r) (rc r) (add (rd r) t1) (re r) (rf r) (rg r),
   tl w ++ [wnext]).

Definition compress (h : regs) (block : list Z) : regs :=
  let r := fst (fold_left round K (h, block)) in
  Regs (add (ra h) (ra r)) (add (rb h) (rb r)) (add (rc h) (rc r)) (add (rd h) (rd r))
       (add (re h) (re r)) (add (rf h) (rf r)) (add (rg h) (rg r)) (add (rh h) (rh r)).

(** Padding: a one bit, zeros up to 56 modulo 64, the bit length on
    eight bytes. *)
Definition length_bytes (n : Z) : bytes :=
  map (fun i => Z.shiftr n (8 * i) mod 256) [7; 6; 5; 4; 3; 2; 1; 0].

Definition pad (m : bytes) : bytes :=
  let n := Z.of_nat (length m) in
  m ++ [0x80] ++ repeat 0 (Z.to_nat ((55 - n) mod 64)) ++ length_bytes (8 * n).

Fixpoint words_of_bytes (l : bytes) : list Z :=
  match l with
  | b3 :: b2 :: b1 :: b0 :: l' => of_bytes b3 b2 b1 b0 :: words_of_bytes l'
  | _ => []
  end.

(** The 16-word blocks of a padded message; [n] bounds their number. *)
Fixpoint blocks (n : nat) (ws : list Z) : list (list Z) :=
  match n with
  | O => []
  | S n' =>
      match ws with
      | [] => []
      | _ => firstn 16 ws :: blocks n' (skipn 16 ws)
      end
  end.

Definition bytes_of_regs (r : regs) : bytes :=
  to_bytes (ra r) ++ to_bytes (rb r) ++ to_bytes (rc r) ++ to_bytes (rd r) ++
  to_bytes (re r) ++ to_bytes (rf r) ++ to_bytes (rg r) ++ to_bytes (rh r).

Definition sha256 (m : bytes) : bytes :=
  let ws := words_of_bytes (pad m) in
  bytes_of_regs (fold_left compress (blocks (length ws) ws) H0).

End SHA256.

Definition ascii_bytes (s : string) : bytes :=
  map (fun c => Z.of_N (N_of_ascii c)) (list_ascii_of_string s).

(** * HMAC (RFC 2104) and HKDF (RFC 5869) over SHA-256 *)

Module HKDF.
Import SHA256.

Definition block_size : nat := 64.
Definition hash_len : nat := 32.

Definition hmac (key msg : bytes) : bytes :=
  let k0 := if (block_size <? length key)%nat then sha256 key else key in
  let k := k0 ++ repeat 0 (block_size - length k0) in
  sha256 (map (Z.lxor 0x5c) k ++ sha256 (map (Z.lxor 0x36) k ++ msg)).

Definition extract (salt ikm : bytes) : bytes :=
  hmac (match salt with [] => repeat 0 hash_len | _ => salt end) ikm.

(** [T(i+1) .. T(i+n)], given [T(i)]. *)
Fixpoint expand_blocks (n : nat) (prk info prev : bytes) (i : Z) : bytes :=
  match n with
  | O => []
  | S n' =>
      let t := hmac prk (prev ++ info ++ [to_uint8 (i + 1)]) in
      t ++ expand_blocks n' prk info t (i + 1)
  end.

Definition expand (prk info : bytes) (len : nat) : bytes :=
  firstn len (expand_blocks ((len + hash_len - 1) / hash_len) prk info [] 0).

Definition hkdf (ikm salt info : bytes) (len : nat) : bytes :=
  expand (extract salt ikm) info len.

End HKDF.

(** * Results of calls that may throw *)

Record js_error := JsError { err_name : string; err_message : string }.

Inductive outcome (A : Type) : Type :=
| Returned (a : A)
| Threw (e : js_error).
Arguments Returned {A} a.
Arguments Threw {A} e.

Definition obind {A B} (m : outcome A) (k : A -> outcome B) : outcome B :=
  match m with
  | Returned a => k a
  | Threw e => Threw e
  end.

Notation "x <-! m ; k" := (obind m (fun x => k))
  (at level 100, m at next level, right associativity, only parsing).

Definition returns {A} (m : outcome A) : Prop := exists a, m = Returned a.
Definition throws {A} (m : outcome A) : Prop := exists e, m = Threw e.

(** * JavaScript strings and [TextEncoder] *)

(** A string is the list of its UTF-16 code units. *)
Abbreviation JSString := (list Z) (only parsing).

(** The string of an ASCII literal. *)
Definition js (s : string) : JSString := ascii_bytes s.

Module TextEncoder.

Definition is_high_surrogate (u : Z) : bool := (0xD800 <=? u) && (u <? 0xDC00).
Definition is_low_surrogate (u : Z) : bool := (0xDC00 <=? u) && (u <? 0xE000).

(** UTF-8 of one scalar value. *)
Definition encode_scalar (c : Z) : bytes :=
  if c <? 0x80 then [c]
  else if c <? 0x800 then
    [Z.lor 0xC0 (Z.shiftr c 6); Z.lor 0x80 (Z.land c 0x3F)]
  else if c <? 0x10000 then
    [Z.lor 0xE0 (Z.shiftr c 12); Z.lor 0x80 (Z.land (Z.shiftr c 6) 0x3F);
     Z.lor 0x80 (Z.land c 0x3F)]
  else
    [Z.lor 0xF0 (Z.shiftr c 18); Z.lor 0x80 (Z.land (Z.shiftr c 12) 0x3F);
     Z.lor 0x80 (Z.land (Z.shiftr c 6) 0x3F); Z.lor 0x80 (Z.land c 0x3F)].

(** [new TextEncoder().encode(s)]: surrogate pairs are joined, a lone
    surrogate becomes U+FFFD. *)
Fixpoint encode (s : JSString) : bytes :=
  match s with
  | [] => []
  | u :: s' =>
      if is_high_surrogate u then
        match s' with
        | lo :: s'' =>
            if is_low_surrogate lo then
              encode_scalar (0x10000 + (u - 0xD800) * 0x400 + (lo - 0xDC00))
                ++ encode s''
            else encode_scalar 0xFFFD ++ encode s'
        | [] => encode_scalar 0xFFFD
        end
      else if is_low_surrogate u then encode_scalar 0xFFFD ++ encode s'
      else encode_scalar u ++ encode s'
  end.

End TextEncoder.

(** [`${n}`] for an integer [n] (below 1e21 in size, where JavaScript
    switches to exponent notation). *)
Definition Number_toString (n : Z) : JSString :=
  js (NilZero.string_of_int (Z.to_int n)).

(** [s.split(sep)] for a separator of one code unit. *)
Fixpoint split (sep : Z) (s : JSString) : list JSString :=
  match s with
  | [] => [[]]
  | c :: s' =>
      if c =? sep then [] :: split sep s'
      else match split sep s' with
           | seg :: rest => (c :: seg) :: rest
           | [] => [[c]]
           end
  end.

Definition dot : Z := 46.

(** * Typed arrays on a heap *)

Module Heap.

(** Buffers by address.  A [Uint8Array] value is the address of its
    buffer: two names for one address see each other's writes. *)
Abbreviation heap := (gmap positive bytes).

Definition M (A : Type) : Type := heap -> outcome A * heap.

Definition ret {A} (a : A) : M A := fun h => (Returned a, h).

Definition bind {A B} (m : M A) (k : A -> M B) : M B :=
  fun h =>
    match m h with
    | (Returned a, h') => k a h'
    | (Threw e, h') => (Threw e, h')
    end.

Definition TypeError (msg : string) : js_error := JsError "TypeError" msg.

(** [new Uint8Array(src)] for a typed array [src]: a fresh buffer with a
    copy of the elements. *)
Definition Uint8Array_from (src : positive) : M positive :=
  fun h =>
    match h !! src with
    | Some data => let l := fresh (dom h) in (Returned l, <[l := data]> h)
    | None => (Threw (TypeError "not a typed array"), h)
    end.

(** [a[i] = v]: the value is reduced to a byte; a write past the end of
    a typed array is dropped. *)
Definition store_index (a : positive) (i : nat) (v : Z) : M unit :=
  fun h => (Returned tt, alter (fun data => <[i := to_uint8 v]> data) a h).

End Heap.

Notation "x <-$ m ; k" := (Heap.bind m (fun x => k))
  (at level 100, m at next level, right associativity, only parsing).
Notation "m ;;$ k" := (Heap.bind m (fun _ => k))
  (at level 100, right associativity, only parsing).

(** * crypto.service.ts *)

Module CryptoService.
Import Heap.

(** [generateDeterministicChallenge] *)
Definition generateDeterministicChallenge (inputString : JSString) : bytes :=
  let data := TextEncoder.encode inputString in
  SHA256.sha256 data.

(** [getDeterministicAuthenticatorData] *)
Definition getDeterministicAuthenticatorData (authenticatorData : positive)
  : M positive :=
  deterministicData <-$ Uint8Array_from authenticatorData;
  store_index deterministicData 21 0 ;;$
  store_index deterministicData 22 0 ;;$
  store_index deterministicData 23 0 ;;$
  store_index deterministicData 24 0 ;;$
  ret deterministicData.

(** The elements of the buffer that [getDeterministicAuthenticatorData]
    returns, from those of its argument. *)
Definition deterministic_bytes (data : bytes) : bytes :=
  <[24%nat := 0]> (<[23%nat := 0]> (<[22%nat := 0]> (<[21%nat := 0]> data))).

(** ** WebCrypto's HKDF interface *)

Record CryptoKey := {
  key_algorithm : string;
  key_data : bytes;
  key_extractable : bool;
  key_usages : list string
}.

Record HkdfParams := {
  hkdf_name : string;
  hkdf_hash : string;
  hkdf_salt : bytes;
  hkdf_info : bytes
}.

Definition DOMException (name : string) : js_error := JsError name "".

(** [crypto.subtle.importKey('raw', keyData, { name }, extractable, usages)] *)
Definition importKey (keyData : bytes) (name : string) (extractable : bool)
    (usages : list string) : outcome CryptoKey :=
  if negb (String.eqb name "HKDF") then Threw (DOMException "NotSupportedError")
  else if extractable then Threw (DOMException "SyntaxError")
  else if negb (forallb (fun u => String.eqb u "deriveBits" || String.eqb u "deriveKey") usages)
    then Threw (DOMException "SyntaxError")
  else Returned {| key_algorithm := name; key_data := keyData;
                   key_extractable := extractable; key_usages := usages |}.

(** [crypto.subtle.deriveBits(params, key, length)] *)
Definition deriveBits (params : HkdfParams) (key : CryptoKey) (length : Z)
  : outcome bytes :=
  if negb (String.eqb (hkdf_name params) (key_algorithm key)) then
    Threw (DOMException "InvalidAccessError")
  else if negb (existsb (String.eqb "deriveBits") (key_usages key)) then
    Threw (DOMException "InvalidAccessError")
  else if negb (String.eqb (hkdf_hash params) "SHA-256") then
    Threw (DOMException "NotSupportedError")
  else if (length <=? 0) || negb (length mod 8 =? 0) then
    Threw (DOMException "OperationError")
  else if 255 * 32 <? length / 8 then Threw (DOMException "OperationError")
  else Returned (HKDF.hkdf (key_data key) (hkdf_salt params) (hkdf_info params)
                           (Z.to_nat (length / 8))).

(** The parameter object [deriveMasterSeed] hands to [deriveBits]. *)
Definition deriveMasterSeed_params (domainString : JSString) : HkdfParams :=
  let salt := TextEncoder.encode domainString in
  {| hkdf_name := "HKDF";
     hkdf_hash := "SHA-256";
     hkdf_salt := salt;
     hkdf_info := TextEncoder.encode (js "encryptio-codename-generation") |}.

(** [deriveMasterSeed] *)
Definition deriveMasterSeed (authenticatorData : bytes) (domainString : JSString)
  : outcome bytes :=
  keyMaterial <-! importKey authenticatorData "HKDF" false ["deriveBits"%string];
  masterSeed <-! deriveBits (deriveMasterSeed_params domainString) keyMaterial 512;
  Returned masterSeed.

Record ChineseCharEntry := {
  char : JSString;
  pinyin : JSString;
  tone : Z
}.

Record GeneratedCodename := {
  chineseChar : JSString;
  pinyinNote : JSString
}.

(** [new DataView(buffer).getUint32(0, false)]; fewer than four bytes
    is a [RangeError]. *)
Definition getUint32_be (buffer : bytes) : outcome Z :=
  match buffer with
  | b3 :: b2 :: b1 :: b0 :: _ => Returned (Word32.of_bytes b3 b2 b1 b0)
  | _ => Threw (JsError "RangeError" "Offset is outside the bounds of the DataView")
  end.

(** [a.slice(i, j)] *)
Definition slice {A} (i j : nat) (a : list A) : list A := firstn (j - i) (skipn i a).

Section Dictionary.

(** [dictionary.json], the static data the service imports. *)
Variable masterDictionary : list ChineseCharEntry.

(** [selectCharacter]; [None] is JavaScript's [undefined], what indexing
    gives when the dictionary is empty. *)
Definition selectCharacter (seedSegment : bytes) : outcome (option ChineseCharEntry) :=
  value <-! getUint32_be seedSegment;
  match masterDictionary with
  | [] => Returned None
  | _ =>
      let index := value mod Z.of_nat (length masterDictionary) in
      Returned (masterDictionary !! Z.to_nat index)
  end.

(** Reading a property of [undefined] throws. *)
Definition entry_of (e : option ChineseCharEntry) : outcome ChineseCharEntry :=
  match e with
  | Some c => Returned c
  | None => Threw (TypeError "Cannot read properties of undefined")
  end.

(** Steps 5 and 6 of [generateCodename]: three characters from the first
    twelve bytes of the seed, and the note. *)
Definition codename_of_seed (masterSeed : bytes) : outcome GeneratedCodename :=
  char1 <-! selectCharacter (slice 0 4 masterSeed);
  char2 <-! selectCharacter (slice 4 8 masterSeed);
  char3 <-! selectCharacter (slice 8 12 masterSeed);
  c1 <-! entry_of char1;
  c2 <-! entry_of char2;
  c3 <-! entry_of char3;
  Returned
    {| chineseChar := char c1 ++ char c2 ++ char c3;
       pinyinNote := pinyin c1 ++ js " " ++ pinyin c2 ++ js " " ++ pinyin c3 ++ js " "
                     ++ Number_toString (tone c1) ++ Number_toString (tone c2)
                     ++ Number_toString (tone c3) |}.

(** The [try] block of [generateCodename] from step 3 on. *)
Definition codename_of_assertion (authenticatorDataRaw : bytes)
    (domainString : JSString) : outcome GeneratedCodename :=
  let deterministicAuthData := deterministic_bytes authenticatorDataRaw in
  masterSeed <-! deriveMasterSeed deterministicAuthData domainString;
  codename_of_seed masterSeed.

(** [generateCodename], given what [authenticateSecurityKey] answers to
    the challenge. *)
Definition generateCodename
    (authenticateSecurityKey : string -> bytes -> outcome (option bytes))
    (credentialId : string) (domainString : JSString) : outcome GeneratedCodename :=
  let attempt :=
    let challenge := generateDeterministicChallenge domainString in
    authenticatorDataRaw <-! authenticateSecurityKey credentialId challenge;
    match authenticatorDataRaw with
    | None =>
        Threw (JsError "Error"
          "Failed to get authenticator data from security key. Operation cancelled or timed out.")
    | Some raw => codename_of_assertion raw domainString
    end in
  match attempt with
  | Returned r => Returned r
  | Threw error =>
      Threw (JsError "Error"
        ("Codename generation failed: " ++
         (if String.eqb (err_message error) "" then "An unknown error occurred."
          else err_message error)))
  end.

End Dictionary.

End CryptoService.

(** * The character loop of [generatePasswordFromEntropy] *)

Module Stretcher.

(** [target.set(source, offset)] on typed arrays. *)
Definition Uint8Array_set (target source : bytes) (offset : nat) : outcome bytes :=
  if (length target <? offset + length source)%nat then
    Threw (JsError "RangeError" "offset is out of bounds")
  else
    Returned (firstn offset target ++ source ++ skipn (offset + length source) target).

(** [new Uint8Array(n)] *)
Definition Uint8Array_new (n : nat) : bytes := replicate n 0.

Definition allowedChars : JSString :=
  js "ABCDEFGHIJKLMNOPQRSTUVWXYZabcdefghijklmnopqrstuvwxyz0123456789!@#$%^&*()_+=-[]{}|;:,.<>?".

(** The variables the loop updates. *)
Record loop_state := {
  mainHash : bytes;
  hashIndex : nat;
  password : JSString
}.

(** [password = ''] and [hashIndex = 0], before the loop. *)
Definition before_loop (mainHash : bytes) : loop_state :=
  {| mainHash := mainHash; hashIndex := 0; password := [] |}.

(** The refill branch: hash the seed followed by one more byte into
    [mainHash], and start over at its first byte. *)
Definition refill (seedData : bytes) (st : loop_state) : outcome loop_state :=
  let newSeed := Uint8Array_new (length seedData + 1) in
  newSeed <-! Uint8Array_set newSeed seedData 0;
  let newSeed :=
    <[length seedData :=
        to_uint8 (Z.of_nat (hashIndex st) / Z.of_nat (length (mainHash st)))]> newSeed in
  let newHash := SHA256.sha256 newSeed in
  mainHash' <-! Uint8Array_set (mainHash st) newHash 0;
  Returned {| mainHash := mainHash'; hashIndex := 0; password := password st |}.

(** One character: [mainHash[hashIndex] % allowedChars.length] picks it.
    Reading past the end of [mainHash] gives [undefined], the remainder is
    then [NaN], the character [undefined], and the text "undefined" is
    appended. *)
Definition emit (st : loop_state) : loop_state :=
  let picked :=
    match mainHash st !! hashIndex st with
    | Some b =>
        let charIndex := b mod Z.of_nat (length allowedChars) in
        match allowedChars !! Z.to_nat charIndex with
        | Some c => [c]
        | None => js "undefined"
        end
    | None => js "undefined"
    end in
  {| mainHash := mainHash st;
     hashIndex := S (hashIndex st);
     password := password st ++ picked |}.

(** [n] iterations of the body of the [for] loop, with [exhausted] for
    the branch taken when all bytes of [mainHash] are used. *)
Fixpoint loop_with (exhausted : bytes -> loop_state -> outcome loop_state)
    (n : nat) (seedData : bytes) (st : loop_state) : outcome loop_state :=
  match n with
  | O => Returned st
  | S n' =>
      st <-! (if (length (mainHash st) <=? hashIndex st)%nat
              then exhausted seedData st else Returned st);
      loop_with exhausted n' seedData (emit st)
  end.

Definition loop : nat -> bytes -> loop_state -> outcome loop_state :=
  loop_with refill.

End Stretcher.

(** * The passwords store *)

Module PasswordStore.
Import Stretcher.

(** The first two lines of [generatePasswordFromEntropy]: the service name
    the seed is built from. *)
Definition extract_service_name (fullServiceName : JSString) : JSString :=
  let parts := split dot fullServiceName in
  if (1 <? length parts)%nat then default [] (parts !! (length parts - 2)%nat)
  else fullServiceName.

(** [seedData]: a zeroed array of the total length, filled by three
    [set] calls. *)
Definition seed_data (entropy serviceBytes versionBytes : bytes) : outcome bytes :=
  let seedData :=
    Uint8Array_new (length entropy + length serviceBytes + length versionBytes) in
  seedData <-! Uint8Array_set seedData entropy 0;
  seedData <-! Uint8Array_set seedData serviceBytes (length entropy);
  Uint8Array_set seedData versionBytes (length entropy + length serviceBytes).

(** [generatePasswordFromEntropy] *)
Definition generatePasswordFromEntropy (entropy : bytes)
    (fullServiceName : JSString) (version : Z) : outcome JSString :=
  let serviceName := extract_service_name fullServiceName in
  let serviceBytes := TextEncoder.encode serviceName in
  let versionBytes := TextEncoder.encode (js "v" ++ Number_toString version) in
  seedData <-! seed_data entropy serviceBytes versionBytes;
  let mainHash := SHA256.sha256 seedData in
  st <-! loop 20 seedData (before_loop mainHash);
  Returned (password st).

(** ** The stored list *)

Record WebAuthnCredential := {
  id : JSString;
  name : JSString;
  created : Z
}.

Record GeneratedPassword := {
  service : JSString;
  password : JSString;
  version : Z;
  generated : Z;
  credentialId : JSString
}.

(** The refs of the store. *)
Record store := {
  passwords : list GeneratedPassword;
  isGenerating : bool;
  lastError : option string
}.

Definition initial_store : store :=
  {| passwords := []; isGenerating := false; lastError := None |}.

Definition set_passwords (l : list GeneratedPassword) (s : store) : store :=
  {| passwords := l; isGenerating := isGenerating s; lastError := lastError s |}.
Definition set_isGenerating (b : bool) (s : store) : store :=
  {| passwords := passwords s; isGenerating := b; lastError := lastError s |}.
Definition set_lastError (e : option string) (s : store) : store :=
  {| passwords := passwords s; isGenerating := isGenerating s; lastError := e |}.

(** [p.service === serviceName && p.version === version] *)
Definition same_entry (serviceName : JSString) (v : Z) (p : GeneratedPassword) : bool :=
  bool_decide (service p = serviceName) && (version p =? v).

(** [a.findIndex(f)]: the first index where [f] holds, or -1. *)
Fixpoint findIndex {A} (f : A -> bool) (a : list A) : Z :=
  match a with
  | [] => -1
  | x :: a' =>
      if f x then 0
      else let i := findIndex f a' in if i <? 0 then -1 else i + 1
  end.

(** Lines 323 to 336 of the store: replace or add, then keep 100. *)
Definition record_password (generatedPassword : GeneratedPassword)
    (l : list GeneratedPassword) : list GeneratedPassword :=
  let existingIndex :=
    findIndex (same_entry (service generatedPassword) (version generatedPassword)) l in
  let l :=
    if 0 <=? existingIndex then <[Z.to_nat existingIndex := generatedPassword]> l
    else generatedPassword :: l in
  if (100 <? length l)%nat then firstn 100 l else l.

(** [removePassword] *)
Definition removePassword (serviceName : JSString) (v : Z) (s : store) : store :=
  set_passwords (filter (fun p => negb (same_entry serviceName v p)) (passwords s)) s.

(** [clearPasswords] *)
Definition clearPasswords (s : store) : store := set_passwords [] s.

(** ** [generatePassword], one stretch between two [await]s at a time *)

(** A call that is suspended, with the local variables it resumes
    with. *)
Inductive suspended :=
| AwaitEntropy (serviceName : JSString) (v : Z) (credential : WebAuthnCredential)
    (challenge : JSString)
| AwaitPassword (serviceName : JSString) (v : Z) (credential : WebAuthnCredential)
    (entropy : bytes).

(** How far a stretch of the call gets: to its next [await], or to the
    value the call resolves with. *)
Inductive progress :=
| Suspends (k : suspended)
| Resolves (result : option JSString).

(** [`YubiKeyPasswordGenerator-${serviceName}-v${version}`] *)
Definition challenge_text (serviceName : JSString) (v : Z) : JSString :=
  js "YubiKeyPasswordGenerator-" ++ serviceName ++ js "-v" ++ Number_toString v.

(** From the call to [await webAuthnStore.getEntropy(...)]. *)
Definition generatePassword_begin (credentials : list WebAuthnCredential)
    (serviceName : JSString) (v : Z) (s : store) : progress * store :=
  match credentials with
  | [] =>
      (Resolves None, set_lastError (Some "No YubiKey credentials registered"%string) s)
  | credential :: _ =>
      let s := set_lastError None (set_isGenerating true s) in
      let challenge := challenge_text serviceName v in
      (Suspends (AwaitEntropy serviceName v credential challenge), s)
  end.

(** The [catch] and [finally] blocks. *)
Definition catch_finally (error : js_error) (s : store) : progress * store :=
  (Resolves None,
   set_isGenerating false (set_lastError (Some (err_message error)) s)).

(** From the answer of [getEntropy] to
    [await generatePasswordFromEntropy(...)]. *)
Definition generatePassword_entropy (serviceName : JSString) (v : Z)
    (credential : WebAuthnCredential) (answer : outcome (option bytes)) (s : store)
  : progress * store :=
  match answer with
  | Threw error => catch_finally error s
  | Returned None =>
      (Resolves None,
       set_isGenerating false
         (set_lastError (Some "Failed to get entropy from YubiKey"%string) s))
  | Returned (Some entropy) =>
      (Suspends (AwaitPassword serviceName v credential entropy), s)
  end.

(** From the password to the end; [now] is what [new Date()] reads. *)
Definition generatePassword_finish (serviceName : JSString) (v : Z)
    (credential : WebAuthnCredential) (entropy : bytes) (now : Z) (s : store)
  : progress * store :=
  match generatePasswordFromEntropy entropy serviceName v with
  | Threw error => catch_finally error s
  | Returned pw =>
      let generatedPassword :=
        {| service := serviceName; password := pw; version := v;
           generated := now; credentialId := id credential |} in
      (Resolves (Some pw),
       set_isGenerating false
         (set_passwords (record_password generatedPassword (passwords s)) s))
  end.

(** What a call meets outside the store: the state of the WebAuthn store,
    the answer of [navigator.credentials.get] to a challenge and a
    credential id (the signature of the assertion, nothing, or an
    exception), and the clock. *)
Record world := {
  credentials : list WebAuthnCredential;
  isSupported : bool;
  credentials_get : bytes -> JSString -> outcome (option bytes);
  clock : Z
}.

(** [getEntropy] of the WebAuthn store: every exception ends as [null]. *)
Definition getEntropy (w : world) (credentialId challenge : JSString)
  : outcome (option bytes) :=
  if negb (isSupported w) then Returned None
  else
    let challengeBytes := TextEncoder.encode challenge in
    match credentials_get w challengeBytes credentialId with
    | Returned (Some signature) => Returned (Some signature)
    | Returned None => Returned None
    | Threw _ => Returned None
    end.

(** A suspended call goes on, in the world it wakes up in. *)
Definition resume (w : world) (k : suspended) (s : store) : progress * store :=
  match k with
  | AwaitEntropy serviceName v credential challenge =>
      generatePassword_entropy serviceName v credential
        (getEntropy w (id credential) challenge) s
  | AwaitPassword serviceName v credential entropy =>
      generatePassword_finish serviceName v credential entropy (clock w) s
  end.

(** [generatePassword] run from call to result with nothing in between:
    the call has two [await]s. *)
Definition generatePassword (w : world) (serviceName : JSString) (v : Z) (s : store)
  : option JSString * store :=
  match generatePassword_begin (credentials w) serviceName v s with
  | (Resolves r, s) => (r, s)
  | (Suspends k, s) =>
      match resume w k s with
      | (Resolves r, s) => (r, s)
      | (Suspends k, s) =>
          match resume w k s with
          | (Resolves r, s) => (r, s)
          | (Suspends _, s) => (None, s)
          end
      end
  end.

(** ** Calls in flight

    JavaScript runs each stretch of a call to its next [await] without
    interruption; between two stretches anything else may run.  The
    system is the store together with the suspended calls. *)

Record system := {
  the_store : store;
  calls : list suspended
}.

Definition initial_system : system := {| the_store := initial_store; calls := [] |}.

Inductive event :=
| Call (w : world) (serviceName : JSString) (v : Z)
| Wake (i : nat) (w : world)
| Remove (serviceName : JSString) (v : Z)
| Clear.

Definition step (sys : system) (e : event) : system :=
  match e with
  | Call w serviceName v =>
      match generatePassword_begin (credentials w) serviceName v (the_store sys) with
      | (Resolves _, s) => {| the_store := s; calls := calls sys |}
      | (Suspends k, s) => {| the_store := s; calls := calls sys ++ [k] |}
      end
  | Wake i w =>
      match calls sys !! i with
      | None => sys
      | Some k =>
          match resume w k (the_store sys) with
          | (Resolves _, s) => {| the_store := s; calls := delete i (calls sys) |}
          | (Suspends k', s) => {| the_store := s; calls := <[i := k']> (calls sys) |}
          end
      end
  | Remove serviceName v =>
      {| the_store := removePassword serviceName v (the_store sys); calls := calls sys |}
  | Clear =>
      {| the_store := clearPasswords (the_store sys); calls := calls sys |}
  end.

Definition run (evs : list event) (sys : system) : system := fold_left step evs sys.

(** The calls that wait for the authenticator. *)
Definition awaits_authenticator (k : suspended) : bool :=
  match k with
  | AwaitEntropy _ _ _ _ => true
  | AwaitPassword _ _ _ _ => false
  end.

Definition authenticator_interactions (sys : system) : nat :=
  length (filter awaits_authenticator (calls sys)).

(** The discipline of the Generate button, disabled while [isGenerating]:
    every call starts with the flag down. *)
Fixpoint button_guarded (evs : list event) (sys : system) : bool :=
  match evs with
  | [] => true
  | e :: evs' =>
      match e with
      | Call _ _ _ => negb (isGenerating (the_store sys))
      | _ => true
      end && button_guarded evs' (step sys e)
  end.

(** ** Reading the list *)

(** [a.sort(compare)]: the sort is stable; [x] goes before the first
    element it does not compare greater than. *)
Fixpoint sort_insert {A} (compare : A -> A -> Z) (x : A) (a : list A) : list A :=
  match a with
  | [] => [x]
  | y :: a' =>
      if compare x y <=? 0 then x :: y :: a' else y :: sort_insert compare x a'
  end.

Definition sort {A} (compare : A -> A -> Z) (a : list A) : list A :=
  foldr (sort_insert compare) [] a.

(** [getPasswordVersions] *)
Definition getPasswordVersions (serviceName : JSString) (s : store)
  : list GeneratedPassword :=
  sort (fun a b => version b - version a)
       (List.filter (fun p => bool_decide (service p = serviceName)) (passwords s)).

(** [getLatestVersion] *)
Definition getLatestVersion (serviceName : JSString) (s : store) : Z :=
  let versions := getPasswordVersions serviceName s in
  match versions with
  | latest :: _ => version latest
  | [] => 0
  end.

(** ** The list in [localStorage]

    What [JSON.stringify] writes of an entry and [JSON.parse] reads back:
    the fields by name, the date as its ISO text (here the instant it
    denotes); a version may be missing in what an older release wrote. *)
Record StoredPassword := {
  stored_service : JSString;
  stored_password : JSString;
  stored_version : option Z;
  stored_generated : Z;
  stored_credentialId : JSString
}.

(** The item ['yubikey-passwords']: absent, text that [JSON.parse] or the
    [map] over it rejects, or an array of entries. *)
Inductive storage_item :=
| NoItem
| Unreadable
| Entries (l : list StoredPassword).

(** [savePasswords] *)
Definition savePasswords (s : store) : storage_item :=
  Entries (map (fun p => {| stored_service := service p;
                           stored_password := password p;
                           stored_version := Some (version p);
                           stored_generated := generated p;
                           stored_credentialId := credentialId p |}) (passwords s)).

(** [pwd.version || 1] *)
Definition version_or_1 (v : option Z) : Z :=
  match v with
  | Some v => if v =? 0 then 1 else v
  | None => 1
  end.

(** [loadPasswords] *)
Definition loadPasswords (saved : storage_item) (s : store) : store :=
  match saved with
  | NoItem => s
  | Unreadable => s
  | Entries parsed =>
      set_passwords
        (map (fun pwd => {| service := stored_service pwd;
                           password := stored_password pwd;
                           version := version_or_1 (stored_version pwd);
                           generated := stored_generated pwd;
                           credentialId := stored_credentialId pwd |}) parsed) s
  end.

End PasswordStore.

(** * Texts and numbers of JavaScript *)

Module JSText.

(** The line terminators, which [.] of a regular expression leaves out,
    and the white space that [parseInt] skips. *)
Definition is_line_terminator (c : Z) : bool :=
  (c =? 0x0A) || (c =? 0x0D) || (c =? 0x2028) || (c =? 0x2029).

Definition is_white_space (c : Z) : bool :=
  (c =? 0x09) || (c =? 0x0B) || (c =? 0x0C) || (c =? 0x20) || (c =? 0xA0)
  || (c =? 0xFEFF) || (c =? 0x1680) || ((0x2000 <=? c) && (c <=? 0x200A))
  || (c =? 0x202F) || (c =? 0x205F) || (c =? 0x3000) || is_line_terminator c.

(** The digit of a value below 36, in lower case. *)
Definition digit_char (d : Z) : Z := if d <? 10 then 48 + d else 87 + d.

(** The digits of [n > 0] in a radix, before [acc]; [fuel] bounds their
    number. *)
Fixpoint digits_before (fuel : nat) (radix n : Z) (acc : JSString) : JSString :=
  match fuel with
  | O => acc
  | S fuel' =>
      if n =? 0 then acc
      else digits_before fuel' radix (n / radix) (digit_char (n mod radix) :: acc)
  end.

(** [n.toString(radix)] for an integer [n]. *)
Definition Number_toString_radix (radix n : Z) : JSString :=
  if n =? 0 then [48]
  else (if n <? 0 then [45] else [])
       ++ digits_before (S (Z.to_nat (Z.log2 (Z.abs n)))) radix (Z.abs n) [].

(** [s.padStart(targetLength, c)] for a pad of one character. *)
Definition padStart (targetLength : nat) (c : Z) (s : JSString) : JSString :=
  replicate (targetLength - length s) c ++ s.

(** The value of a character as a digit: 0 to 9, then the letters in
    either case. *)
Definition digit_value (c : Z) : option Z :=
  if (48 <=? c) && (c <=? 57) then Some (c - 48)
  else if (97 <=? c) && (c <=? 122) then Some (c - 87)
  else if (65 <=? c) && (c <=? 90) then Some (c - 55)
  else None.

(** The number of the longest run of digits at the start of [s]; [acc] is
    the number so far, [None] before the first digit. *)
Fixpoint parse_digits (radix : Z) (s : JSString) (acc : option Z) : option Z :=
  match s with
  | [] => acc
  | c :: s' =>
      match digit_value c with
      | Some d =>
          if d <? radix then parse_digits radix s' (Some (default 0 acc * radix + d))
          else acc
      | None => acc
      end
  end.

Fixpoint drop_white_space (s : JSString) : JSString :=
  match s with
  | [] => []
  | c :: s' => if is_white_space c then drop_white_space s' else s
  end.

(** [parseInt(s, radix)], with [radix = 0] for a call without radix;
    [None] is [NaN].  (A number of more than 15 digits would be rounded;
    no text here is that long.) *)
Definition parseInt (s : JSString) (radix : Z) : option Z :=
  let s := drop_white_space s in
  let '(sign, s) :=
    match s with
    | 45 :: s' => (-1, s')
    | 43 :: s' => (1, s')
    | _ => (1, s)
    end in
  if negb (radix =? 0) && ((radix <? 2) || (36 <? radix)) then None
  else
    let '(radix, s) :=
      if (radix =? 0) || (radix =? 16) then
        match s with
        | 48 :: x :: s' =>
            if (x =? 120) || (x =? 88) then (16, s')
            else (if radix =? 0 then 10 else radix, s)
        | _ => (if radix =? 0 then 10 else radix, s)
        end
      else (radix, s) in
    option_map (Z.mul sign) (parse_digits radix s None).

(** [s.trim()] *)
Definition trim (s : JSString) : JSString :=
  reverse (drop_white_space (reverse (drop_white_space s))).

End JSText.

(** * webauthn.service.ts: the credential id as text *)

Module WebAuthnService.
Import JSText.

(** In [registerSecurityKey]:
    [Array.from(new Uint8Array(rawId)).map(b => b.toString(16).padStart(2, '0')).join('')] *)
Definition credentialId_of_rawId (rawId : bytes) : JSString :=
  concat (map (fun b => padStart 2 48 (Number_toString_radix 16 b)) rawId).

(** [s.match(/.{1,2}/g) || []]: from left to right, two characters where
    two that are no line terminators follow each other, else one; line
    terminators are passed over. *)
Fixpoint match_one_or_two (s : JSString) : list JSString :=
  match s with
  | [] => []
  | c :: s' =>
      if is_line_terminator c then match_one_or_two s'
      else
        match s' with
        | c' :: s'' =>
            if is_line_terminator c' then [c] :: match_one_or_two s'
            else [c; c'] :: match_one_or_two s''
        | [] => [[c]]
        end
  end.

(** [Uint8Array.from(numbers)]: [NaN] becomes 0, an integer its last
    eight bits. *)
Definition Uint8Array_from_numbers (numbers : list (option Z)) : bytes :=
  map (fun n => match n with Some v => to_uint8 v | None => 0 end) numbers.

(** In [authenticateSecurityKey]:
    [Uint8Array.from(credentialId.match(/.{1,2}/g)?.map(byte => parseInt(byte, 16)) || [])] *)
Definition credentialIdBuffer (credentialId : JSString) : bytes :=
  Uint8Array_from_numbers
    (map (fun byte => parseInt byte 16) (match_one_or_two credentialId)).

End WebAuthnService.

(** * db.service.ts and auth.store.ts *)

Module AuthStore.

(** The object store ['app-settings'] of the database: values by key. *)
Abbreviation database := (gmap string (list Z)).

Definition CREDENTIAL_ID_KEY : string := "credentialId".
Definition USERNAME_KEY : string := "username".

(** What can go wrong with a request: no IndexedDB in the window, the
    database does not open, or the request itself fails; with the message
    of the underlying error. *)
Inductive db_fault :=
| NotSupported
| OpenFails (message : string)
| RequestFails (message : string).

(** The error that [openDb] or the request rejects with; [doing] is "put",
    "get" or "delete". *)
Definition db_error (doing key : string) (fault : db_fault) : js_error :=
  match fault with
  | NotSupported => JsError "Error" "IndexedDB is not supported in this browser."
  | OpenFails message => JsError "Error" ("IndexedDB error: " ++ message)
  | RequestFails message =>
      JsError "Error"
        ("Failed to " ++ doing ++ " data with key '" ++ key ++ "': " ++ message)
  end.

(** [putData] *)
Definition putData (fault : option db_fault) (key : string) (value : JSString)
    (db : database) : outcome unit * database :=
  match fault with
  | Some f => (Threw (db_error "put" key f), db)
  | None => (Returned tt, <[key := value]> db)
  end.

(** [getData]; [None] is [undefined], the answer for a key that is not
    there. *)
Definition getData (fault : option db_fault) (key : string) (db : database)
  : outcome (option JSString) :=
  match fault with
  | Some f => Threw (db_error "get" key f)
  | None => Returned (db !! key)
  end.

(** [deleteData] *)
Definition deleteData (fault : option db_fault) (key : string) (db : database)
  : outcome unit * database :=
  match fault with
  | Some f => (Threw (db_error "delete" key f), db)
  | None => (Returned tt, delete key db)
  end.

Record AuthState := {
  isKeyRegistered : bool;
  credentialId : option JSString;
  username : option JSString;
  isLoading : bool;
  error : option string
}.

Definition initialState : AuthState :=
  {| isKeyRegistered := false; credentialId := None; username := None;
     isLoading := true; error := None |}.

(** A value counts as present when it is a text that is not empty. *)
Definition truthy (v : option JSString) : bool :=
  match v with
  | Some (_ :: _) => true
  | _ => false
  end.

(** [e.message || fallback] *)
Definition message_or (e : js_error) (fallback : string) : string :=
  if String.eqb (err_message e) "" then fallback else err_message e.

Definition set_error (message : option string) (state : AuthState) : AuthState :=
  {| isKeyRegistered := isKeyRegistered state; credentialId := credentialId state;
     username := username state; isLoading := isLoading state; error := message |}.

(** [initializeAuth]; the second read is not made when the first fails. *)
Definition initializeAuth (fault1 fault2 : option db_fault) (state : AuthState)
    (db : database) : AuthState :=
  let stored :=
    storedCredentialId <-! getData fault1 CREDENTIAL_ID_KEY db;
    storedUsername <-! getData fault2 USERNAME_KEY db;
    Returned (storedCredentialId, storedUsername) in
  match stored with
  | Returned (storedCredentialId, storedUsername) =>
      if truthy storedCredentialId && truthy storedUsername then
        {| isKeyRegistered := true; credentialId := storedCredentialId;
           username := storedUsername; isLoading := false; error := None |}
      else
        {| isKeyRegistered := false; credentialId := None; username := None;
           isLoading := false; error := None |}
  | Threw e =>
      {| isKeyRegistered := isKeyRegistered state; credentialId := credentialId state;
         username := username state; isLoading := false;
         error := Some ("Failed to initialize: " ++ message_or e "Unknown DB error.")%string |}
  end.

(** [authStore.setCredentialId] *)
Definition setCredentialId (fault : option db_fault) (id : JSString)
    (state : AuthState) (db : database) : AuthState * database :=
  match putData fault CREDENTIAL_ID_KEY id db with
  | (Returned _, db) =>
      ({| isKeyRegistered := true; credentialId := Some id; username := username state;
          isLoading := isLoading state; error := None |}, db)
  | (Threw e, db) =>
      (set_error (Some ("Failed to save credential ID: "
                        ++ message_or e "Unknown DB error.")%string) state, db)
  end.

(** [authStore.setUsername] *)
Definition setUsername (fault : option db_fault) (name : JSString)
    (state : AuthState) (db : database) : AuthState * database :=
  match putData fault USERNAME_KEY name db with
  | (Returned _, db) =>
      ({| isKeyRegistered := isKeyRegistered state; credentialId := credentialId state;
          username := Some name; isLoading := isLoading state; error := None |}, db)
  | (Threw e, db) =>
      (set_error (Some ("Failed to save username: "
                        ++ message_or e "Unknown DB error.")%string) state, db)
  end.

(** [authStore.clearAuth] *)
Definition clearAuth (fault1 fault2 : option db_fault)
    (state : AuthState) (db : database) : AuthState * database :=
  let failed e db :=
    (set_error (Some ("Failed to clear auth data: "
                      ++ message_or e "Unknown DB error.")%string) state, db) in
  match deleteData fault1 CREDENTIAL_ID_KEY db with
  | (Threw e, db) => failed e db
  | (Returned _, db) =>
      match deleteData fault2 USERNAME_KEY db with
      | (Threw e, db) => failed e db
      | (Returned _, db) => (initialState, db)
      end
  end.

(** [authStore.setLoading] *)
Definition setLoading (loading : bool) (state : AuthState) : AuthState :=
  {| isKeyRegistered := isKeyRegistered state; credentialId := credentialId state;
     username := username state; isLoading := loading; error := error state |}.

(** [authStore.setError] and [authStore.clearError] *)
Definition setError (message : option string) (state : AuthState) : AuthState :=
  set_error message state.
Definition clearError (state : AuthState) : AuthState := set_error None state.

(** The calls on the store, each with what the database does to its
    requests. *)
Inductive call :=
| InitializeAuth (fault1 fault2 : option db_fault)
| SetCredentialId (fault : option db_fault) (id : JSString)
| SetUsername (fault : option db_fault) (name : JSString)
| ClearAuth (fault1 fault2 : option db_fault)
| SetLoading (loading : bool)
| SetError (message : option string)
| ClearError.

Definition perform (s : AuthState * database) (c : call) : AuthState * database :=
  let '(state, db) := s in
  match c with
  | InitializeAuth fault1 fault2 => (initializeAuth fault1 fault2 state db, db)
  | SetCredentialId fault id => setCredentialId fault id state db
  | SetUsername fault name => setUsername fault name state db
  | ClearAuth fault1 fault2 => clearAuth fault1 fault2 state db
  | SetLoading loading => (setLoading loading state, db)
  | SetError message => (setError message state, db)
  | ClearError => (clearError state, db)
  end.

End AuthStore.

(** * Registration: [registerSecurityKey] and [handleRegister] *)

Module Registration.
Import JSText WebAuthnService AuthStore.

(** The error [registerSecurityKey] throws for one that
    [navigator.credentials.create] threw. *)
Definition registration_error (error : js_error) : js_error :=
  if String.eqb (err_name error) "NotAllowedError" then
    JsError "Error" "Security key operation cancelled or blocked by user. Please try again."
  else if String.eqb (err_name error) "ConstraintError" then
    JsError "Error" "This security key credential is already registered or a similar one exists. Please use it to authenticate instead of registering."
  else if String.eqb (err_name error) "AbortError" then
    JsError "Error" "Security key registration was aborted. Please ensure your key is connected and try again."
  else
    JsError "Error"
      ("Registration failed: "
       ++ message_or error "An unknown error occurred during registration.").

(** [registerSecurityKey], from whether the window has WebAuthn and from
    what [navigator.credentials.create] does: it returns the raw id of a
    new credential, returns something else, or throws.  The credential id
    is put into the store on the way, without waiting for it. *)
Definition registerSecurityKey (supported : bool) (created : outcome (option bytes))
    (fault : option db_fault) (s : AuthState * database)
  : outcome (option JSString) * (AuthState * database) :=
  if negb supported then
    (Threw (JsError "Error" "WebAuthn is not supported in this browser environment."), s)
  else
    match created with
    | Returned (Some rawId) =>
        let credentialId := credentialId_of_rawId rawId in
        (Returned (Some credentialId), perform s (SetCredentialId fault credentialId))
    | Returned None => (Returned None, s)
    | Threw error => (Threw (registration_error error), s)
    end.

(** [handleRegister], as far as the store goes: blank and overlong names
    are turned away before anything happens; [setLoading] brackets the
    rest. *)
Definition handleRegister (usernameInput : JSString) (supported : bool)
    (created : outcome (option bytes)) (fault1 fault2 fault3 : option db_fault)
    (s : AuthState * database) : AuthState * database :=
  let trimmedUsername := trim usernameInput in
  match trimmedUsername with
  | [] => s
  | _ =>
      if (32 <? length trimmedUsername)%nat then s
      else
        let s := perform s (SetLoading true) in
        let s :=
          match registerSecurityKey supported created fault1 s with
          | (Returned (Some (c :: credentialId)), s) =>
              perform (perform s (SetCredentialId fault2 (c :: credentialId)))
                      (SetUsername fault3 trimmedUsername)
          | (_, s) => s
          end in
        perform s (SetLoading false)
  end.

End Registration.

(** * PasswordGenerator.vue: the calls into the passwords store *)

Module PasswordGenerator.
Import JSText PasswordStore.

(** The refs of the component that the calls read and write. *)
Record view := {
  serviceName : JSString;
  passwordVersion : Z;
  currentPassword : JSString;
  currentService : JSString;
  currentVersion : Z;
  showVersionHistory : bool
}.


Definition set_serviceName (x : JSString) (v : view) : view :=
  {| serviceName := x; passwordVersion := passwordVersion v;
     currentPassword := currentPassword v; currentService := currentService v;
     currentVersion := currentVersion v; showVersionHistory := showVersionHistory v |}.

Definition set_current (pw service : JSString) (version : Z) (v : view) : view :=
  {| serviceName := serviceName v; passwordVersion := passwordVersion v;
     currentPassword := pw; currentService := service;
     currentVersion := version; showVersionHistory := showVersionHistory v |}.

Definition set_showVersionHistory (x : bool) (v : view) : view :=
  {| serviceName := serviceName v; passwordVersion := passwordVersion v;
     currentPassword := currentPassword v; currentService := currentService v;
     currentVersion := currentVersion v; showVersionHistory := x |}.


(** [generatePassword] of the component: nothing for a blank name.  The
    fields stay open while the store's call is awaited; [edit] is what
    happens to the refs meanwhile, and the name and the version shown with
    the password are read after it. *)
Definition generatePassword (w : world) (edit : view -> view) (v : view) (s : store)
  : view * store :=
  match trim (serviceName v) with
  | [] => (v, s)
  | name =>
      let '(password, s) := PasswordStore.generatePassword w name (passwordVersion v) s in
      let v := edit v in
      match password with
      | Some (c :: pw) =>
          (set_showVersionHistory false
             (set_current (c :: pw) (trim (serviceName v)) (passwordVersion v) v), s)
      | _ => (v, s)
      end
  end.





End PasswordGenerator.

(** * DateEncoder.vue *)

Module DateEncoder.
Import JSText.

(** A number that may be [NaN]. *)
Abbreviation number := (option Z) (only parsing).

(** [ToInt32], which the bit operators apply; [NaN] becomes 0. *)
Definition ToInt32 (n : number) : Z :=
  match n with
  | Some n => (n + 2 ^ 31) mod 2 ^ 32 - 2 ^ 31
  | None => 0
  end.

(** [a ^ b] *)
Definition xor (a b : number) : Z := Z.lxor (ToInt32 a) (ToInt32 b).

(** [String.fromCharCode(n)] *)
Definition fromCharCode (n : number) : Z :=
  match n with
  | Some n => n mod 65536
  | None => 0
  end.

(** [n.toString()] *)
Definition number_toString (n : number) : JSString :=
  match n with
  | Some n => Number_toString n
  | None => js "NaN"
  end.

(** [a < b], false when one is [NaN]. *)
Definition lt (a b : number) : bool :=
  match a, b with
  | Some a, Some b => a <? b
  | _, _ => false
  end.

(** [s.slice(-n)] *)
Definition slice_last (n : nat) (s : JSString) : JSString := drop (length s - n) s.

Definition is_digit (c : Z) : bool := (48 <=? c) && (c <=? 57).

(** [/^\d{2}$/.test(s)] *)
Definition two_digits (s : JSString) : bool :=
  match s with
  | [c1; c2] => is_digit c1 && is_digit c2
  | _ => false
  end.

Definition Error (msg : string) : js_error := JsError "Error" msg.

Section CurrentYear.

(** [new Date().getFullYear()] when the component was set up. *)
Variable currentYear : Z.

(** [encodeDateXorYear] *)
Definition encodeDateXorYear (dateStr : JSString) : outcome JSString :=
  match split dot dateStr with
  | [dayStr; monthStr; yearStr] =>
      if negb (two_digits dayStr) || negb (two_digits monthStr) then
        Threw (Error "Day and month must be 2 digits (DD.MM)")
      else
        fullYearStr <-!
          (if (length yearStr =? 2)%nat then
             let yearNum := parseInt yearStr 0 in
             let currentCentury := currentYear / 100 * 100 in
             Returned (number_toString (Z.add currentCentury <$> yearNum))
           else if negb (length yearStr =? 4)%nat then
             Threw (Error "Year must be 2 or 4 digits")
           else Returned yearStr);
        let day := parseInt dayStr 0 in
        let month := parseInt monthStr 0 in
        let yearLastDigit := parseInt (slice_last 1 fullYearStr) 0 in
        if lt day (Some 1) || lt (Some 31) day then Threw (Error "Invalid day")
        else if lt month (Some 1) || lt (Some 12) month then Threw (Error "Invalid month")
        else
          let modifiedMonth := xor month yearLastDigit in
          let modifiedDay := xor day yearLastDigit in
          let monthChar := fromCharCode (Some (65 + Z.rem modifiedMonth 12)) in
          let dayIndex := Z.rem modifiedDay 31 in
          let dayChar1 := fromCharCode (Some (65 + dayIndex / 26)) in
          let dayChar2 := fromCharCode (Some (65 + Z.rem dayIndex 26)) in
          let yearLastTwo := parseInt (slice_last 2 fullYearStr) 0 in
          let yearChar1 := fromCharCode ((fun y => 65 + y / 26) <$> yearLastTwo) in
          let yearChar2 := fromCharCode ((fun y => 65 + Z.rem y 26) <$> yearLastTwo) in
          Returned [monthChar; dayChar1; dayChar2; yearChar1; yearChar2]
  | _ => Threw (Error "Invalid date format. Use DD.MM.YYYY or DD.MM.YY")
  end.

End CurrentYear.

(** [decodeDateXorYear], for a reference year that is an integer. *)
Definition decodeDateXorYear (encodedStr : JSString) (referenceYear : Z)
  : outcome JSString :=
  match encodedStr with
  | [monthChar; dayChar1; dayChar2; yearChar1; yearChar2] =>
      let encodedMonth := (monthChar - 65) + 1 in
      let encodedDayIndex := (dayChar1 - 65) * 26 + (dayChar2 - 65) in
      let encodedDay := encodedDayIndex + 1 in
      let yearLastTwo := (yearChar1 - 65) * 26 + (yearChar2 - 65) in
      let referenceYearLastDigit := Z.rem referenceYear 10 in
      let originalMonth :=
        let x := xor (Some encodedMonth) (Some referenceYearLastDigit) in
        if x =? 0 then 12 else x in
      let originalDay :=
        let x := xor (Some encodedDay) (Some referenceYearLastDigit) in
        if x =? 0 then 31 else x in
      let century := referenceYear / 100 * 100 in
      let fullYear := century + yearLastTwo in
      let fullYear := if referenceYear + 50 <? fullYear then fullYear - 100 else fullYear in
      let finalMonth := Z.rem (originalMonth - 1) 12 + 1 in
      let finalDay := Z.rem (originalDay - 1) 31 + 1 in
      Returned (padStart 2 48 (Number_toString finalDay) ++ [dot]
                ++ padStart 2 48 (Number_toString finalMonth) ++ [dot]
                ++ Number_toString fullYear)
  | _ => Threw (Error "Encoded string must be exactly 5 characters")
  end.

End DateEncoder.

(** * Definitions the statements use *)

(** [s.join(sep)] on a list of segments, the inverse of [split]. *)
Fixpoint join (sep : Z) (parts : list JSString) : JSString :=
  match parts with
  | [] => []
  | [seg] => seg
  | seg :: rest => seg ++ sep :: join sep rest
  end.

(** The offsets [getDeterministicAuthenticatorData] writes to. *)
Definition zeroed_index (i : nat) : Prop := (21 <= i <= 24)%nat.

(** The authenticator data of WebAuthn, which the comments of
    [getDeterministicAuthenticatorData] refer to (Web Authentication,
    section 6.1): the SHA-256 hash of the relying party id in bytes 0 to
    31, the flags in byte 32, the signature counter in bytes 33 to 36,
    big-endian, then attested credential data and extensions. *)
Module AuthenticatorData.

Definition rpIdHash (data : bytes) : bytes := take 32 data.
Definition flags (data : bytes) : option Z := data !! 32%nat.
Definition signCount_index (i : nat) : Prop := (33 <= i <= 36)%nat.
Definition signCount (data : bytes) : bytes := take 4 (drop 33 data).

End AuthenticatorData.

Module StretcherSpec.
Import Stretcher PasswordStore.

(** The character a byte selects: the one at index [byte mod N] of the
    alphabet of [N] characters. *)
Definition alphabet_char (b : Z) : Z :=
  nth (Z.to_nat (b mod Z.of_nat (length allowedChars))) allowedChars 0.

(** The stretcher without refill: the first 20 bytes of
    SHA-256(entropy || label bytes || "v" version bytes), each mapped to
    its character. *)
Definition simple_stretcher (entropy : bytes) (fullServiceName : JSString)
    (version : Z) : JSString :=
  let label := extract_service_name fullServiceName in
  let digest :=
    SHA256.sha256 (entropy ++ TextEncoder.encode label
                           ++ TextEncoder.encode (js "v" ++ Number_toString version)) in
  map alphabet_char (firstn 20 digest).

End StretcherSpec.

Module StoreSpec.
Import PasswordStore.

(** What identifies a stored entry. *)
Definition entry_key (p : GeneratedPassword) : list Z * Z := (service p, version p).

(** At most 100 entries, no two for one service and version. *)
Definition bounded_and_unique (l : list GeneratedPassword) : Prop :=
  (length l <= 100)%nat /\ NoDup (entry_key <$> l).

(** The operations of the store, each run from call to result. *)
Inductive operation :=
| Generate (w : world) (serviceName : list Z) (v : Z)
| RemoveEntry (serviceName : list Z) (v : Z)
| ClearAll.

Definition apply_operation (s : store) (op : operation) : store :=
  match op with
  | Generate w serviceName v => snd (generatePassword w serviceName v s)
  | RemoveEntry serviceName v => removePassword serviceName v s
  | ClearAll => clearPasswords s
  end.

(** With the button's discipline: one call at most, and none while the
    flag is down. *)
Definition one_call_at_most (sys : system) : Prop :=
  (length (calls sys) <= 1)%nat /\
  (isGenerating (the_store sys) = false -> calls sys = []).

End StoreSpec.

(** Runs of the store that the statements refer to. *)
Module StoreScenario.
Import PasswordStore StoreSpec.

(** A registered key that signs, at a time of the clock. *)
Definition world_at (t : Z) : world :=
  {| credentials := [ {| id := js "key"; name := js "k"; created := 0 |} ];
     isSupported := true;
     credentials_get := fun _ _ => Returned (Some [1; 2; 3; 4; 5; 6; 7; 8]);
     clock := t |}.

Definition service_number (i : Z) : JSString := js "s" ++ Number_toString i.

(** Version 1 of the services 1 to 100 at the times 1 to 100, then of
    service 1 again at time 101, then of service 101 at time 102. *)
Definition hundred_and_two : list operation :=
  ((fun i => Generate (world_at (Z.of_nat i)) (service_number (Z.of_nat i)) 1)
     <$> seq 1 100)
  ++ [Generate (world_at 101) (service_number 1) 1;
      Generate (world_at 102) (service_number 101) 1].

(** The versions 0 and 1 of one service in a first session, and the store
    the next session starts with: [loadPasswords] of what was saved. *)
Definition first_session : store :=
  fold_left apply_operation
    [Generate (world_at 1) (js "a") 0; Generate (world_at 2) (js "a") 1] initial_store.

Definition next_session : store :=
  loadPasswords (savePasswords first_session) initial_store.

End StoreScenario.

Module CredentialIdSpec.
Import JSText WebAuthnService.

(** A digit or a letter from a to f. *)
Definition is_lower_hex (c : Z) : bool :=
  ((48 <=? c) && (c <=? 57)) || ((97 <=? c) && (c <=? 102)).

(** The text of one byte: two lower-case hexadecimal characters that
    [parseInt] reads as the byte. *)
Definition hex_pair_ok (b : Z) : bool :=
  match padStart 2 48 (Number_toString_radix 16 b) with
  | [c1; c2] =>
      negb (is_line_terminator c1) && negb (is_line_terminator c2)
      && bool_decide (parseInt [c1; c2] 16 = Some b)
      && is_lower_hex c1 && is_lower_hex c2
  | _ => false
  end.

End CredentialIdSpec.

Module AuthSpec.
Import AuthStore.

(** The store says a key is registered exactly when it holds a credential
    id. *)
Definition registered_iff_credential (state : AuthState) : Prop :=
  isKeyRegistered state = true <-> is_Some (credentialId state).

(** The state a new session starts with, once [initializeAuth] has read
    the database without trouble. *)
Definition restart (db : gmap string (list Z)) : AuthState :=
  initializeAuth None None initialState db.

End AuthSpec.

Module DisplaySpec.
Import PasswordStore PasswordGenerator.

(** What the component shows is nothing, or the service, version and
    password of an entry of the list. *)
Definition shows_stored (v : view) (s : store) : Prop :=
  currentService v = [] \/
  exists p, p ∈ passwords s /\ service p = currentService v /\
            version p = currentVersion v /\ password p = currentPassword v.

End DisplaySpec.

Module DateSpec.
Import JSText DateEncoder.

(** A number in two places. *)
Definition two (n : Z) : JSString := padStart 2 48 (Number_toString n).

(** DD.MM.YYYY *)
Definition date_text (day month year : Z) : JSString :=
  two day ++ [dot] ++ two month ++ [dot] ++ Number_toString year.

Definition is_date (day month year : Z) : Prop :=
  1 <= day <= 31 /\ 1 <= month <= 12 /\ 1000 <= year <= 9999.

(** The integers from [a] to [b]. *)
Definition range (a b : Z) : list Z :=
  (fun i => a + Z.of_nat i) <$> seq 0 (Z.to_nat (b - a + 1)).

(** The two functions field by field: the letters of a month, a day and
    the last two digits of a year, with the last digit of the year; and
    the month, day and year read back from letters. *)
Definition month_letter (month digit : Z) : Z :=
  fromCharCode (Some (65 + Z.rem (xor (Some month) (Some digit)) 12)).

Definition day_letters (day digit : Z) : Z * Z :=
  let dayIndex := Z.rem (xor (Some day) (Some digit)) 31 in
  (fromCharCode (Some (65 + dayIndex / 26)), fromCharCode (Some (65 + Z.rem dayIndex 26))).

Definition year_letters (yearLastTwo : Z) : Z * Z :=
  (fromCharCode (Some (65 + yearLastTwo / 26)),
   fromCharCode (Some (65 + Z.rem yearLastTwo 26))).

Definition decoded_month (monthChar digit : Z) : Z :=
  let x := xor (Some (monthChar - 65 + 1)) (Some digit) in
  Z.rem ((if x =? 0 then 12 else x) - 1) 12 + 1.

Definition decoded_day (dayChar1 dayChar2 digit : Z) : Z :=
  let x := xor (Some ((dayChar1 - 65) * 26 + (dayChar2 - 65) + 1)) (Some digit) in
  Z.rem ((if x =? 0 then 31 else x) - 1) 31 + 1.

Definition decoded_year (yearChar1 yearChar2 referenceYear : Z) : Z :=
  let fullYear := referenceYear / 100 * 100 + ((yearChar1 - 65) * 26 + (yearChar2 - 65)) in
  if referenceYear + 50 <? fullYear then fullYear - 100 else fullYear.

(** Checks that run over the days, the months and the digits. *)
Definition two_check (n : Z) : bool :=
  match two n with
  | [c1; c2] =>
      is_digit c1 && is_digit c2 && bool_decide (parseInt [c1; c2] 0 = Some n)
  | _ => false
  end.

Definition year_check (year : Z) : bool :=
  let text := Number_toString year in
  (length text =? 4)%nat && forallb (fun c => negb (c =? dot)) text
  && bool_decide (parseInt (slice_last 1 text) 0 = Some (year mod 10))
  && bool_decide (parseInt (slice_last 2 text) 0 = Some (year mod 100)).

Definition is_capital (lo hi c : Z) : bool := (lo <=? c) && (c <=? hi).

Definition month_check (digit month : Z) : bool :=
  let c := month_letter month digit in
  let month' := decoded_month c digit in
  is_capital 65 76 c && (1 <=? month') && (month' <=? 12) && negb (month' =? month).

Definition day_check (digit day : Z) : bool :=
  let '(c1, c2) := day_letters day digit in
  let day' := decoded_day c1 c2 digit in
  is_capital 65 66 c1 && is_capital 65 90 c2
  && (1 <=? day') && (day' <=? 31) && negb (day' =? day).

Definition year_letters_check (yearLastTwo : Z) : bool :=
  let '(c1, c2) := year_letters yearLastTwo in
  is_capital 65 68 c1 && is_capital 65 90 c2
  && ((c1 - 65) * 26 + (c2 - 65) =? yearLastTwo).

End DateSpec.

(** * Test vectors and examples *)

Example sha256_constants :
  length SHA256.K = 64%nat /\
  nth 0 SHA256.K 0 = 0x428a2f98 /\ nth 63 SHA256.K 0 = 0xc67178f2 /\
  SHA256.ra SHA256.H0 = 0x6a09e667 /\ SHA256.rh SHA256.H0 = 0x5be0cd19.
Proof. repeat split. Qed.

Example sha256_abc :
  SHA256.sha256 (ascii_bytes "abc") =
  [186; 120; 22; 191; 143; 1; 207; 234; 65; 65; 64; 222; 93; 174; 34; 35;
   176; 3; 97; 163; 150; 23; 122; 156; 180; 16; 255; 97; 242; 0; 21; 173].
Proof. vm_compute. reflexivity. Qed.

Example sha256_empty :
  SHA256.sha256 [] =
  [227; 176; 196; 66; 152; 252; 28; 20; 154; 251; 244; 200; 153; 111; 185; 36;
   39; 174; 65; 228; 100; 155; 147; 76; 164; 149; 153; 27; 120; 82; 184; 85].
Proof. vm_compute. reflexivity. Qed.

Example sha256_two_blocks :
  SHA256.sha256 (repeat 97 100) =
  [40; 22; 89; 120; 136; 228; 160; 211; 163; 107; 130; 184; 51; 22; 171; 50;
   104; 14; 184; 240; 15; 140; 211; 185; 4; 214; 129; 36; 109; 40; 90; 14].
Proof. vm_compute. reflexivity. Qed.

(** RFC 5869, test case 1. *)
Example hkdf_rfc5869_case1 :
  HKDF.hkdf (repeat 0x0b 22) [0; 1; 2; 3; 4; 5; 6; 7; 8; 9; 10; 11; 12]
            [0xf0; 0xf1; 0xf2; 0xf3; 0xf4; 0xf5; 0xf6; 0xf7; 0xf8; 0xf9] 42 =
  [60; 178; 95; 37; 250; 172; 213; 122; 144; 67; 79; 100; 208; 54; 47; 42;
   45; 45; 10; 144; 207; 26; 90; 76; 93; 176; 45; 86; 236; 196; 197; 191;
   52; 0; 114; 8; 213; 184; 135; 24; 88; 101].
Proof. vm_compute. reflexivity. Qed.

(** U+00E9, U+20AC, U+1F600 (a surrogate pair) and a lone surrogate. *)
Example encode_non_ascii :
  TextEncoder.encode [0xE9; 0x20AC; 0xD83D; 0xDE00; 0xDC00] =
  [0xC3; 0xA9; 0xE2; 0x82; 0xAC; 0xF0; 0x9F; 0x98; 0x80; 0xEF; 0xBF; 0xBD].
Proof. reflexivity. Qed.

Example Number_toString_examples :
  Number_toString 3 = js "3" /\ Number_toString 120 = js "120" /\
  Number_toString 0 = js "0" /\ Number_toString (-7) = js "-7".
Proof. repeat split. Qed.

Example split_examples :
  split dot (js "accounts.example.com") = [js "accounts"; js "example"; js "com"] /\
  split dot (js "myservice") = [js "myservice"] /\
  split dot (js "") = [js ""] /\
  split dot (js "a..b.") = [js "a"; js ""; js "b"; js ""].
Proof. repeat split. Qed.

(** The password of the store's test input, and the same loop run for 40
    characters, through one refill. *)
Example password_example :
  PasswordStore.generatePasswordFromEntropy [1; 2; 3; 4; 5; 6; 7; 8] (js "example.com") 1 =
    Returned (js "LA[XD!^nNkQJ88ZhFHgp") /\
  (let seedData := [1; 2; 3; 4; 5; 6; 7; 8] ++ ascii_bytes "example" ++ ascii_bytes "v1" in
   obind (Stretcher.loop 40 seedData (Stretcher.before_loop (SHA256.sha256 seedData)))
         (fun st => Returned (Stretcher.password st))) =
    Returned (js "LA[XD!^nNkQJ88ZhFHgp2qft{%iQb)aYU_V*x67i").
Proof. split; vm_compute; reflexivity. Qed.

(** A codename from a 37-byte assertion and a dictionary of three
    entries: the seed starts 61 138 20 174 218 164 60 242 243 248 147 29,
    that is indices 0, 0 and 1. *)
Example codename_example :
  let entry c p t := {| CryptoService.char := [c]; CryptoService.pinyin := js p;
                        CryptoService.tone := t |} in
  CryptoService.codename_of_assertion
    [entry 0x9F8D "Long"%string 2; entry 0x5C71 "Shan"%string 1; entry 0x6CD5 "Fa"%string 3]
    (Z.of_nat <$> seq 1 37) (js "example") =
  Returned {| CryptoService.chineseChar := [0x9F8D; 0x9F8D; 0x5C71];
              CryptoService.pinyinNote := js "Long Long Shan 221" |}.
Proof. vm_compute. reflexivity. Qed.

Example parseInt_examples :
  JSText.parseInt (js "ff") 16 = Some 255 /\
  JSText.parseInt (js "0x1F") 16 = Some 31 /\
  JSText.parseInt (js " -a") 16 = Some (-10) /\
  JSText.parseInt (js "g1") 16 = None /\
  JSText.parseInt (js "1g") 16 = Some 1 /\
  JSText.parseInt (js "0x") 0 = None /\
  JSText.parseInt (js "08") 0 = Some 8 /\
  JSText.parseInt (js "12px") 0 = Some 12.
Proof. repeat split. Qed.

Example credential_id_examples :
  WebAuthnService.credentialId_of_rawId [0; 10; 255; 16] = js "000aff10" /\
  WebAuthnService.credentialIdBuffer (js "000aff10") = [0; 10; 255; 16] /\
  WebAuthnService.credentialIdBuffer (js "abc") = [171; 12] /\
  WebAuthnService.credentialIdBuffer (js "zz-1") = [0; 255] /\
  JSText.Number_toString_radix 16 4096 = js "1000" /\
  JSText.Number_toString_radix 10 (-305) = js "-305".
Proof. repeat split. Qed.

(** * Facts about the primitives *)

Section HashFacts.

Lemma sha256_length (m : bytes) : length (SHA256.sha256 m) = 32%nat.
Proof. reflexivity. Qed.

Lemma hmac_length (key msg : bytes) : length (HKDF.hmac key msg) = 32%nat.
Proof. apply sha256_length. Qed.

Lemma expand_blocks_length (n : nat) (prk info prev : bytes) (i : Z) :
  length (HKDF.expand_blocks n prk info prev i) = (32 * n)%nat.
Proof.
  revert prev i. induction n as [|n IH]; intros prev i; [reflexivity|].
  cbn [HKDF.expand_blocks]. rewrite length_app, hmac_length, IH. lia.
Qed.

Lemma hkdf_length (ikm salt info : bytes) (len : nat) :
  length (HKDF.hkdf ikm salt info len) = len.
Proof.
  unfold HKDF.hkdf, HKDF.expand, HKDF.hash_len.
  rewrite length_take, expand_blocks_length.
  pose proof (Nat.mul_succ_div_gt (len + 32 - 1) 32 ltac:(lia)). lia.
Qed.

End HashFacts.

Global Opaque SHA256.sha256.

(** * The character loop *)

Section StretcherFacts.
Import Stretcher.

Lemma allowedChars_length : length allowedChars = 88%nat.
Proof. reflexivity. Qed.

Lemma Uint8Array_set_fits (target source : bytes) (offset : nat) :
  (offset + length source <= length target)%nat ->
  Uint8Array_set target source offset =
  Returned (take offset target ++ source ++ drop (offset + length source) target).
Proof.
  intros Hfit. unfold Uint8Array_set.
  destruct (Nat.ltb_spec (length target) (offset + length source)); [lia | done].
Qed.

(** The three [set] calls lay the parts end to end. *)
Lemma seed_data_concat (entropy serviceBytes versionBytes : bytes) :
  PasswordStore.seed_data entropy serviceBytes versionBytes =
  Returned (entropy ++ serviceBytes ++ versionBytes).
Proof.
  unfold PasswordStore.seed_data, Uint8Array_new.
  rewrite Uint8Array_set_fits by (rewrite length_replicate; lia).
  cbn [obind]. rewrite take_0, drop_replicate. cbn [app].
  rewrite Uint8Array_set_fits by (rewrite length_app, length_replicate; lia).
  cbn [obind]. rewrite take_app_length, drop_app_add', drop_replicate by lia.
  rewrite Uint8Array_set_fits by (rewrite !length_app, length_replicate; lia).
  f_equal.
  rewrite (app_assoc entropy), take_app_length' by (rewrite length_app; lia).
  rewrite drop_ge by (rewrite !length_app, length_replicate; lia).
  by rewrite app_nil_r, <- app_assoc.
Qed.

Lemma alphabet_lookup (b : Z) :
  allowedChars !! Z.to_nat (b mod Z.of_nat (length allowedChars)) =
  Some (StretcherSpec.alphabet_char b).
Proof.
  unfold StretcherSpec.alphabet_char.
  set (i := Z.to_nat _).
  destruct (lookup_lt_is_Some_2 allowedChars i) as [c Hc].
  { subst i. rewrite allowedChars_length.
    pose proof (Z.mod_pos_bound b 88 ltac:(lia)). lia. }
  rewrite Hc. f_equal. symmetry. by apply nth_lookup_Some.
Qed.

Lemma alphabet_char_elem (b : Z) : StretcherSpec.alphabet_char b ∈ allowedChars.
Proof. eapply list_elem_of_lookup_2, alphabet_lookup. Qed.

(** One round with a byte left to read appends the character of that
    byte. *)
Lemma emit_in_range (st : loop_state) (b : Z) :
  mainHash st !! hashIndex st = Some b ->
  emit st = {| mainHash := mainHash st; hashIndex := S (hashIndex st);
               password := password st ++ [StretcherSpec.alphabet_char b] |}.
Proof. intros Hb. unfold emit. by rewrite Hb, alphabet_lookup. Qed.

(** The refill branch on a 32-byte [mainHash]. *)
Lemma refill_returns (seedData : bytes) (st : loop_state) :
  length (mainHash st) = 32%nat ->
  exists h, length h = 32%nat /\
    refill seedData st = Returned {| mainHash := h; hashIndex := 0; password := password st |}.
Proof.
  intros Hlen. unfold refill, Uint8Array_new.
  rewrite Uint8Array_set_fits by (rewrite length_replicate; lia).
  cbn [obind]. cbv zeta.
  set (newHash := SHA256.sha256 _).
  assert (length newHash = 32%nat) as HnewHash by apply sha256_length.
  rewrite Uint8Array_set_fits by lia.
  cbn [obind]. rewrite take_0, drop_ge by lia.
  cbn [app]. rewrite app_nil_r. by exists newHash.
Qed.

(** While bytes are left the loop never takes the branch [exhausted]. *)
Lemma loop_with_bytes_left exhausted (n : nat) (seedData : bytes) (st : loop_state) :
  (hashIndex st + n <= length (mainHash st))%nat ->
  loop_with exhausted n seedData st =
  Returned {| mainHash := mainHash st; hashIndex := (hashIndex st + n)%nat;
              password := password st
                ++ map StretcherSpec.alphabet_char (take n (drop (hashIndex st) (mainHash st))) |}.
Proof.
  revert st. induction n as [|n IH]; intros st Hle.
  - cbn [loop_with]. rewrite take_0, app_nil_r, Nat.add_0_r. by destruct st.
  - cbn [loop_with].
    destruct (Nat.leb_spec (length (mainHash st)) (hashIndex st)); [lia|].
    cbn [obind].
    destruct (lookup_lt_is_Some_2 (mainHash st) (hashIndex st) ltac:(lia)) as [b Hb].
    rewrite (emit_in_range _ _ Hb), IH by (cbn; lia). cbn [mainHash hashIndex password].
    rewrite (drop_S _ _ _ Hb). cbn [take map].
    rewrite <- app_assoc. do 2 f_equal. lia.
Qed.

(** Whatever the number of rounds, refills included, the loop returns
    and each round appends one character of the alphabet. *)
Lemma loop_total (n : nat) (seedData : bytes) (st : loop_state) :
  length (mainHash st) = 32%nat ->
  exists st' added,
    loop n seedData st = Returned st' /\
    password st' = password st ++ added /\
    length added = n /\ Forall (fun c => c ∈ allowedChars) added.
Proof.
  revert st. induction n as [|n IH]; intros st Hlen.
  - exists st, []. by rewrite app_nil_r.
  - unfold loop. cbn [loop_with].
    assert (exists st1, (if (length (mainHash st) <=? hashIndex st)%nat
                         then refill seedData st else Returned st) = Returned st1
              /\ length (mainHash st1) = 32%nat /\ password st1 = password st
              /\ (hashIndex st1 < 32)%nat) as (st1 & -> & Hlen1 & Hpw1 & Hidx1).
    { destruct (Nat.leb_spec (length (mainHash st)) (hashIndex st)).
      - destruct (refill_returns seedData st Hlen) as (h & Hh & ->).
        eexists; split; [reflexivity|]. cbn. repeat split; [done | lia].
      - exists st. repeat split; [done | lia]. }
    cbn [obind].
    destruct (lookup_lt_is_Some_2 (mainHash st1) (hashIndex st1) ltac:(lia)) as [b Hb].
    rewrite (emit_in_range _ _ Hb).
    destruct (IH {| mainHash := mainHash st1; hashIndex := S (hashIndex st1);
                    password := password st1 ++ [StretcherSpec.alphabet_char b] |} Hlen1)
      as (st' & added & Hrun & Hpw & Hn & Hall).
    exists st', (StretcherSpec.alphabet_char b :: added). repeat split.
    + exact Hrun.
    + rewrite Hpw. cbn [password]. by rewrite Hpw1, <- app_assoc.
    + cbn. by rewrite Hn.
    + constructor; [apply alphabet_char_elem | done].
Qed.

End StretcherFacts.

(** * Splitting on a separator *)

Section SplitFacts.

Lemma split_not_nil (sep : Z) (s : list Z) : split sep s <> [].
Proof.
  destruct s as [|c s]; cbn [split]; [done|].
  destruct (c =? sep); [done|]. by destruct (split sep s).
Qed.

Lemma join_split (sep : Z) (s : list Z) : join sep (split sep s) = s.
Proof.
  induction s as [|c s IH]; [done|]. cbn [split].
  pose proof (split_not_nil sep s) as Hne.
  destruct (Z.eqb_spec c sep) as [->|Hc].
  - destruct (split sep s) as [|seg rest]; [done|].
    cbn [join app]. cbn [join] in IH. by rewrite IH.
  - destruct (split sep s) as [|seg rest]; [done|].
    destruct rest as [|seg' rest]; cbn [join app] in *; by rewrite IH.
Qed.

Lemma split_segments (sep : Z) (s : list Z) :
  Forall (fun seg => sep ∉ seg) (split sep s).
Proof.
  induction s as [|c s IH]; cbn [split].
  - repeat constructor. apply not_elem_of_nil.
  - destruct (Z.eqb_spec c sep) as [->|Hc].
    + constructor; [apply not_elem_of_nil | done].
    + destruct (split sep s) as [|seg rest]; inversion IH; subst.
      * repeat constructor. rewrite list_elem_of_singleton. congruence.
      * constructor; [|done]. rewrite not_elem_of_cons. split; [congruence | done].
Qed.

(** No separator, one segment. *)
Lemma split_without_sep (sep : Z) (s : list Z) : sep ∉ s -> split sep s = [s].
Proof.
  induction s as [|c s IH]; [done|]. rewrite not_elem_of_cons. intros [Hc Hs].
  cbn [split]. destruct (Z.eqb_spec c sep); [congruence|]. by rewrite IH.
Qed.

Lemma split_app_sep (sep : Z) (s1 s2 : list Z) :
  sep ∉ s1 -> split sep (s1 ++ sep :: s2) = s1 :: split sep s2.
Proof.
  induction s1 as [|c s1 IH]; cbn [app split].
  - by rewrite Z.eqb_refl.
  - rewrite not_elem_of_cons. intros [Hc Hs].
    destruct (Z.eqb_spec c sep); [congruence|]. by rewrite IH.
Qed.

(** The second-to-last segment, read from the end. *)
Lemma extract_service_name_reverse (s : list Z) :
  PasswordStore.extract_service_name s =
  match reverse (split dot s) with
  | _ :: penultimate :: _ => penultimate
  | _ => s
  end.
Proof.
  unfold PasswordStore.extract_service_name.
  set (parts := split dot s).
  destruct (reverse parts) as [|last [|pen r]] eqn:Hrev;
    apply (f_equal reverse) in Hrev; rewrite reverse_involutive in Hrev;
    rewrite Hrev.
  - done.
  - done.
  - rewrite !reverse_cons, !length_app. cbn [length].
    destruct (Nat.ltb_spec 1 (length (reverse r) + 1 + 1)); [|lia].
    replace (length (reverse r) + 1 + 1 - 2)%nat with (length (reverse r) + 0)%nat by lia.
    rewrite <- app_assoc. by rewrite lookup_app_r, Nat.add_comm, Nat.add_sub by lia.
Qed.

End SplitFacts.

(** * Zeroing the bytes 21 to 24 *)

Section NormalizerFacts.
Import Heap CryptoService.

Lemma deterministic_bytes_length (data : list Z) :
  length (deterministic_bytes data) = length data.
Proof. unfold deterministic_bytes. by rewrite !length_insert. Qed.

Lemma deterministic_bytes_zeroed (data : list Z) (i : nat) :
  zeroed_index i -> (i < length data)%nat -> deterministic_bytes data !! i = Some 0.
Proof.
  unfold zeroed_index, deterministic_bytes. intros Hi Hlen.
  rewrite !list_lookup_insert, !length_insert.
  repeat case_decide; try done; lia.
Qed.

Lemma deterministic_bytes_other (data : list Z) (i : nat) :
  ~ zeroed_index i -> deterministic_bytes data !! i = data !! i.
Proof.
  unfold zeroed_index, deterministic_bytes. intros Hi.
  rewrite !list_lookup_insert_ne by lia. done.
Qed.

(** Inputs that agree outside the bytes 21 to 24 have the same image. *)
Lemma deterministic_bytes_agree (data data' : list Z) :
  length data' = length data ->
  (forall i, ~ zeroed_index i -> data' !! i = data !! i) ->
  deterministic_bytes data' = deterministic_bytes data.
Proof.
  intros Hlen Hagree. apply list_eq. intros i.
  destruct (decide (zeroed_index i)) as [Hi|Hi].
  - destruct (decide (i < length data)%nat).
    + by rewrite !deterministic_bytes_zeroed by (done || lia).
    + by rewrite !lookup_ge_None_2 by (rewrite deterministic_bytes_length; lia).
  - rewrite !deterministic_bytes_other by done. by apply Hagree.
Qed.

(** A short input: the bytes before offset 21 as they are, what is
    there from offset 21 on zero. *)
Lemma deterministic_bytes_short (data : list Z) :
  (length data < 25)%nat ->
  deterministic_bytes data = take 21 data ++ replicate (length data - 21) 0.
Proof.
  intros Hlen. apply list_eq. intros i.
  destruct (decide (i < 21)%nat) as [Hlt|Hge].
  - rewrite deterministic_bytes_other by (unfold zeroed_index; lia).
    destruct (decide (i < length data)%nat).
    + by rewrite lookup_app_l, lookup_take_lt by (rewrite ?length_take; lia).
    + rewrite !lookup_ge_None_2; [done | | lia].
      rewrite length_app, length_take, length_replicate. lia.
  - destruct (decide (i < length data)%nat).
    + rewrite deterministic_bytes_zeroed by (unfold zeroed_index; lia).
      rewrite lookup_app_r by (rewrite length_take; lia).
      symmetry. apply lookup_replicate_2. rewrite length_take. lia.
    + rewrite !lookup_ge_None_2; [done | | rewrite deterministic_bytes_length; lia].
      rewrite length_app, length_take, length_replicate. lia.
Qed.

(** The call copies its argument to a fresh address and writes there. *)
Lemma getDeterministicAuthenticatorData_run
    (h : gmap positive (list Z)) (a : positive) (data : list Z) :
  h !! a = Some data ->
  getDeterministicAuthenticatorData a h =
  (Returned (fresh (dom h)), <[fresh (dom h) := deterministic_bytes data]> h).
Proof.
  intros Ha. unfold getDeterministicAuthenticatorData, bind, Uint8Array_from.
  rewrite Ha. cbn -[fresh]. unfold store_index, ret.
  by rewrite !alter_insert_eq.
Qed.

Lemma fresh_address_unused (h : gmap positive (list Z)) : h !! fresh (dom h) = None.
Proof. apply not_elem_of_dom, is_fresh. Qed.

End NormalizerFacts.

(** * The stored list *)

Section StoreFacts.
Import PasswordStore StoreSpec.

Lemma same_entry_key (serviceName : list Z) (v : Z) (p : GeneratedPassword) :
  same_entry serviceName v p = true <-> entry_key p = (serviceName, v).
Proof.
  unfold same_entry, entry_key.
  rewrite andb_true_iff, bool_decide_eq_true, Z.eqb_eq. split.
  - by intros [-> ->].
  - intros [= -> ->]. done.
Qed.

(** [findIndex] finds the first element that passes, if there is one. *)
Lemma findIndex_found {A} (f : A -> bool) (a : list A) (i : nat) (x : A) :
  a !! i = Some x -> f x = true ->
  (forall j y, (j < i)%nat -> a !! j = Some y -> f y = false) ->
  findIndex f a = Z.of_nat i.
Proof.
  revert i. induction a as [|z a IH]; intros i Hi Hx Hfirst; [done|].
  cbn [findIndex]. destruct i as [|i].
  - injection Hi as ->. by rewrite Hx.
  - rewrite (Hfirst 0%nat z) by (done || lia).
    assert (findIndex f a = Z.of_nat i) as ->.
    { apply IH; [done | done |]. intros j y Hj Hy. apply (Hfirst (S j) y); [lia | done]. }
    destruct (Z.ltb_spec (Z.of_nat i) 0); lia.
Qed.

Lemma findIndex_none {A} (f : A -> bool) (a : list A) :
  Forall (fun x => f x = false) a -> findIndex f a = -1.
Proof.
  induction 1 as [|x a Hx _ IH]; [done|]. cbn [findIndex]. by rewrite Hx, IH.
Qed.

Lemma findIndex_cases {A} (f : A -> bool) (a : list A) :
  (findIndex f a = -1 /\ Forall (fun x => f x = false) a) \/
  (exists i x, findIndex f a = Z.of_nat i /\ a !! i = Some x /\ f x = true).
Proof.
  induction a as [|z a IH]; [by left|]. cbn [findIndex].
  destruct (f z) eqn:Hz.
  - right. by exists 0%nat, z.
  - destruct IH as [[-> Hall]|(i & x & -> & Hi & Hx)].
    + left. split; [done | by constructor].
    + right. exists (S i), x.
      destruct (Z.ltb_spec (Z.of_nat i) 0); [lia|]. split; [lia | done].
Qed.

Lemma record_password_invariant (g : GeneratedPassword) (l : list GeneratedPassword) :
  NoDup (entry_key <$> l) -> bounded_and_unique (record_password g l).
Proof.
  intros Hnodup. unfold record_password.
  set (l' := if 0 <=? findIndex _ l then _ else _).
  assert (NoDup (entry_key <$> l')) as Hnodup'.
  { subst l'.
    destruct (findIndex_cases (same_entry (service g) (version g)) l)
      as [[-> Hall]|(i & x & -> & Hi & Hx)].
    - cbn. apply NoDup_cons. split; [|done].
      rewrite list_elem_of_fmap. intros (p & Hkey & Hp).
      rewrite Forall_forall in Hall. specialize (Hall p Hp).
      assert (same_entry (service g) (version g) p = true) by by apply same_entry_key.
      congruence.
    - destruct (Z.leb_spec 0 (Z.of_nat i)); [|lia].
      rewrite Nat2Z.id, list_fmap_insert.
      apply same_entry_key in Hx.
      rewrite list_insert_id; [done|]. by rewrite list_lookup_fmap, Hi; cbn; rewrite Hx. }
  split.
  - destruct (Nat.ltb_spec 100 (length l')); [rewrite length_take|]; lia.
  - destruct (100 <? length l')%nat; [|done].
    rewrite fmap_take. eapply sublist_NoDup; [exact Hnodup' | apply sublist_take].
Qed.

Lemma filter_invariant (P : GeneratedPassword -> Prop) `{!forall p, Decision (P p)}
    (l : list GeneratedPassword) :
  bounded_and_unique l -> bounded_and_unique (filter P l).
Proof.
  intros [Hlen Hnodup]. split.
  - pose proof (length_filter P l). lia.
  - eapply sublist_NoDup; [exact Hnodup|]. apply fmap_sublist, sublist_filter.
Qed.

Lemma bounded_and_unique_nil : bounded_and_unique [].
Proof. split; [cbn; lia | constructor]. Qed.

(** Each stretch of a call keeps the list as it is or records one
    password. *)
Lemma generatePassword_begin_invariant credentials serviceName v s :
  bounded_and_unique (passwords s) ->
  bounded_and_unique (passwords (snd (generatePassword_begin credentials serviceName v s))).
Proof. unfold generatePassword_begin. by destruct credentials. Qed.

Lemma resume_invariant (w : world) (k : suspended) (s : store) :
  bounded_and_unique (passwords s) ->
  bounded_and_unique (passwords (snd (resume w k s))).
Proof.
  intros Hinv. destruct k as [serviceName v credential challenge|serviceName v credential entropy];
    cbn [resume].
  - unfold generatePassword_entropy.
    by destruct (getEntropy w (id credential) challenge) as [[entropy|]|error].
  - unfold generatePassword_finish.
    destruct (generatePasswordFromEntropy entropy serviceName v) as [pw|error]; [|done].
    cbn. apply record_password_invariant, Hinv.
Qed.

Lemma removePassword_invariant serviceName v (s : store) :
  bounded_and_unique (passwords s) ->
  bounded_and_unique (passwords (removePassword serviceName v s)).
Proof. intros Hinv. unfold removePassword. cbn. by apply filter_invariant. Qed.

Lemma step_invariant (sys : system) (e : event) :
  bounded_and_unique (passwords (the_store sys)) ->
  bounded_and_unique (passwords (the_store (step sys e))).
Proof.
  intros Hinv. destruct e as [w serviceName v|i w|serviceName v|]; cbn [step].
  - pose proof (generatePassword_begin_invariant (credentials w) serviceName v _ Hinv) as H.
    by destruct (generatePassword_begin _ _ _ _) as [[k|r] s].
  - destruct (calls sys !! i) as [k|]; [|done].
    pose proof (resume_invariant w k _ Hinv) as H.
    by destruct (resume w k (the_store sys)) as [[k'|r] s].
  - by apply removePassword_invariant.
  - apply bounded_and_unique_nil.
Qed.

Lemma run_invariant (evs : list event) (sys : system) :
  bounded_and_unique (passwords (the_store sys)) ->
  bounded_and_unique (passwords (the_store (run evs sys))).
Proof.
  revert sys. induction evs as [|e evs IH]; intros sys Hinv; [done|].
  apply IH, step_invariant, Hinv.
Qed.

Lemma generatePassword_invariant (w : world) serviceName v (s : store) :
  bounded_and_unique (passwords s) ->
  bounded_and_unique (passwords (snd (generatePassword w serviceName v s))).
Proof.
  intros Hinv. unfold generatePassword.
  pose proof (generatePassword_begin_invariant (credentials w) serviceName v _ Hinv) as H0.
  destruct (generatePassword_begin _ _ _ _) as [[k|r] s0]; cbn [snd] in *; [|done].
  pose proof (resume_invariant w k _ H0) as H1.
  destruct (resume w k s0) as [[k1|r] s1]; cbn [snd] in *; [|done].
  pose proof (resume_invariant w k1 _ H1) as H2.
  by destruct (resume w k1 s1) as [[k2|r] s2].
Qed.

Lemma apply_operation_invariant (s : store) (op : operation) :
  bounded_and_unique (passwords s) ->
  bounded_and_unique (passwords (apply_operation s op)).
Proof.
  intros Hinv. destruct op as [w serviceName v|serviceName v|]; cbn [apply_operation].
  - by apply generatePassword_invariant.
  - by apply removePassword_invariant.
  - apply bounded_and_unique_nil.
Qed.

End StoreFacts.

(** * Calls in flight *)

Section CallFacts.
Import PasswordStore StoreSpec.

Lemma interactions_le_calls (sys : system) :
  (authenticator_interactions sys <= length (calls sys))%nat.
Proof. apply length_filter. Qed.

(** A suspended call that goes on to its second [await] leaves the store
    alone. *)
Lemma resume_suspends (w : world) (k k' : suspended) (s s' : store) :
  resume w k s = (Suspends k', s') -> s' = s.
Proof.
  destruct k as [serviceName v credential challenge|serviceName v credential entropy];
    cbn [resume].
  - unfold generatePassword_entropy, catch_finally.
    destruct (getEntropy w (id credential) challenge) as [[entropy|]|error]; congruence.
  - unfold generatePassword_finish, catch_finally.
    destruct (generatePasswordFromEntropy entropy serviceName v); congruence.
Qed.

Lemma step_one_call_at_most (sys : system) (e : event) :
  one_call_at_most sys ->
  button_guarded [e] sys = true ->
  one_call_at_most (step sys e).
Proof.
  intros [Hlen Hidle] Hguard. cbn [button_guarded] in Hguard.
  rewrite andb_true_r in Hguard.
  destruct e as [w serviceName v|i w|serviceName v|]; cbn [step].
  - apply negb_true_iff in Hguard. specialize (Hidle Hguard).
    unfold generatePassword_begin. rewrite Hidle.
    destruct (credentials w) as [|credential rest]; split; cbn; try done; lia.
  - destruct (calls sys !! i) as [k|] eqn:Hi; [|done].
    destruct (calls sys) as [|k0 [|k1 rest]] eqn:Hcalls; cbn in Hlen; [done | | lia].
    destruct i as [|i]; [|done]. injection Hi as <-.
    destruct (resume w k0 (the_store sys)) as [[k'|r] s'] eqn:Hres.
    + apply resume_suspends in Hres as ->. split; [cbn; lia|].
      intros Hflag. by specialize (Hidle Hflag).
    + split; [cbn; lia | done].
  - split; [done|]. exact Hidle.
  - split; [done|]. exact Hidle.
Qed.

Lemma run_one_call_at_most (evs : list event) (sys : system) :
  one_call_at_most sys ->
  button_guarded evs sys = true ->
  one_call_at_most (run evs sys).
Proof.
  revert sys. induction evs as [|e evs IH]; intros sys Hinv Hguard; [done|].
  cbn [button_guarded] in Hguard. apply andb_true_iff in Hguard as [He Hrest].
  cbn [run fold_left]. apply IH; [|done].
  apply step_one_call_at_most; [done|]. cbn [button_guarded]. by rewrite He.
Qed.

(** What a call does depends on the world through the answers it gets. *)
Lemma getEntropy_same_answer (w1 w2 : world) (credentialId challenge : list Z) :
  isSupported w1 = isSupported w2 ->
  credentials_get w1 (TextEncoder.encode challenge) credentialId =
    credentials_get w2 (TextEncoder.encode challenge) credentialId ->
  getEntropy w1 credentialId challenge = getEntropy w2 credentialId challenge.
Proof. intros Hs Hg. unfold getEntropy. by rewrite Hs, Hg. Qed.

Lemma resume_same_world (w1 w2 : world) (k : suspended) (s : store) :
  clock w1 = clock w2 ->
  (forall serviceName v credential challenge,
      k = AwaitEntropy serviceName v credential challenge ->
      getEntropy w1 (id credential) challenge = getEntropy w2 (id credential) challenge) ->
  resume w1 k s = resume w2 k s.
Proof.
  intros Hclock Hentropy.
  destruct k as [serviceName v credential challenge|serviceName v credential entropy];
    cbn [resume].
  - by rewrite (Hentropy _ _ _ _ eq_refl).
  - by rewrite Hclock.
Qed.

(** The second [await] of a call is never on the authenticator. *)
Lemma resume_next_await (w : world) (k k' : suspended) (s s' : store) :
  resume w k s = (Suspends k', s') -> awaits_authenticator k' = false.
Proof.
  destruct k as [serviceName v credential challenge|serviceName v credential entropy];
    cbn [resume].
  - unfold generatePassword_entropy, catch_finally.
    destruct (getEntropy w (id credential) challenge) as [[entropy|]|error];
      intros [= <- <-]. done.
  - unfold generatePassword_finish, catch_finally.
    destruct (generatePasswordFromEntropy entropy serviceName v); intros [=].
Qed.

Lemma generatePassword_same_world (w1 w2 : world) (serviceName : list Z) (v : Z)
    (s : store) :
  credentials w1 = credentials w2 ->
  isSupported w1 = isSupported w2 ->
  clock w1 = clock w2 ->
  (forall credential, head (credentials w1) = Some credential ->
     credentials_get w1 (TextEncoder.encode (challenge_text serviceName v)) (id credential) =
     credentials_get w2 (TextEncoder.encode (challenge_text serviceName v)) (id credential)) ->
  generatePassword w1 serviceName v s = generatePassword w2 serviceName v s.
Proof.
  intros Hcreds Hsupported Hclock Hget.
  unfold generatePassword. rewrite <- Hcreds.
  destruct (generatePassword_begin (credentials w1) serviceName v s) as [[k|r] s0] eqn:Hbegin;
    [|done].
  assert (resume w1 k s0 = resume w2 k s0) as <-.
  { apply resume_same_world; [done|].
    intros serviceName' v' credential challenge ->.
    unfold generatePassword_begin in Hbegin.
    destruct (credentials w1) as [|credential0 rest]; [done|].
    injection Hbegin as <- <- <- <- <-.
    apply getEntropy_same_answer; [done|]. exact (Hget credential0 eq_refl). }
  destruct (resume w1 k s0) as [[k1|r] s1] eqn:Hres; [|done].
  assert (resume w1 k1 s1 = resume w2 k1 s1) as <-; [|done].
  apply resume_same_world; [done|].
  intros serviceName' v' credential challenge ->.
  by apply resume_next_await in Hres.
Qed.

End CallFacts.

(** * The service label *)

Section ServiceLabel.
Import PasswordStore.

(** A name of three dot-free parts: the label is the middle one. *)
Lemma extract_service_name_three (a b c : list Z) :
  dot ∉ a -> dot ∉ b -> dot ∉ c ->
  extract_service_name (a ++ dot :: b ++ dot :: c) = b.
Proof.
  intros Ha Hb Hc. unfold extract_service_name.
  by rewrite !split_app_sep, split_without_sep.
Qed.

(** A name of two dot-free parts: the label is the first. *)
Lemma extract_service_name_two (a b : list Z) :
  dot ∉ a -> dot ∉ b -> extract_service_name (a ++ dot :: b) = a.
Proof.
  intros Ha Hb. unfold extract_service_name.
  by rewrite split_app_sep, split_without_sep.
Qed.

(** C4.  The segments of a service input are what lies between its dots:
    joined with dots they give the input back and none holds a dot.  With
    more than one segment the label is the second-to-last of them, with
    one segment it is the input unchanged; "accounts.example.com" gives
    "example" and "myservice" gives "myservice". *)
Theorem canonical_label_is_penultimate_segment (fullServiceName : list Z) :
  let parts := split dot fullServiceName in
  join dot parts = fullServiceName /\
  Forall (fun seg => dot ∉ seg) parts /\
  extract_service_name fullServiceName =
    match reverse parts with
    | _ :: penultimate :: _ => penultimate
    | _ => fullServiceName
    end /\
  extract_service_name (js "accounts.example.com") = js "example" /\
  extract_service_name (js "myservice") = js "myservice".
Proof.
  cbv zeta. split; [apply join_split|].
  split; [apply split_segments|].
  split; [apply extract_service_name_reverse|].
  split; reflexivity.
Qed.

End ServiceLabel.

(** * The password stretcher *)

Section PasswordStretcher.
Import Stretcher PasswordStore StretcherSpec.

Lemma generatePasswordFromEntropy_simple (entropy fullServiceName : list Z) (version : Z) :
  generatePasswordFromEntropy entropy fullServiceName version =
  Returned (simple_stretcher entropy fullServiceName version).
Proof.
  unfold generatePasswordFromEntropy, simple_stretcher, loop.
  rewrite seed_data_concat. cbn [obind].
  rewrite loop_with_bytes_left by (cbn; rewrite sha256_length; lia).
  cbn [obind Stretcher.password mainHash hashIndex app]. by rewrite drop_0.
Qed.

(** C7.  For every entropy, service name and version the password has
    exactly 20 characters, all of the alphabet; the loop run for any
    number of characters, past the 32 bytes of one digest where it
    refills, returns that many characters of the alphabet; and the
    alphabet is printable ASCII. *)
Theorem password_length_and_alphabet (entropy fullServiceName : list Z) (version : Z) :
  (exists pw,
      generatePasswordFromEntropy entropy fullServiceName version = Returned pw /\
      length pw = 20%nat /\ Forall (fun c => c ∈ allowedChars) pw) /\
  (forall (n : nat) (seedData : list Z),
      exists st,
        loop n seedData (before_loop (SHA256.sha256 seedData)) = Returned st /\
        length (Stretcher.password st) = n /\
        Forall (fun c => c ∈ allowedChars) (Stretcher.password st)) /\
  forallb (fun c => (32 <? c) && (c <? 127)) allowedChars = true.
Proof.
  assert (forall (n : nat) (seedData : list Z),
      exists st,
        loop n seedData (before_loop (SHA256.sha256 seedData)) = Returned st /\
        length (Stretcher.password st) = n /\
        Forall (fun c => c ∈ allowedChars) (Stretcher.password st)) as Hloop.
  { intros n seedData.
    destruct (loop_total n seedData (before_loop (SHA256.sha256 seedData))
                (sha256_length _)) as (st & added & Hrun & Hpw & Hn & Hall).
    exists st. cbn in Hpw. by rewrite Hpw. }
  split; [|split; [exact Hloop | reflexivity]].
  unfold generatePasswordFromEntropy. rewrite seed_data_concat. cbn [obind].
  destruct (Hloop 20%nat (entropy ++ TextEncoder.encode (extract_service_name fullServiceName)
              ++ TextEncoder.encode (js "v" ++ Number_toString version)))
    as (st & -> & Hn & Hall).
  by exists (Stretcher.password st).
Qed.

(** C10.  The stretcher equals the simple function: the first 20 bytes of
    SHA-256(entropy || label bytes || "v" version bytes), each mapped by
    byte mod alphabet length to its character.  The refill branch is never
    run: with any other code in its place the 20 rounds give the same. *)
Theorem stretcher_equals_simple_function (entropy fullServiceName : list Z) (version : Z) :
  generatePasswordFromEntropy entropy fullServiceName version =
    Returned (simple_stretcher entropy fullServiceName version) /\
  (forall exhausted (seedData : list Z),
      loop_with exhausted 20 seedData
        (before_loop (SHA256.sha256 seedData)) =
      loop 20 seedData
        (before_loop (SHA256.sha256 seedData))).
Proof.
  split; [apply generatePasswordFromEntropy_simple|].
  intros exhausted seedData. unfold loop.
  by rewrite !loop_with_bytes_left by (cbn; rewrite sha256_length; lia).
Qed.

End PasswordStretcher.

(** * The assertion normalizer *)

Section AssertionNormalizer.
Import Heap CryptoService.

(** What [getDeterministicAuthenticatorData] does to data of at least 25
    bytes: it returns a buffer at an address that was not in use; the
    buffer of the argument is as before; the result has the length of the
    input, zero at the offsets 21 to 24 and the input's byte everywhere
    else.  Data that differs from this one at the offsets 21 to 24 only
    gives a buffer with the same bytes. *)
Lemma normalization_writes_offsets_21_to_24
    (h : gmap positive (list Z)) (a : positive) (data : list Z) :
  h !! a = Some data ->
  (21 + 4 <= length data)%nat ->
  exists d out,
    getDeterministicAuthenticatorData a h = (Returned d, <[d := out]> h) /\
    h !! d = None /\
    <[d := out]> h !! a = Some data /\
    length out = length data /\
    (forall i, (21 <= i <= 24)%nat -> out !! i = Some 0) /\
    (forall i, ~ (21 <= i <= 24)%nat -> out !! i = data !! i) /\
    (forall (h' : gmap positive (list Z)) (a' : positive) (data' : list Z),
        h' !! a' = Some data' ->
        length data' = length data ->
        (forall i, ~ (21 <= i <= 24)%nat -> data' !! i = data !! i) ->
        exists d', getDeterministicAuthenticatorData a' h' = (Returned d', <[d' := out]> h')).
Proof.
  intros Ha Hlen.
  exists (fresh (dom h)), (deterministic_bytes data).
  pose proof (fresh_address_unused h) as Hfresh.
  split; [by apply getDeterministicAuthenticatorData_run|].
  split; [done|].
  split; [rewrite lookup_insert_ne; [done | congruence]|].
  split; [apply deterministic_bytes_length|].
  split; [intros i Hi; apply deterministic_bytes_zeroed; [done | lia]|].
  split; [intros i Hi; by apply deterministic_bytes_other|].
  intros h' a' data' Ha' Hlen' Hagree.
  exists (fresh (dom h')).
  rewrite (getDeterministicAuthenticatorData_run h' a' data' Ha').
  by rewrite (deterministic_bytes_agree data data').
Qed.

(** The signature counter goes through the code untouched. *)
Lemma deterministic_bytes_signCount (data : list Z) :
  AuthenticatorData.signCount (deterministic_bytes data) = AuthenticatorData.signCount data.
Proof.
  unfold AuthenticatorData.signCount. apply list_eq. intros i.
  destruct (decide (i < 4)%nat) as [Hi|Hi].
  - rewrite !lookup_take_lt, !lookup_drop by done.
    apply deterministic_bytes_other. unfold zeroed_index. lia.
  - by rewrite !lookup_take_ge by lia.
Qed.

(** C2, against the code.  The signature counter of WebAuthn's
    authenticator data is in the bytes 33 to 36.
    [getDeterministicAuthenticatorData] zeroes the bytes 21 to 24, which
    lie in the hash of the relying party id, and leaves the counter: for
    authenticator data of at least 37 bytes the result has the counter of
    the input and four zeroed bytes in the hash, and two inputs whose
    counters differ give buffers that differ. *)
Theorem signature_counter_not_zeroed
    (h : gmap positive (list Z)) (a a' : positive) (data data' : list Z) :
  h !! a = Some data -> h !! a' = Some data' ->
  (37 <= length data)%nat ->
  AuthenticatorData.signCount data' <> AuthenticatorData.signCount data ->
  exists d d' out out',
    getDeterministicAuthenticatorData a h = (Returned d, <[d := out]> h) /\
    getDeterministicAuthenticatorData a' h = (Returned d', <[d' := out']> h) /\
    AuthenticatorData.signCount out = AuthenticatorData.signCount data /\
    AuthenticatorData.signCount out' = AuthenticatorData.signCount data' /\
    (forall i, (21 <= i <= 24)%nat -> AuthenticatorData.rpIdHash out !! i = Some 0) /\
    out <> out'.
Proof.
  intros Ha Ha' Hlen Hdiffer.
  exists (fresh (dom h)), (fresh (dom h)), (deterministic_bytes data),
    (deterministic_bytes data').
  split; [by apply getDeterministicAuthenticatorData_run|].
  split; [by apply getDeterministicAuthenticatorData_run|].
  split; [apply deterministic_bytes_signCount|].
  split; [apply deterministic_bytes_signCount|].
  split.
  - intros i Hi. unfold AuthenticatorData.rpIdHash. rewrite lookup_take_lt by lia.
    apply deterministic_bytes_zeroed; [done | lia].
  - intros Heq. apply Hdiffer.
    by rewrite <- (deterministic_bytes_signCount data),
      <- (deterministic_bytes_signCount data'), Heq.
Qed.

(** Two authenticator data of 37 bytes with the same hash and flags, and
    the counters 5 and 6. *)
Lemma signature_counter_not_zeroed_witness :
  let data := (Z.of_nat <$> seq 1 32) ++ [1; 0; 0; 0; 5] in
  let data' := (Z.of_nat <$> seq 1 32) ++ [1; 0; 0; 0; 6] in
  let h : gmap positive (list Z) := {[1%positive := data; 2%positive := data']} in
  (forall i, ~ AuthenticatorData.signCount_index i -> data' !! i = data !! i) /\
  exists d d' out out',
    getDeterministicAuthenticatorData 1%positive h = (Returned d, <[d := out]> h) /\
    getDeterministicAuthenticatorData 2%positive h = (Returned d', <[d' := out']> h) /\
    AuthenticatorData.signCount out = AuthenticatorData.signCount data /\
    AuthenticatorData.signCount out' = AuthenticatorData.signCount data' /\
    (forall i, (21 <= i <= 24)%nat -> AuthenticatorData.rpIdHash out !! i = Some 0) /\
    out <> out'.
Proof.
  cbv zeta. split.
  - intros i Hi. unfold AuthenticatorData.signCount_index in Hi.
    destruct (decide (i < 33)%nat) as [Hlt|Hge].
    + do 33 (destruct i as [|i]; [reflexivity|]). lia.
    + do 33 (destruct i as [|i]; [lia|]).
      do 4 (destruct i as [|i]; [lia|]). reflexivity.
  - apply signature_counter_not_zeroed.
    + reflexivity.
    + reflexivity.
    + cbn. lia.
    + vm_compute. intros H. discriminate H.
Defined.

(** C3, as the code has it.  [getDeterministicAuthenticatorData] checks
    no length.  For an assertion shorter than 25 bytes it returns a new
    buffer of the same length: the bytes before offset 21 as they are, the
    bytes from offset 21 on, if any, zero. *)
Theorem short_assertion_is_normalized
    (h : gmap positive (list Z)) (a : positive) (data : list Z) :
  h !! a = Some data ->
  (length data < 21 + 4)%nat ->
  exists d,
    getDeterministicAuthenticatorData a h =
      (Returned d, <[d := take 21 data ++ replicate (length data - 21) 0]> h) /\
    h !! d = None.
Proof.
  intros Ha Hlen. exists (fresh (dom h)).
  rewrite (getDeterministicAuthenticatorData_run h a data Ha).
  rewrite deterministic_bytes_short by lia.
  split; [done | apply fresh_address_unused].
Qed.

Lemma short_assertion_is_normalized_witness :
  exists d,
    getDeterministicAuthenticatorData 1%positive {[1%positive := Z.of_nat <$> seq 1 23]} =
      (Returned d,
       <[d := (Z.of_nat <$> seq 1 21) ++ [0; 0]]> {[1%positive := Z.of_nat <$> seq 1 23]}) /\
    ({[1%positive := Z.of_nat <$> seq 1 23]} : gmap positive (list Z)) !! d = None.
Proof.
  destruct (short_assertion_is_normalized
              {[1%positive := Z.of_nat <$> seq 1 23]} 1%positive (Z.of_nat <$> seq 1 23))
    as (d & Hrun & Hnew).
  - reflexivity.
  - cbn. lia.
  - exists d. split; [exact Hrun | exact Hnew].
Defined.

(** C3, against the claim: a 23-byte assertion is shorter than 21 + 4
    bytes, and the call does not throw: it returns a buffer. *)
Lemma short_assertion_not_rejected :
  (length (Z.of_nat <$> seq 1 23) < 21 + 4)%nat /\
  ~ throws (fst (getDeterministicAuthenticatorData 1%positive
                   {[1%positive := Z.of_nat <$> seq 1 23]})) /\
  returns (fst (getDeterministicAuthenticatorData 1%positive
                  {[1%positive := Z.of_nat <$> seq 1 23]})).
Proof.
  rewrite (getDeterministicAuthenticatorData_run _ 1%positive (Z.of_nat <$> seq 1 23))
    by reflexivity.
  split; [cbn; lia|]. split.
  - intros [e He]. discriminate He.
  - by eexists.
Qed.

End AssertionNormalizer.

(** * The stored list and the calls in flight *)

Section StoredList.
Import PasswordStore StoreSpec.

(** C9, as the code has it.  From a list that holds at most 100 entries
    and no two for one service and version, the list still does after any
    sequence of [generatePassword], [removePassword] and [clearPasswords],
    run one after the other or with the stretches of several calls
    interleaved.  The empty list is such a list, and so is the list that
    [loadPasswords] reads at the start of a session from what such a list
    without a version 0 was saved as.  After a password is recorded the
    list has at most 100 entries, whatever it was.
    Recording a password whose service and version have an entry
    replaces that entry where it is; recording one that has none puts it
    in front and keeps the first 100: from a list of 100 it is the entry
    at the end that goes, whenever that entry was made. *)
Theorem stored_list_bounded_and_unique :
  bounded_and_unique (passwords initial_store) /\
  (forall (s : store) (ops : list operation),
      bounded_and_unique (passwords s) ->
      bounded_and_unique (passwords (fold_left apply_operation ops s))) /\
  (forall (sys : system) (evs : list event),
      bounded_and_unique (passwords (the_store sys)) ->
      bounded_and_unique (passwords (the_store (run evs sys)))) /\
  (forall s : store,
      bounded_and_unique (passwords s) -> Forall (fun p => version p <> 0) (passwords s) ->
      bounded_and_unique (passwords (loadPasswords (savePasswords s) initial_store))) /\
  (forall (g : GeneratedPassword) (l : list GeneratedPassword),
      (length (record_password g l) <= 100)%nat) /\
  (forall (g old : GeneratedPassword) (l : list GeneratedPassword) (i : nat),
      bounded_and_unique l -> l !! i = Some old -> entry_key old = entry_key g ->
      record_password g l = <[i := g]> l) /\
  (forall (g : GeneratedPassword) (l : list GeneratedPassword),
      entry_key g ∉ (entry_key <$> l) -> record_password g l = take 100 (g :: l)) /\
  (forall (g last : GeneratedPassword) (l : list GeneratedPassword),
      entry_key g ∉ (entry_key <$> l ++ [last]) -> length (l ++ [last]) = 100%nat ->
      record_password g (l ++ [last]) = g :: l).
Proof.
  assert (forall (g : GeneratedPassword) (l : list GeneratedPassword),
             entry_key g ∉ (entry_key <$> l) -> record_password g l = take 100 (g :: l))
    as Hadd.
  { intros g l Hnew. unfold record_password.
    rewrite findIndex_none.
    - change (0 <=? -1) with false. cbv iota.
      destruct (Nat.ltb_spec 100 (length (g :: l))); [done|].
      by rewrite take_ge.
    - apply Forall_forall. intros p Hp.
      destruct (same_entry _ _ p) eqn:Hsame; [|done].
      apply same_entry_key in Hsame. exfalso. apply Hnew.
      apply list_elem_of_fmap. by exists p. }
  split; [apply bounded_and_unique_nil|].
  split; [|split; [|split; [|split; [|split; [|split]]]]].
  - intros s ops. revert s.
    induction ops as [|op ops IH]; intros s Hinv; [done|].
    apply IH, apply_operation_invariant, Hinv.
  - intros sys evs. apply run_invariant.
  - intros s Hinv Hversions.
    assert (passwords (loadPasswords (savePasswords s) initial_store) = passwords s)
      as ->; [|done].
    unfold loadPasswords, savePasswords. cbn [passwords set_passwords].
    rewrite map_map. clear Hinv. revert Hversions. generalize (passwords s).
    intros l Hl. induction Hl as [|p l Hp _ IH]; [done|].
    cbn [map]. rewrite IH. f_equal.
    destruct p as [? ? v ? ?]. cbn in *. by destruct (Z.eqb_spec v 0).
  - intros g l. unfold record_password.
    set (l' := if 0 <=? findIndex _ l then _ else _).
    destruct (Nat.ltb_spec 100 (length l')); [|done].
    change firstn with (@take GeneratedPassword). rewrite length_take. lia.
  - intros g old l i [Hlen Hnodup] Hi Hkey. unfold record_password.
    rewrite (findIndex_found _ l i old Hi).
    + destruct (Z.leb_spec 0 (Z.of_nat i)); [|lia].
      rewrite Nat2Z.id, length_insert.
      by destruct (Nat.ltb_spec 100 (length l)); [lia|].
    + apply same_entry_key. by rewrite Hkey.
    + intros j y Hj Hy. destruct (same_entry _ _ y) eqn:Hsame; [|done].
      apply same_entry_key in Hsame.
      assert (j = i); [|lia].
      apply (NoDup_lookup _ j i (entry_key g) Hnodup); rewrite list_lookup_fmap.
      * rewrite Hy. cbn. by rewrite Hsame.
      * rewrite Hi. cbn. by rewrite Hkey.
  - exact Hadd.
  - intros g last l Hnew Hlen. rewrite (Hadd g (l ++ [last]) Hnew).
    rewrite length_app in Hlen. cbn [length] in Hlen.
    change (take 100 (g :: l ++ [last])) with (g :: take 99 (l ++ [last])).
    f_equal. apply take_app_length'. lia.
Qed.

(** An entry replaced where it is, an entry put in front, and the invariant
    through a run from a list of two entries. *)
Lemma stored_list_bounded_and_unique_witness :
  let a_old := {| service := js "a.example"; password := js "old"; version := 1;
                  generated := 0; credentialId := js "key" |} in
  let a_new := {| service := js "a.example"; password := js "new"; version := 1;
                  generated := 2; credentialId := js "key" |} in
  let a_two := {| service := js "a.example"; password := js "new"; version := 2;
                  generated := 2; credentialId := js "key" |} in
  let b := {| service := js "b.example"; password := js "other"; version := 1;
              generated := 1; credentialId := js "key" |} in
  let s := {| passwords := [b; a_old]; isGenerating := false; lastError := None |} in
  record_password a_new [b; a_old] = [b; a_new] /\
  record_password a_two [a_old] = [a_two; a_old] /\
  bounded_and_unique
    (passwords (fold_left apply_operation
                  [Generate (StoreScenario.world_at 3) (js "a.example") 1;
                   RemoveEntry (js "b.example") 1] s)).
Proof.
  cbv zeta.
  destruct stored_list_bounded_and_unique as (_ & Hops & _ & _ & _ & Hreplace & Hadd & _).
  assert (bounded_and_unique
            [ {| service := js "b.example"; password := js "other"; version := 1;
                 generated := 1; credentialId := js "key" |};
              {| service := js "a.example"; password := js "old"; version := 1;
                 generated := 0; credentialId := js "key" |} ]) as Hinv.
  { split; [cbn; lia|]. apply NoDup_cons. split; [|apply NoDup_singleton].
    rewrite list_elem_of_singleton. vm_compute. intros H. discriminate H. }
  split; [|split].
  - rewrite (Hreplace _ {| service := js "a.example"; password := js "old"; version := 1;
                           generated := 0; credentialId := js "key" |} _ 1%nat);
      [reflexivity | exact Hinv | reflexivity | reflexivity].
  - rewrite Hadd; [reflexivity|].
    rewrite list_fmap_singleton, list_elem_of_singleton. vm_compute. intros H. discriminate H.
  - apply Hops. exact Hinv.
Defined.

(** C9, against the claim.  First: version 1 of a hundred services, then
    of the first service again, then of one more service.  The list
    before the last cut holds the entries of the times 2 to 102; the 100
    kept are not the most recent: the entry of time 101 is gone and the
    entry of time 2 is there.  Second: a session records the versions 0
    and 1 of a service; the next session reads version 0 as 1 and starts
    with two entries for one service and version, and recording that
    version again leaves two. *)
Lemma hundred_most_recent_not_kept :
  (generated <$> passwords (fold_left apply_operation StoreScenario.hundred_and_two
                              initial_store) =
     102 :: (Z.of_nat <$> reverse (seq 2 99)) /\
   (101 ∉ generated <$> passwords (fold_left apply_operation StoreScenario.hundred_and_two
                                     initial_store)) /\
   (2 ∈ generated <$> passwords (fold_left apply_operation StoreScenario.hundred_and_two
                                   initial_store))) /\
  (entry_key <$> passwords StoreScenario.first_session = [(js "a", 1); (js "a", 0)] /\
   entry_key <$> passwords StoreScenario.next_session = [(js "a", 1); (js "a", 1)] /\
   ~ bounded_and_unique (passwords StoreScenario.next_session) /\
   entry_key <$> passwords
     (apply_operation StoreScenario.next_session
        (Generate (StoreScenario.world_at 3) (js "a") 1)) = [(js "a", 1); (js "a", 1)] /\
   ~ bounded_and_unique
       (passwords (apply_operation StoreScenario.next_session
                     (Generate (StoreScenario.world_at 3) (js "a") 1)))).
Proof.
  assert (generated <$> passwords (fold_left apply_operation StoreScenario.hundred_and_two
                                     initial_store) =
          102 :: (Z.of_nat <$> reverse (seq 2 99))) as Htimes.
  { vm_compute. reflexivity. }
  assert (entry_key <$> passwords StoreScenario.next_session = [(js "a", 1); (js "a", 1)])
    as Hnext.
  { vm_compute. reflexivity. }
  assert (entry_key <$> passwords
            (apply_operation StoreScenario.next_session
               (Generate (StoreScenario.world_at 3) (js "a") 1)) =
          [(js "a", 1); (js "a", 1)]) as Hagain.
  { vm_compute. reflexivity. }
  split; [split; [exact Htimes | split]|].
  - rewrite Htimes. apply (bool_decide_eq_false_1 _). vm_compute. reflexivity.
  - rewrite Htimes. apply (bool_decide_eq_true_1 _). vm_compute. reflexivity.
  - split; [vm_compute; reflexivity|]. split; [exact Hnext|]. split; [|split; [exact Hagain|]].
    + intros [_ Hnodup]. rewrite Hnext in Hnodup.
      apply NoDup_cons in Hnodup as [Hin _]. apply Hin. by left.
    + intros [_ Hnodup]. rewrite Hagain in Hnodup.
      apply NoDup_cons in Hnodup as [Hin _]. apply Hin. by left.
Qed.

(** C8, against the claim: with a credential registered, a second call made
    while the first waits for the authenticator starts an interaction of its
    own; two are in flight, and the store has reported no error. *)
Lemma second_call_starts_second_interaction :
  let w := {| credentials := [ {| id := js "key"; name := js "k"; created := 0 |} ];
              isSupported := true;
              credentials_get := fun _ _ => Returned None;
              clock := 0 |} in
  let sys := run [Call w (js "a.example") 1; Call w (js "b.example") 1] initial_system in
  ~ (authenticator_interactions sys <= 1)%nat /\
  authenticator_interactions sys = 2%nat /\
  length (calls sys) = 2%nat /\
  lastError (the_store sys) = None.
Proof. cbv zeta. vm_compute. repeat split; lia. Qed.

(** C8, as the code has it.  [generatePassword] raises [isGenerating] for
    the time of a call and never reads it; the Generate button is disabled
    while it is up.  When every call starts with the flag down, at most one
    call is suspended at any time, hence at most one authenticator
    interaction is in flight, and none while the flag is down. *)
Theorem guarded_calls_never_overlap (evs : list event) :
  button_guarded evs initial_system = true ->
  (authenticator_interactions (run evs initial_system) <= 1)%nat /\
  one_call_at_most (run evs initial_system).
Proof.
  intros Hguard.
  assert (one_call_at_most (run evs initial_system)) as Hone.
  { apply run_one_call_at_most; [|done]. split; [cbn; lia | done]. }
  split; [|done].
  pose proof (interactions_le_calls (run evs initial_system)).
  destruct Hone as [Hlen _]. lia.
Qed.

Lemma guarded_calls_never_overlap_witness :
  let w := {| credentials := [ {| id := js "key"; name := js "k"; created := 0 |} ];
              isSupported := true;
              credentials_get := fun _ _ => Returned (Some [1; 2; 3; 4; 5; 6; 7; 8]);
              clock := 0 |} in
  let evs := [Call w (js "a.example") 1; Wake 0 w; Wake 0 w;
              Call w (js "b.example") 1; Wake 0 w] in
  (authenticator_interactions (run evs initial_system) <= 1)%nat /\
  one_call_at_most (run evs initial_system).
Proof.
  cbv zeta. apply guarded_calls_never_overlap. vm_compute. reflexivity.
Defined.

End StoredList.

(** * Challenge, seed and determinism *)

Section Derivation.
Import CryptoService PasswordStore StoreSpec StretcherSpec.

(** C5, against the claim: for the input "accounts.example.com" the
    codename service hashes the whole input, not the label "example"; the
    passwords store presents 48 bytes of text, not a 32-byte digest. *)
Lemma challenge_is_not_digest_of_label :
  generateDeterministicChallenge (js "accounts.example.com") <>
    SHA256.sha256 (TextEncoder.encode (extract_service_name (js "accounts.example.com"))) /\
  TextEncoder.encode (challenge_text (js "accounts.example.com") 1) =
    ascii_bytes "YubiKeyPasswordGenerator-accounts.example.com-v1" /\
  length (TextEncoder.encode (challenge_text (js "accounts.example.com") 1)) = 48%nat /\
  TextEncoder.encode (challenge_text (js "accounts.example.com") 1) <>
    SHA256.sha256 (TextEncoder.encode (extract_service_name (js "accounts.example.com"))).
Proof.
  split; [|split; [|split]].
  - vm_compute. intros H. discriminate H.
  - vm_compute. reflexivity.
  - vm_compute. reflexivity.
  - vm_compute. intros H. discriminate H.
Qed.

(** C5, as the code has it.  In the codename service the challenge is the
    32-byte SHA-256 digest of the UTF-8 bytes of the input string as it is,
    and [generateCodename] asks the authenticator about this challenge
    only.  In the passwords store the challenge is the UTF-8 text
    "YubiKeyPasswordGenerator-", the service input, "-v", the version, not
    hashed, and [generatePassword] asks about this challenge only, for the
    first credential. *)
Theorem challenge_presented
    (masterDictionary : list ChineseCharEntry)
    (authenticate1 authenticate2 : string -> list Z -> outcome (option (list Z)))
    (credentialId : string) (domainString : list Z)
    (w1 w2 : world) (serviceName : list Z) (v : Z) (s : store) :
  authenticate1 credentialId (SHA256.sha256 (TextEncoder.encode domainString)) =
    authenticate2 credentialId (SHA256.sha256 (TextEncoder.encode domainString)) ->
  credentials w1 = credentials w2 ->
  isSupported w1 = isSupported w2 ->
  clock w1 = clock w2 ->
  (forall credential, head (credentials w1) = Some credential ->
     credentials_get w1 (TextEncoder.encode (challenge_text serviceName v)) (id credential) =
     credentials_get w2 (TextEncoder.encode (challenge_text serviceName v)) (id credential)) ->
  generateDeterministicChallenge domainString =
    SHA256.sha256 (TextEncoder.encode domainString) /\
  length (generateDeterministicChallenge domainString) = 32%nat /\
  generateCodename masterDictionary authenticate1 credentialId domainString =
    generateCodename masterDictionary authenticate2 credentialId domainString /\
  generatePassword w1 serviceName v s = generatePassword w2 serviceName v s.
Proof.
  intros Hauth Hcreds Hsupported Hclock Hget.
  split; [reflexivity|]. split; [apply sha256_length|]. split.
  - unfold generateCodename, generateDeterministicChallenge. by rewrite Hauth.
  - by apply generatePassword_same_world.
Qed.

Lemma challenge_presented_witness :
  let authenticate1 := fun (_ : string) (challenge : list Z) => Returned (Some challenge) in
  let authenticate2 := fun (_ : string) (challenge : list Z) =>
    if (length challenge =? 32)%nat then Returned (Some challenge) else Returned None in
  let key := {| id := js "key"; name := js "k"; created := 0 |} in
  let w1 := {| credentials := [key]; isSupported := true;
               credentials_get := fun _ _ => Returned (Some [1; 2; 3; 4; 5; 6; 7; 8]);
               clock := 5 |} in
  let w2 := {| credentials := [key]; isSupported := true;
               credentials_get := fun challenge _ =>
                 if (length challenge =? 48)%nat then Returned (Some [1; 2; 3; 4; 5; 6; 7; 8])
                 else Returned None;
               clock := 5 |} in
  generateDeterministicChallenge (js "accounts.example.com") =
    SHA256.sha256 (TextEncoder.encode (js "accounts.example.com")) /\
  length (generateDeterministicChallenge (js "accounts.example.com")) = 32%nat /\
  generateCodename [] authenticate1 "key" (js "accounts.example.com") =
    generateCodename [] authenticate2 "key" (js "accounts.example.com") /\
  generatePassword w1 (js "accounts.example.com") 1 initial_store =
    generatePassword w2 (js "accounts.example.com") 1 initial_store.
Proof.
  cbv zeta. apply challenge_presented.
  - vm_compute. reflexivity.
  - reflexivity.
  - reflexivity.
  - reflexivity.
  - intros credential _. vm_compute. reflexivity.
Defined.

(** C6, against the claim: the info [deriveMasterSeed] passes to HKDF is
    one text for all versions.  It does not end in the decimal digits of
    version 3, and no constant followed by the version gives it for every
    version. *)
Lemma seed_info_has_no_version :
  ~ (exists c : list Z,
       hkdf_info (deriveMasterSeed_params (js "example")) =
       c ++ TextEncoder.encode (Number_toString 3)) /\
  ~ (exists c : list Z, forall v : Z,
       hkdf_info (deriveMasterSeed_params (js "example")) =
       c ++ TextEncoder.encode (Number_toString v)).
Proof.
  assert (~ (exists c : list Z,
       hkdf_info (deriveMasterSeed_params (js "example")) =
       c ++ TextEncoder.encode (Number_toString 3))) as Hthree.
  { intros [c Hc]. apply (f_equal last) in Hc.
    change (TextEncoder.encode (Number_toString 3)) with [51] in Hc.
    rewrite last_snoc in Hc. vm_compute in Hc. discriminate Hc. }
  split; [exact Hthree|].
  intros [c Hc]. apply Hthree. exists c. apply Hc.
Qed.

(** C6, as the code has it.  [deriveMasterSeed] is HKDF with SHA-256: the
    key material is the authenticator data it is given, the salt the UTF-8
    bytes of the domain string it is given, the info the fixed text
    "encryptio-codename-generation"; nothing of a version enters.  It
    returns, and gives exactly 64 bytes.  [generateCodename] passes it the
    authenticator data as [getDeterministicAuthenticatorData] returns it
    and the domain string as the user gave it. *)
Theorem seed_is_hkdf_of_assertion_and_domain
    (masterDictionary : list ChineseCharEntry)
    (authenticatorData authenticatorDataRaw domainString : list Z) :
  deriveMasterSeed authenticatorData domainString =
    Returned (HKDF.expand
                (HKDF.extract (TextEncoder.encode domainString) authenticatorData)
                (ascii_bytes "encryptio-codename-generation") 64) /\
  hkdf_hash (deriveMasterSeed_params domainString) = "SHA-256"%string /\
  (exists masterSeed,
      deriveMasterSeed authenticatorData domainString = Returned masterSeed /\
      length masterSeed = 64%nat) /\
  codename_of_assertion masterDictionary authenticatorDataRaw domainString =
    codename_of_seed masterDictionary
      (HKDF.hkdf (deterministic_bytes authenticatorDataRaw)
                 (TextEncoder.encode domainString)
                 (ascii_bytes "encryptio-codename-generation") 64).
Proof.
  assert (deriveMasterSeed authenticatorData domainString =
    Returned (HKDF.hkdf authenticatorData (TextEncoder.encode domainString)
                (ascii_bytes "encryptio-codename-generation") 64)) as Hseed by reflexivity.
  split; [exact Hseed|]. split; [reflexivity|]. split; [|reflexivity].
  eexists. split; [exact Hseed | apply hkdf_length].
Qed.

(** C1.  The password that a call resolves with is the same in two runs
    that have the same entropy bytes, the same service label and the same
    version, whatever the clock, the store and the credential of each run;
    it is never absent.  The codename is the same for two assertions with
    the same normalized bytes and the same domain string. *)
Theorem generation_is_deterministic
    (w1 w2 : world) (s1 s2 : store) (credential1 credential2 : WebAuthnCredential)
    (entropy fullServiceName1 fullServiceName2 : list Z) (v : Z)
    (masterDictionary : list ChineseCharEntry)
    (authenticatorDataRaw1 authenticatorDataRaw2 domainString : list Z) :
  extract_service_name fullServiceName1 = extract_service_name fullServiceName2 ->
  deterministic_bytes authenticatorDataRaw1 = deterministic_bytes authenticatorDataRaw2 ->
  (exists pw,
      generatePasswordFromEntropy entropy fullServiceName1 v = Returned pw /\
      generatePasswordFromEntropy entropy fullServiceName2 v = Returned pw /\
      fst (resume w1 (AwaitPassword fullServiceName1 v credential1 entropy) s1) =
        Resolves (Some pw) /\
      fst (resume w2 (AwaitPassword fullServiceName2 v credential2 entropy) s2) =
        Resolves (Some pw)) /\
  codename_of_assertion masterDictionary authenticatorDataRaw1 domainString =
    codename_of_assertion masterDictionary authenticatorDataRaw2 domainString.
Proof.
  intros Hlabel Hnormalized. split.
  - exists (simple_stretcher entropy fullServiceName1 v).
    assert (simple_stretcher entropy fullServiceName2 v =
            simple_stretcher entropy fullServiceName1 v) as Hsame.
    { unfold simple_stretcher. by rewrite Hlabel. }
    cbn [resume]. unfold generatePassword_finish.
    rewrite !generatePasswordFromEntropy_simple, Hsame. done.
  - unfold codename_of_assertion. by rewrite Hnormalized.
Qed.

Lemma generation_is_deterministic_witness :
  let w1 := {| credentials := []; isSupported := true;
               credentials_get := fun _ _ => Returned None; clock := 1 |} in
  let w2 := {| credentials := []; isSupported := false;
               credentials_get := fun _ _ => Returned None; clock := 2 |} in
  let key1 := {| id := js "key1"; name := js "k"; created := 0 |} in
  let key2 := {| id := js "key2"; name := js "k"; created := 9 |} in
  let busy := {| passwords := []; isGenerating := true; lastError := Some "x"%string |} in
  let raw1 := Z.of_nat <$> seq 1 37 in
  let raw2 := <[22%nat := 200]> (Z.of_nat <$> seq 1 37) in
  (exists pw,
      generatePasswordFromEntropy [1; 2; 3; 4; 5; 6; 7; 8] (js "accounts.example.com") 1 =
        Returned pw /\
      generatePasswordFromEntropy [1; 2; 3; 4; 5; 6; 7; 8] (js "example.org") 1 =
        Returned pw /\
      fst (resume w1 (AwaitPassword (js "accounts.example.com") 1 key1 [1; 2; 3; 4; 5; 6; 7; 8])
             initial_store) = Resolves (Some pw) /\
      fst (resume w2 (AwaitPassword (js "example.org") 1 key2 [1; 2; 3; 4; 5; 6; 7; 8]) busy) =
        Resolves (Some pw)) /\
  codename_of_assertion [] raw1 (js "example") = codename_of_assertion [] raw2 (js "example").
Proof.
  cbv zeta. apply generation_is_deterministic; reflexivity.
Defined.

End Derivation.

(** * Sorting *)

Section SortFacts.
Import PasswordStore.
Context {A : Type} (compare : A -> A -> Z).

Lemma sort_insert_perm (x : A) (a : list A) : sort_insert compare x a ≡ₚ x :: a.
Proof.
  induction a as [|y a IH]; [done|]. cbn [sort_insert].
  destruct (compare x y <=? 0); [done|]. by rewrite IH, Permutation_swap.
Qed.

Lemma sort_perm (a : list A) : sort compare a ≡ₚ a.
Proof.
  induction a as [|x a IH]; [done|]. unfold sort in *. cbn [foldr].
  by rewrite sort_insert_perm, IH.
Qed.

Hypothesis compare_total : forall x y, compare x y <= 0 \/ compare y x <= 0.
Hypothesis compare_trans :
  forall x y z, compare x y <= 0 -> compare y z <= 0 -> compare x z <= 0.

Lemma sort_insert_sorted (x : A) (a : list A) :
  StronglySorted (fun u v => compare u v <= 0) a ->
  StronglySorted (fun u v => compare u v <= 0) (sort_insert compare x a).
Proof.
  induction 1 as [|y a Hsorted IH Hy]; cbn [sort_insert].
  - repeat constructor.
  - destruct (Z.leb_spec (compare x y) 0) as [Hxy|Hxy].
    + constructor; [by constructor|]. constructor; [done|].
      eapply Forall_impl; [exact Hy|]. intros z Hz. by eapply compare_trans.
    + constructor; [done|].
      rewrite sort_insert_perm. constructor; [|done].
      destruct (compare_total x y); [lia | done].
Qed.

Lemma sort_sorted (a : list A) :
  StronglySorted (fun u v => compare u v <= 0) (sort compare a).
Proof.
  induction a as [|x a IH]; [constructor|].
  unfold sort in *. cbn [foldr]. by apply sort_insert_sorted.
Qed.

End SortFacts.

(** * More on the stored list *)

Section StoreMoreFacts.
Import Stretcher PasswordStore StoreSpec StretcherSpec.

Lemma simple_stretcher_length entropy fullServiceName v :
  length (simple_stretcher entropy fullServiceName v) = 20%nat.
Proof.
  unfold simple_stretcher. rewrite length_map, length_take, sha256_length. lia.
Qed.

Lemma getEntropy_returns (w : world) (credentialId challenge : list Z) :
  exists r, getEntropy w credentialId challenge = Returned r /\
    (forall signature, r = Some signature <->
       isSupported w = true /\
       credentials_get w (TextEncoder.encode challenge) credentialId =
         Returned (Some signature)).
Proof.
  unfold getEntropy. destruct (isSupported w); cbn [negb].
  - destruct (credentials_get w _ _) as [[signature|]|error]; eexists; (split; [done|]);
      intros signature'; split; try (intros [_ [=]]); try done; naive_solver.
  - eexists; split; [done|]. intros signature. split; [done | by intros [? _]].
Qed.

(** The whole call, with what [getEntropy] answers. *)
Lemma generatePassword_run (w : world) (serviceName : list Z) (v : Z) (s : store) :
  generatePassword w serviceName v s =
  match credentials w with
  | [] => (None, set_lastError (Some "No YubiKey credentials registered"%string) s)
  | credential :: _ =>
      match getEntropy w (id credential) (challenge_text serviceName v) with
      | Returned (Some entropy) =>
          (Some (simple_stretcher entropy serviceName v),
           {| passwords :=
                record_password
                  {| service := serviceName;
                     password := simple_stretcher entropy serviceName v;
                     version := v; generated := clock w;
                     credentialId := id credential |} (passwords s);
              isGenerating := false; lastError := None |})
      | _ =>
          (None,
           {| passwords := passwords s; isGenerating := false;
              lastError := Some "Failed to get entropy from YubiKey"%string |})
      end
  end.
Proof.
  unfold generatePassword, generatePassword_begin.
  destruct (credentials w) as [|credential rest]; [done|].
  cbn [resume].
  destruct (getEntropy_returns w (id credential) (challenge_text serviceName v))
    as (r & -> & _).
  destruct r as [entropy|]; cbn [generatePassword_entropy resume]; [|done].
  unfold generatePassword_finish. by rewrite generatePasswordFromEntropy_simple.
Qed.

Lemma record_password_replace (g old : GeneratedPassword) (l : list GeneratedPassword)
    (i : nat) :
  bounded_and_unique l -> l !! i = Some old -> entry_key old = entry_key g ->
  record_password g l = <[i := g]> l.
Proof.
  intros [Hlen Hnodup] Hi Hkey. unfold record_password.
  rewrite (findIndex_found _ l i old Hi).
  - destruct (Z.leb_spec 0 (Z.of_nat i)); [|lia].
    rewrite Nat2Z.id, length_insert.
    by destruct (Nat.ltb_spec 100 (length l)); [lia|].
  - apply same_entry_key. by rewrite Hkey.
  - intros j y Hj Hy. destruct (same_entry _ _ y) eqn:Hsame; [|done].
    apply same_entry_key in Hsame.
    assert (j = i); [|lia].
    apply (NoDup_lookup _ j i (entry_key g) Hnodup); rewrite list_lookup_fmap.
    + rewrite Hy. cbn. by rewrite Hsame.
    + rewrite Hi. cbn. by rewrite Hkey.
Qed.

Lemma record_password_add (g : GeneratedPassword) (l : list GeneratedPassword) :
  entry_key g ∉ (entry_key <$> l) -> record_password g l = take 100 (g :: l).
Proof.
  intros Hnew. unfold record_password.
  rewrite findIndex_none.
  - change (0 <=? -1) with false. cbv iota.
    destruct (Nat.ltb_spec 100 (length (g :: l))); [done|].
    by rewrite take_ge.
  - apply Forall_forall. intros p Hp.
    destruct (same_entry _ _ p) eqn:Hsame; [|done].
    apply same_entry_key in Hsame. exfalso. apply Hnew.
    apply list_elem_of_fmap. by exists p.
Qed.

(** From a list within bounds, the recorded entry is in the list, and
    it is the only one of its service and version. *)
Lemma record_password_holds (g : GeneratedPassword) (l : list GeneratedPassword) :
  bounded_and_unique l ->
  g ∈ record_password g l /\
  (forall p, p ∈ record_password g l -> entry_key p = entry_key g -> p = g) /\
  (forall p, p ∈ record_password g l -> p = g \/ p ∈ l).
Proof.
  intros Hinv.
  destruct (decide (entry_key g ∈ entry_key <$> l)) as [Hin|Hnew].
  - apply list_elem_of_fmap in Hin as (old & Hkey & Hold).
    apply list_elem_of_lookup in Hold as [i Hi].
    rewrite (record_password_replace g old l i Hinv Hi) by done.
    pose proof (lookup_lt_Some _ _ _ Hi) as Hlt.
    split; [|split].
    + apply list_elem_of_lookup. exists i. by apply list_lookup_insert_eq.
    + intros p Hp Hpkey. apply list_elem_of_lookup in Hp as [j Hj].
      destruct (decide (i = j)) as [<-|Hne].
      * rewrite list_lookup_insert_eq in Hj by done. congruence.
      * rewrite list_lookup_insert_ne in Hj by done.
        destruct Hinv as [_ Hnodup]. exfalso. apply Hne.
        apply (NoDup_lookup _ i j (entry_key g) Hnodup); rewrite list_lookup_fmap.
        -- rewrite Hi. cbn. by rewrite Hkey.
        -- rewrite Hj. cbn. by rewrite Hpkey.
    + intros p Hp. apply list_elem_of_lookup in Hp as [j Hj].
      destruct (decide (i = j)) as [<-|Hne].
      * rewrite list_lookup_insert_eq in Hj by done. left. congruence.
      * rewrite list_lookup_insert_ne in Hj by done. right.
        apply list_elem_of_lookup. by exists j.
  - rewrite (record_password_add g l Hnew). split; [|split].
    + cbn [take]. apply list_elem_of_here.
    + intros p Hp Hpkey. cbn [take] in Hp.
      apply elem_of_cons in Hp as [->|Hp]; [done|].
      exfalso. apply Hnew. apply list_elem_of_fmap. exists p. split; [done|].
      eapply elem_of_sublist; [exact Hp | apply sublist_take].
    + intros p Hp. cbn [take] in Hp.
      apply elem_of_cons in Hp as [->|Hp]; [by left|]. right.
      eapply elem_of_sublist; [exact Hp | apply sublist_take].
Qed.

End StoreMoreFacts.

Section ReaderFacts.
Import PasswordStore StoreSpec.

Lemma filter_bool_decide {A} (P : A -> Prop) `{!forall x, Decision (P x)} (l : list A) :
  List.filter (fun x => bool_decide (P x)) l = filter P l.
Proof.
  induction l as [|x l IH]; [done|]. cbn [List.filter]. rewrite filter_cons, IH.
  by destruct (decide (P x)); [rewrite bool_decide_eq_true_2 | rewrite bool_decide_eq_false_2].
Qed.

Lemma filter_all {A} (P : A -> Prop) `{!forall x, Decision (P x)} (l : list A) :
  Forall P l -> filter P l = l.
Proof.
  induction 1 as [|x l Hx _ IH]; [done|]. by rewrite filter_cons_True, IH.
Qed.

Lemma StronglySorted_weaken {A} (R R' : A -> A -> Prop) (l : list A) :
  (forall a b, R a b -> R' a b) -> StronglySorted R l -> StronglySorted R' l.
Proof.
  intros Himpl. induction 1 as [|x l _ IH Hx]; constructor; [done|].
  eapply Forall_impl; [exact Hx | apply Himpl].
Qed.

Lemma getPasswordVersions_perm (serviceName : list Z) (s : store) :
  getPasswordVersions serviceName s ≡ₚ
  filter (fun p => service p = serviceName) (passwords s).
Proof. unfold getPasswordVersions. by rewrite sort_perm, filter_bool_decide. Qed.

Lemma getPasswordVersions_elem (serviceName : list Z) (s : store) (p : GeneratedPassword) :
  p ∈ getPasswordVersions serviceName s <-> p ∈ passwords s /\ service p = serviceName.
Proof. rewrite getPasswordVersions_perm, list_elem_of_filter. tauto. Qed.

Lemma getPasswordVersions_descending (serviceName : list Z) (s : store) :
  StronglySorted (fun a b => version b <= version a) (getPasswordVersions serviceName s).
Proof.
  unfold getPasswordVersions.
  eapply StronglySorted_weaken; [|apply sort_sorted].
  - intros a b. cbn. lia.
  - intros x y. cbn. lia.
  - intros x y z. cbn. lia.
Qed.

(** Entries of one service in a list without two entries for one service
    and version: their versions differ. *)
Lemma getPasswordVersions_versions_NoDup (serviceName : list Z) (s : store) :
  NoDup (entry_key <$> passwords s) ->
  NoDup (version <$> getPasswordVersions serviceName s).
Proof.
  intros Hnodup. rewrite getPasswordVersions_perm.
  assert (NoDup (entry_key <$> filter (fun p => service p = serviceName) (passwords s)))
    as Hkeys.
  { eapply sublist_NoDup; [exact Hnodup|]. apply fmap_sublist, sublist_filter. }
  assert (Forall (fun p => service p = serviceName)
                 (filter (fun p => service p = serviceName) (passwords s))) as Hall.
  { apply Forall_forall. intros p Hp. by apply list_elem_of_filter in Hp as [? _]. }
  revert Hkeys Hall. generalize (filter (fun p => service p = serviceName) (passwords s)).
  induction l as [|p l IH]; intros Hkeys Hall; [constructor|].
  cbn in *. apply NoDup_cons in Hkeys as [Hp Hkeys]. inversion Hall as [|? ? Hps Hall']; subst.
  apply NoDup_cons. split; [|by apply IH].
  intros Hin. apply Hp. apply list_elem_of_fmap in Hin as (q & Hv & Hq).
  apply list_elem_of_fmap. exists q. split; [|done].
  rewrite Forall_forall in Hall'. unfold entry_key. by rewrite (Hall' q Hq), Hv.
Qed.

Lemma StronglySorted_strict (l : list GeneratedPassword) :
  StronglySorted (fun a b => version b <= version a) l ->
  NoDup (version <$> l) ->
  StronglySorted (fun a b => version b < version a) l.
Proof.
  induction 1 as [|p l Hsorted IH Hp]; intros Hnodup; [constructor|].
  cbn in Hnodup. apply NoDup_cons in Hnodup as [Hnew Hnodup].
  constructor; [by apply IH|].
  apply Forall_forall. intros q Hq. rewrite Forall_forall in Hp.
  specialize (Hp q Hq).
  assert (version q <> version p); [|lia].
  intros Heq. apply Hnew. rewrite <- Heq. by apply list_elem_of_fmap_2.
Qed.

End ReaderFacts.

(** * Texts of numbers, and ASCII *)

Section TextFacts.

Lemma ascii_bytes_inj (s1 s2 : string) : ascii_bytes s1 = ascii_bytes s2 -> s1 = s2.
Proof.
  unfold ascii_bytes. intros Heq.
  rewrite <- (string_of_list_ascii_of_string s1), <- (string_of_list_ascii_of_string s2).
  f_equal. revert Heq.
  generalize (list_ascii_of_string s1) (list_ascii_of_string s2).
  induction l as [|c l IH]; intros [|c' l']; cbn; try done.
  intros [= Hc Hl]. f_equal; [|by apply IH].
  apply N2Z.inj in Hc.
  by rewrite <- (ascii_N_embedding c), <- (ascii_N_embedding c'), Hc.
Qed.

Lemma Number_toString_inj (n1 n2 : Z) :
  Number_toString n1 = Number_toString n2 -> n1 = n2.
Proof.
  unfold Number_toString, js. intros Heq%ascii_bytes_inj.
  apply (f_equal NilZero.int_of_string) in Heq.
  assert (forall n, NilZero.int_of_string (NilZero.string_of_int (Z.to_int n)) =
                    Some (Z.to_int n)) as Hisi.
  { intros n. apply NilZero.isi.
    - destruct n as [|p|p]; cbn; try done.
      intros [= Hp]. by apply DecimalPos.Unsigned.to_uint_nonnil in Hp.
    - destruct n as [|p|p]; cbn; try done.
      intros [= Hp]. by apply DecimalPos.Unsigned.to_uint_nonnil in Hp. }
  rewrite !Hisi in Heq. injection Heq as Heq.
  by rewrite <- (DecimalZ.of_to n1), <- (DecimalZ.of_to n2), Heq.
Qed.

(** The text of an integer has digits and the sign only. *)
Lemma Number_toString_chars (n : Z) :
  Forall (fun c => 45 <= c <= 57) (Number_toString n).
Proof.
  unfold Number_toString, js.
  assert (forall d, Forall (fun c => 45 <= c <= 57)
                           (ascii_bytes (NilEmpty.string_of_uint d))) as Hu.
  { induction d; cbn; constructor; (lia || done). }
  assert (forall d, Forall (fun c => 45 <= c <= 57)
                           (ascii_bytes (NilZero.string_of_uint d))) as Hz.
  { intros d. destruct d; try apply Hu. cbn. constructor; [lia | constructor]. }
  destruct (Z.to_int n) as [d|d]; cbn [NilZero.string_of_int].
  - apply Hz.
  - unfold ascii_bytes. cbn [list_ascii_of_string map]. constructor; [cbn; lia | apply Hz].
Qed.

(** ASCII text is its own UTF-8. *)
Lemma encode_ascii (s : list Z) :
  Forall (fun c => 0 <= c < 128) s -> TextEncoder.encode s = s.
Proof.
  induction 1 as [|c s Hc _ IH]; [done|]. cbn [TextEncoder.encode].
  unfold TextEncoder.is_high_surrogate, TextEncoder.is_low_surrogate,
    TextEncoder.encode_scalar.
  destruct (Z.leb_spec 0xD800 c); [lia|]. cbn [andb].
  destruct (Z.leb_spec 0xDC00 c); [lia|]. cbn [andb].
  destruct (Z.ltb_spec c 0x80); [|lia]. cbn [app]. by rewrite IH.
Qed.

Lemma version_text_encoded (v : Z) :
  TextEncoder.encode (js "v" ++ Number_toString v) = 118 :: Number_toString v.
Proof.
  rewrite encode_ascii; [done|].
  change (js "v") with [118]. cbn [app]. constructor; [lia|].
  eapply Forall_impl; [apply Number_toString_chars|]. cbn. lia.
Qed.

(** A mark that occurs in neither tail splits in one way only. *)
Lemma app_mark_inj (c : Z) (l1 l2 d1 d2 : list Z) :
  c ∉ d1 -> c ∉ d2 -> l1 ++ c :: d1 = l2 ++ c :: d2 -> l1 = l2 /\ d1 = d2.
Proof.
  intros H1 H2. revert l2. induction l1 as [|x l1 IH]; intros [|y l2]; cbn.
  - by intros [= ->].
  - intros [= <- ->]. exfalso. apply H1. apply elem_of_app. right. by left.
  - intros [= -> <-]. exfalso. apply H2. apply elem_of_app. right. by left.
  - intros [= -> Heq]. by destruct (IH l2 Heq) as [-> ->].
Qed.

Lemma split_app (sep : Z) (a b : list Z) :
  split sep (a ++ sep :: b) = split sep a ++ split sep b.
Proof.
  induction a as [|c a IH]; cbn [app split].
  - by rewrite Z.eqb_refl.
  - rewrite IH. destruct (c =? sep); [done|].
    pose proof (split_not_nil sep a). by destruct (split sep a).
Qed.

Lemma extract_service_name_no_dot (s : list Z) :
  dot ∉ s -> PasswordStore.extract_service_name s = s.
Proof.
  intros Hs. unfold PasswordStore.extract_service_name. by rewrite split_without_sep.
Qed.

(** ASCII text in front of a text is in front of its UTF-8. *)
Lemma encode_ascii_app (text s : list Z) :
  Forall (fun c => 0 <= c < 128) text ->
  TextEncoder.encode (text ++ s) = text ++ TextEncoder.encode s.
Proof.
  induction 1 as [|c text Hc _ IH]; [done|]. cbn [app TextEncoder.encode].
  unfold TextEncoder.is_high_surrogate, TextEncoder.is_low_surrogate,
    TextEncoder.encode_scalar.
  destruct (Z.leb_spec 0xD800 c); [lia|]. cbn [andb].
  destruct (Z.leb_spec 0xDC00 c); [lia|]. cbn [andb].
  destruct (Z.ltb_spec c 0x80); [|lia]. cbn [app]. by rewrite IH.
Qed.

(** Text without the separator in front of a text joins its first
    segment. *)
Lemma split_prefix (sep : Z) (text s : list Z) :
  sep ∉ text ->
  split sep (text ++ s) =
  match split sep s with
  | seg :: rest => (text ++ seg) :: rest
  | [] => [text]
  end.
Proof.
  induction text as [|c text IH]; cbn [app].
  - intros _. pose proof (split_not_nil sep s). by destruct (split sep s).
  - rewrite not_elem_of_cons. intros [Hc Htext]. cbn [split].
    destruct (Z.eqb_spec c sep); [congruence|]. rewrite (IH Htext).
    pose proof (split_not_nil sep s). by destruct (split sep s).
Qed.

(** With at most one dot in the name, text without a dot in front of the
    name is in front of the label. *)
Lemma extract_service_name_prefix (text s : list Z) :
  dot ∉ text -> (length (split dot s) <= 2)%nat ->
  PasswordStore.extract_service_name (text ++ s) =
  text ++ PasswordStore.extract_service_name s.
Proof.
  intros Htext Hlen. unfold PasswordStore.extract_service_name.
  rewrite (split_prefix dot text s Htext).
  destruct (split dot s) as [|seg [|suffix [|? ?]]]; cbn in *; (done || lia).
Qed.

End TextFacts.

(** * The codename *)

Section CodenameFacts.
Import CryptoService.

Lemma slice_take {A} (i j n : nat) (a : list A) :
  (j <= n)%nat -> slice i j (take n a) = slice i j a.
Proof.
  intros Hj. unfold slice.
  rewrite skipn_firstn_comm, take_take. f_equal. lia.
Qed.

Lemma slice_length {A} (i j : nat) (a : list A) :
  (j <= length a)%nat -> length (slice i j a) = (j - i)%nat.
Proof. intros Hj. unfold slice. rewrite length_take, length_drop. lia. Qed.

Lemma deriveMasterSeed_returns (authenticatorData domainString : list Z) :
  deriveMasterSeed authenticatorData domainString =
  Returned (HKDF.hkdf authenticatorData (TextEncoder.encode domainString)
              (ascii_bytes "encryptio-codename-generation") 64).
Proof. reflexivity. Qed.

(** With entries in the dictionary, four bytes select one of them. *)
Lemma selectCharacter_selects (masterDictionary : list ChineseCharEntry)
    (seedSegment : list Z) :
  masterDictionary <> [] -> length seedSegment = 4%nat ->
  exists entry, entry ∈ masterDictionary /\
    selectCharacter masterDictionary seedSegment = Returned (Some entry).
Proof.
  intros Hne Hlen.
  destruct seedSegment as [|b3 [|b2 [|b1 [|b0 [|]]]]]; try done.
  unfold selectCharacter. cbn [getUint32_be obind].
  destruct masterDictionary as [|e0 d] eqn:Hd; [done|]. rewrite <- Hd.
  assert ((0 < length masterDictionary)%nat) as Hpos by (rewrite Hd; cbn; lia).
  set (value := Word32.of_bytes b3 b2 b1 b0).
  pose proof (Z.mod_pos_bound value (Z.of_nat (length masterDictionary)) ltac:(lia)).
  destruct (lookup_lt_is_Some_2 masterDictionary
              (Z.to_nat (value mod Z.of_nat (length masterDictionary))) ltac:(lia))
    as [entry Hentry].
  exists entry. split; [by eapply list_elem_of_lookup_2|]. by rewrite Hentry.
Qed.

End CodenameFacts.

Section CodenameMoreFacts.
Import CryptoService.

(** From a seed of at least twelve bytes and a dictionary with entries,
    the codename is made of three entries. *)
Lemma codename_of_seed_returns (masterDictionary : list ChineseCharEntry)
    (masterSeed : list Z) :
  masterDictionary <> [] -> (12 <= length masterSeed)%nat ->
  exists c1 c2 c3,
    c1 ∈ masterDictionary /\ c2 ∈ masterDictionary /\ c3 ∈ masterDictionary /\
    codename_of_seed masterDictionary masterSeed =
    Returned
      {| chineseChar := char c1 ++ char c2 ++ char c3;
         pinyinNote := pinyin c1 ++ js " " ++ pinyin c2 ++ js " " ++ pinyin c3 ++ js " "
                       ++ Number_toString (tone c1) ++ Number_toString (tone c2)
                       ++ Number_toString (tone c3) |}.
Proof.
  intros Hne Hlen. unfold codename_of_seed.
  destruct (selectCharacter_selects masterDictionary (slice 0 4 masterSeed) Hne)
    as (c1 & Hc1 & ->); [rewrite slice_length; lia|].
  destruct (selectCharacter_selects masterDictionary (slice 4 8 masterSeed) Hne)
    as (c2 & Hc2 & ->); [rewrite slice_length; lia|].
  destruct (selectCharacter_selects masterDictionary (slice 8 12 masterSeed) Hne)
    as (c3 & Hc3 & ->); [rewrite slice_length; lia|].
  cbn [obind entry_of]. by exists c1, c2, c3.
Qed.

(** Without entries, reading the first character throws. *)
Lemma codename_of_seed_empty (masterSeed : list Z) :
  throws (codename_of_seed [] masterSeed).
Proof.
  unfold codename_of_seed, selectCharacter.
  destruct (getUint32_be (slice 0 4 masterSeed)) as [v1|e1]; cbn [obind]; [|by eexists].
  destruct (getUint32_be (slice 4 8 masterSeed)) as [v2|e2]; cbn [obind]; [|by eexists].
  destruct (getUint32_be (slice 8 12 masterSeed)) as [v3|e3]; cbn [obind]; [|by eexists].
  by eexists.
Qed.

End CodenameMoreFacts.

(** * The credential id as text *)

Section CredentialIdFacts.
Import JSText WebAuthnService CredentialIdSpec.

Lemma all_bytes_hex_pair_ok : forallb hex_pair_ok (Z.of_nat <$> seq 0 256) = true.
Proof. vm_compute. reflexivity. Qed.

Lemma hex_pair (b : Z) :
  0 <= b < 256 ->
  exists c1 c2,
    padStart 2 48 (Number_toString_radix 16 b) = [c1; c2] /\
    is_line_terminator c1 = false /\ is_line_terminator c2 = false /\
    parseInt [c1; c2] 16 = Some b /\
    is_lower_hex c1 = true /\ is_lower_hex c2 = true.
Proof.
  intros Hb.
  assert (hex_pair_ok b = true) as Hok.
  { pose proof all_bytes_hex_pair_ok as Hall.
    rewrite forallb_forall in Hall. apply Hall.
    apply list_elem_of_In, list_elem_of_fmap. exists (Z.to_nat b).
    split; [lia|]. apply list_elem_of_In, in_seq. lia. }
  unfold hex_pair_ok in Hok.
  destruct (padStart 2 48 (Number_toString_radix 16 b)) as [|c1 [|c2 [|]]]; try done.
  rewrite !andb_true_iff, !negb_true_iff, bool_decide_eq_true in Hok.
  destruct Hok as ((((H1 & H2) & H3) & H4) & H5). by exists c1, c2.
Qed.

Lemma match_one_or_two_pair (c1 c2 : Z) (s : list Z) :
  is_line_terminator c1 = false -> is_line_terminator c2 = false ->
  match_one_or_two (c1 :: c2 :: s) = [c1; c2] :: match_one_or_two s.
Proof. intros H1 H2. cbn [match_one_or_two]. by rewrite H1, H2. Qed.

Lemma credential_id_facts (rawId : list Z) :
  Forall (fun b => 0 <= b < 256) rawId ->
  credentialIdBuffer (credentialId_of_rawId rawId) = rawId /\
  length (credentialId_of_rawId rawId) = (2 * length rawId)%nat.
Proof.
  unfold credentialIdBuffer, credentialId_of_rawId, Uint8Array_from_numbers.
  induction 1 as [|b rawId Hb _ (IH1 & IH2)]; [done|].
  destruct (hex_pair b Hb) as (c1 & c2 & Htext & H1 & H2 & Hparse & _).
  cbn [map concat]. rewrite Htext. cbn [app].
  rewrite match_one_or_two_pair by done. cbn [map]. rewrite Hparse, IH1.
  split.
  - f_equal. unfold to_uint8. apply Z.mod_small. lia.
  - cbn [length]. rewrite IH2. lia.
Qed.

End CredentialIdFacts.

(** * The authentication store *)

Section AuthFacts.
Import AuthStore AuthSpec.

Lemma initializeAuth_registered_iff_credential fault1 fault2 state db :
  registered_iff_credential state ->
  registered_iff_credential (initializeAuth fault1 fault2 state db).
Proof.
  intros Hinv. unfold initializeAuth, getData.
  destruct fault1 as [f1|]; cbn [obind]; [exact Hinv|].
  destruct fault2 as [f2|]; cbn [obind]; [exact Hinv|].
  unfold registered_iff_credential.
  destruct (db !! CREDENTIAL_ID_KEY) as [[|c id]|]; cbn; try (split; [done | by intros [? [=]]]).
  destruct (truthy (db !! USERNAME_KEY)); cbn; [by split | split; [done | by intros [? [=]]]].
Qed.

Lemma perform_registered_iff_credential (s : AuthState * gmap string (list Z)) (c : call) :
  registered_iff_credential (fst s) -> registered_iff_credential (fst (perform s c)).
Proof.
  destruct s as [state db]. cbn [fst]. intros Hinv.
  destruct c as [f1 f2|f id|f name|f1 f2|loading|message|]; cbn [perform fst].
  - by apply initializeAuth_registered_iff_credential.
  - unfold setCredentialId, putData. destruct f; cbn [fst]; [exact Hinv|].
    unfold registered_iff_credential. cbn. by split.
  - unfold setUsername, putData. by destruct f.
  - unfold clearAuth, deleteData. destruct f1; cbn [fst]; [exact Hinv|].
    destruct f2; cbn [fst]; [exact Hinv|].
    unfold registered_iff_credential. cbn. split; [done | by intros [? [=]]].
  - exact Hinv.
  - exact Hinv.
  - exact Hinv.
Qed.

End AuthFacts.

Section RegistrationFacts.
Import JSText WebAuthnService AuthStore AuthSpec Registration.

(** The registration that goes through, in one step. *)
Lemma handleRegister_registers (usernameInput rawId : list Z) (state : AuthState)
    (db : gmap string (list Z)) :
  trim usernameInput <> [] ->
  (length (trim usernameInput) <= 32)%nat ->
  rawId <> [] ->
  Forall (fun b => 0 <= b < 256) rawId ->
  handleRegister usernameInput true (Returned (Some rawId)) None None None (state, db) =
  ({| isKeyRegistered := true; credentialId := Some (credentialId_of_rawId rawId);
      username := Some (trim usernameInput); isLoading := false; error := None |},
   <[USERNAME_KEY := trim usernameInput]>
     (<[CREDENTIAL_ID_KEY := credentialId_of_rawId rawId]>
        (<[CREDENTIAL_ID_KEY := credentialId_of_rawId rawId]> db))).
Proof.
  intros Hname Hlen HrawId Hbytes.
  destruct (credential_id_facts rawId Hbytes) as (_ & Hidlen).
  unfold handleRegister.
  destruct (trim usernameInput) as [|n name] eqn:Htrim; [done|].
  destruct (Nat.ltb_spec 32 (length (n :: name))); [lia|].
  unfold registerSecurityKey. cbn [negb].
  destruct (credentialId_of_rawId rawId) as [|c id] eqn:Hid.
  { destruct rawId; [done|]. cbn in Hidlen. lia. }
  reflexivity.
Qed.

End RegistrationFacts.

Section LatestVersionFacts.
Import PasswordStore StoreSpec.




End LatestVersionFacts.

Section ComponentFacts.
Import JSText PasswordStore StoreSpec StretcherSpec PasswordGenerator DisplaySpec.

(** The component's call, with what the store's call gives. *)
Lemma component_generatePassword_run (w : world) (edit : view -> view) (v : view)
    (s : store) :
  trim (serviceName v) <> [] ->
  PasswordGenerator.generatePassword w edit v s =
  match PasswordStore.generatePassword w (trim (serviceName v)) (passwordVersion v) s with
  | (Some pw, s') =>
      (set_showVersionHistory false
         (set_current pw (trim (serviceName (edit v))) (passwordVersion (edit v))
            (edit v)), s')
  | (None, s') => (edit v, s')
  end.
Proof.
  intros Hname. unfold PasswordGenerator.generatePassword.
  destruct (trim (serviceName v)) as [|c name] eqn:Htrim; [done|].
  pose proof (generatePassword_run w (c :: name) (passwordVersion v) s) as Hrun.
  destruct (PasswordStore.generatePassword w (c :: name) (passwordVersion v) s)
    as [[pw|] s']; [|done].
  destruct pw as [|c' pw]; [|done].
  exfalso. destruct (credentials w); [done|].
  destruct (getEntropy w _ _) as [[entropy|]|]; [|done..].
  injection Hrun as Hpw _.
  pose proof (simple_stretcher_length entropy (c :: name) (passwordVersion v)) as Hlen.
  by rewrite <- Hpw in Hlen.
Qed.



End ComponentFacts.

Section DisplayFacts.
Import JSText PasswordStore StoreSpec StretcherSpec PasswordGenerator DisplaySpec.






End DisplayFacts.

Section DateFacts.
Import JSText DateEncoder DateSpec.

Lemma elem_of_range (a b x : Z) : a <= x <= b -> x ∈ range a b.
Proof.
  intros Hx. unfold range. apply list_elem_of_fmap.
  exists (Z.to_nat (x - a)). split; [lia|].
  apply elem_of_seq. lia.
Qed.

Lemma forallb_range (f : Z -> bool) (a b x : Z) :
  forallb f (range a b) = true -> a <= x <= b -> f x = true.
Proof.
  intros Hall Hx. rewrite forallb_forall in Hall. apply Hall.
  apply list_elem_of_In. by apply elem_of_range.
Qed.

Lemma two_checked (n : Z) : 0 <= n <= 99 -> two_check n = true.
Proof. apply forallb_range. vm_compute. reflexivity. Qed.

Lemma year_checked (year : Z) : 1000 <= year <= 9999 -> year_check year = true.
Proof. apply forallb_range. vm_compute. reflexivity. Qed.

Lemma month_checked (digit month : Z) :
  0 <= digit <= 9 -> 1 <= month <= 12 -> month_check digit month = true.
Proof.
  intros Hdigit. apply forallb_range.
  apply (forallb_range (fun digit => forallb (month_check digit) (range 1 12)) 0 9);
    [vm_compute; reflexivity | done].
Qed.

Lemma day_checked (digit day : Z) :
  0 <= digit <= 9 -> 1 <= day <= 31 -> day_check digit day = true.
Proof.
  intros Hdigit. apply forallb_range.
  apply (forallb_range (fun digit => forallb (day_check digit) (range 1 31)) 0 9);
    [vm_compute; reflexivity | done].
Qed.

Lemma year_letters_checked (yearLastTwo : Z) :
  0 <= yearLastTwo <= 99 -> year_letters_check yearLastTwo = true.
Proof. apply forallb_range. vm_compute. reflexivity. Qed.

(** The text of a number in two places: two digits that [parseInt]
    reads back. *)
Lemma two_text (n : Z) :
  0 <= n <= 99 ->
  exists c1 c2, two n = [c1; c2] /\ two_digits [c1; c2] = true /\
                (dot ∉ [c1; c2]) /\ parseInt [c1; c2] 0 = Some n.
Proof.
  intros Hn. pose proof (two_checked n Hn) as Hcheck. unfold two_check in Hcheck.
  destruct (two n) as [|c1 [|c2 [|? ?]]]; try done.
  apply andb_true_iff in Hcheck as [Hdigits Hparse].
  apply bool_decide_eq_true in Hparse.
  exists c1, c2. split; [done|]. split; [done|]. split; [|done].
  apply andb_true_iff in Hdigits as [H1 H2]. unfold is_digit, dot in *.
  rewrite !not_elem_of_cons. split; [lia|]. split; [lia|]. apply not_elem_of_nil.
Qed.

Lemma year_text (year : Z) :
  1000 <= year <= 9999 ->
  length (Number_toString year) = 4%nat /\ (dot ∉ Number_toString year) /\
  parseInt (slice_last 1 (Number_toString year)) 0 = Some (year mod 10) /\
  parseInt (slice_last 2 (Number_toString year)) 0 = Some (year mod 100).
Proof.
  intros Hyear. pose proof (year_checked year Hyear) as Hcheck. unfold year_check in Hcheck.
  cbv zeta in Hcheck.
  apply andb_true_iff in Hcheck as [Hcheck Htwo].
  apply andb_true_iff in Hcheck as [Hcheck Hone].
  apply andb_true_iff in Hcheck as [Hlen Hdots].
  apply bool_decide_eq_true in Hone, Htwo. apply Nat.eqb_eq in Hlen.
  split; [done|]. split; [|done].
  rewrite forallb_forall in Hdots. intros Hin. apply list_elem_of_In in Hin.
  specialize (Hdots dot Hin). by rewrite Z.eqb_refl in Hdots.
Qed.

(** [encodeDateXorYear] on a date, field by field. *)
Lemma encodeDateXorYear_date (currentYear day month year : Z) :
  is_date day month year ->
  encodeDateXorYear currentYear (date_text day month year) =
  Returned [month_letter month (year mod 10);
            fst (day_letters day (year mod 10)); snd (day_letters day (year mod 10));
            fst (year_letters (year mod 100)); snd (year_letters (year mod 100))].
Proof.
  intros (Hday & Hmonth & Hyear).
  destruct (two_text day) as (d1 & d2 & Hd & Hdd & Hddot & Hdp); [lia|].
  destruct (two_text month) as (m1 & m2 & Hm & Hmd & Hmdot & Hmp); [lia|].
  destruct (year_text year Hyear) as (Hlen & Hydot & Hone & Htwo).
  unfold encodeDateXorYear, date_text. rewrite Hd, Hm.
  change ([d1; d2] ++ [dot] ++ [m1; m2] ++ [dot] ++ Number_toString year)
    with ([d1; d2] ++ dot :: ([m1; m2] ++ dot :: Number_toString year)).
  rewrite (split_app_sep dot [d1; d2] _ Hddot).
  rewrite (split_app_sep dot [m1; m2] _ Hmdot).
  rewrite (split_without_sep dot _ Hydot).
  rewrite Hdd, Hmd, Hlen. cbn [negb orb Nat.eqb obind].
  rewrite Hdp, Hmp, Hone, Htwo. unfold lt.
  destruct (Z.ltb_spec day 1); [lia|]. destruct (Z.ltb_spec 31 day); [lia|].
  destruct (Z.ltb_spec month 1); [lia|]. destruct (Z.ltb_spec 12 month); [lia|].
  reflexivity.
Qed.

(** [decodeDateXorYear] on five code units, field by field. *)
Lemma decodeDateXorYear_fields (monthChar dayChar1 dayChar2 yearChar1 yearChar2 : Z)
    (referenceYear : Z) :
  decodeDateXorYear [monthChar; dayChar1; dayChar2; yearChar1; yearChar2] referenceYear =
  Returned (date_text (decoded_day dayChar1 dayChar2 (Z.rem referenceYear 10))
                      (decoded_month monthChar (Z.rem referenceYear 10))
                      (decoded_year yearChar1 yearChar2 referenceYear)).
Proof. reflexivity. Qed.

End DateFacts.

Section DateMoreFacts.
Import JSText DateEncoder DateSpec.

Lemma ToInt32_small (n : Z) : 0 <= n < 2 ^ 31 -> ToInt32 (Some n) = n.
Proof. intros Hn. unfold ToInt32. rewrite Z.mod_small; lia. Qed.

(** What is read back lies between 1 and [k], when the number from the
    letters is positive and the digit is not negative. *)
Lemma decoded_field_in_range (encoded digit k : Z) :
  1 <= encoded < 2 ^ 31 -> 0 <= digit < 2 ^ 31 -> 0 < k ->
  let x := xor (Some encoded) (Some digit) in
  1 <= Z.rem ((if x =? 0 then k else x) - 1) k + 1 <= k.
Proof.
  intros Hencoded Hdigit Hk. cbv zeta. unfold xor.
  rewrite !ToInt32_small by lia.
  assert (0 <= Z.lxor encoded digit) as Hx by (apply Z.lxor_nonneg; lia).
  destruct (Z.eqb_spec (Z.lxor encoded digit) 0).
  - rewrite Z.rem_mod_nonneg by lia. pose proof (Z.mod_pos_bound (k - 1) k Hk). lia.
  - rewrite Z.rem_mod_nonneg by lia.
    pose proof (Z.mod_pos_bound (Z.lxor encoded digit - 1) k Hk). lia.
Qed.

Lemma date_text_day (day day' month month' year year' : Z) :
  0 <= day <= 99 -> 0 <= day' <= 99 ->
  date_text day month year = date_text day' month' year' -> day = day'.
Proof.
  intros Hday Hday'. unfold date_text.
  destruct (two_text day Hday) as (c1 & c2 & -> & _ & _ & Hparse).
  destruct (two_text day' Hday') as (c1' & c2' & -> & _ & _ & Hparse').
  intros [= -> -> _]. congruence.
Qed.

End DateMoreFacts.

(** * Further properties of the passwords store *)

Section StoreBehaviour.
Import Stretcher PasswordStore StoreSpec StretcherSpec.


(** X2.  When [generatePassword] gives a password, from a list within its
    bounds: the password has 20 characters, the error is cleared, the flag
    is down, the list holds an entry with this service, version and
    password and the time of the call, no entry with this service and
    version has another password or another time, and every entry with
    another service or version was there before. *)
Theorem generatePassword_success_effects (w : world) (serviceName : list Z) (v : Z)
    (s : store) (pw : list Z) :
  bounded_and_unique (passwords s) ->
  fst (generatePassword w serviceName v s) = Some pw ->
  length pw = 20%nat /\
  lastError (snd (generatePassword w serviceName v s)) = None /\
  isGenerating (snd (generatePassword w serviceName v s)) = false /\
  (exists g, g ∈ passwords (snd (generatePassword w serviceName v s)) /\
     service g = serviceName /\ version g = v /\ password g = pw /\
     generated g = clock w) /\
  (forall p, p ∈ passwords (snd (generatePassword w serviceName v s)) ->
     service p = serviceName -> version p = v ->
     password p = pw /\ generated p = clock w) /\
  (forall p, p ∈ passwords (snd (generatePassword w serviceName v s)) ->
     (service p = serviceName /\ version p = v /\ password p = pw) \/
     (p ∈ passwords s /\ ~ (service p = serviceName /\ version p = v))).
Proof.
  intros Hinv. rewrite generatePassword_run.
  destruct (credentials w) as [|credential rest]; [done|].
  destruct (getEntropy w (id credential) (challenge_text serviceName v))
    as [[entropy|]|error]; [|done..].
  cbn [fst snd passwords lastError isGenerating]. intros [= <-].
  split; [apply simple_stretcher_length|]. split; [done|]. split; [done|].
  set (g := {| service := serviceName; password := _; version := v;
               generated := clock w; credentialId := id credential |}).
  destruct (record_password_holds g (passwords s) Hinv) as (Hg & Honly & Hothers).
  split; [by exists g|]. split.
  - intros p Hp Hservice Hversion.
    rewrite (Honly p Hp); [done|]. unfold entry_key. by rewrite Hservice, Hversion.
  - intros p Hp.
    destruct (decide (entry_key p = entry_key g)) as [Hkey|Hkey].
    + left. by rewrite (Honly p Hp Hkey).
    + right. destruct (Hothers p Hp) as [->|Hold]; [done|]. split; [done|].
      intros [Hservice Hversion]. apply Hkey. unfold entry_key.
      by rewrite Hservice, Hversion.
Qed.

Lemma generatePassword_success_effects_witness :
  let w := {| credentials := [ {| id := js "key"; name := js "k"; created := 0 |} ];
              isSupported := true;
              credentials_get := fun _ _ => Returned (Some [1; 2; 3; 4; 5; 6; 7; 8]);
              clock := 7 |} in
  let s := {| passwords :=
                [ {| service := js "other.org"; password := js "x"; version := 1;
                     generated := 1; credentialId := js "key" |};
                  {| service := js "example.com"; password := js "old"; version := 1;
                     generated := 2; credentialId := js "key0" |} ];
              isGenerating := false; lastError := None |} in
  length (js "LA[XD!^nNkQJ88ZhFHgp") = 20%nat /\
  lastError (snd (generatePassword w (js "example.com") 1 s)) = None /\
  isGenerating (snd (generatePassword w (js "example.com") 1 s)) = false /\
  (exists g, g ∈ passwords (snd (generatePassword w (js "example.com") 1 s)) /\
     service g = js "example.com" /\ version g = 1 /\
     password g = js "LA[XD!^nNkQJ88ZhFHgp" /\ generated g = 7) /\
  (forall p, p ∈ passwords (snd (generatePassword w (js "example.com") 1 s)) ->
     service p = js "example.com" -> version p = 1 ->
     password p = js "LA[XD!^nNkQJ88ZhFHgp" /\ generated p = 7) /\
  (forall p, p ∈ passwords (snd (generatePassword w (js "example.com") 1 s)) ->
     (service p = js "example.com" /\ version p = 1 /\
      password p = js "LA[XD!^nNkQJ88ZhFHgp") \/
     (p ∈ passwords s /\ ~ (service p = js "example.com" /\ version p = 1))).
Proof.
  cbv zeta.
  apply (generatePassword_success_effects
           {| credentials := [ {| id := js "key"; name := js "k"; created := 0 |} ];
              isSupported := true;
              credentials_get := fun _ _ => Returned (Some [1; 2; 3; 4; 5; 6; 7; 8]);
              clock := 7 |} (js "example.com") 1 _ (js "LA[XD!^nNkQJ88ZhFHgp")).
  - split; [cbn; lia|]. cbn [passwords fmap list_fmap]. apply NoDup_cons. split.
    + rewrite list_elem_of_singleton. vm_compute. intros H. discriminate H.
    + apply NoDup_singleton.
  - vm_compute. reflexivity.
Defined.



(** X4.  [getPasswordVersions] gives the entries of the service, each as
    often as the list has it, by falling version; in a list without two
    entries for one service and version the versions fall strictly. *)
Theorem getPasswordVersions_sorted (serviceName : list Z) (s : store) :
  getPasswordVersions serviceName s ≡ₚ
    filter (fun p => service p = serviceName) (passwords s) /\
  StronglySorted (fun a b => version b <= version a)
                 (getPasswordVersions serviceName s) /\
  (NoDup (entry_key <$> passwords s) ->
   StronglySorted (fun a b => version b < version a)
                  (getPasswordVersions serviceName s)).
Proof.
  split; [apply getPasswordVersions_perm|].
  split; [apply getPasswordVersions_descending|].
  intros Hnodup. apply StronglySorted_strict.
  - apply getPasswordVersions_descending.
  - by apply getPasswordVersions_versions_NoDup.
Qed.

(** X5.  [getLatestVersion] is at least the version of every entry of the
    service; it is the version of one of them, or there is none and it
    is 0. *)
Theorem getLatestVersion_is_maximum (serviceName : list Z) (s : store) :
  (forall p, p ∈ passwords s -> service p = serviceName ->
             version p <= getLatestVersion serviceName s) /\
  ((exists p, p ∈ passwords s /\ service p = serviceName /\
              version p = getLatestVersion serviceName s) \/
   ((forall p, p ∈ passwords s -> service p <> serviceName) /\
    getLatestVersion serviceName s = 0)).
Proof.
  unfold getLatestVersion.
  pose proof (getPasswordVersions_descending serviceName s) as Hsorted.
  pose proof (getPasswordVersions_elem serviceName s) as Helem.
  destruct (getPasswordVersions serviceName s) as [|latest versions].
  - split.
    + intros p Hp Hs.
      pose proof (proj2 (Helem p) (conj Hp Hs)) as Hin. by apply elem_of_nil in Hin.
    + right. split; [|done]. intros p Hp Hs.
      pose proof (proj2 (Helem p) (conj Hp Hs)) as Hin. by apply elem_of_nil in Hin.
  - apply StronglySorted_inv in Hsorted as [_ Hlatest]. split.
    + intros p Hp Hs. pose proof (proj2 (Helem p) (conj Hp Hs)) as Hin.
      apply elem_of_cons in Hin as [->|Hin]; [lia|].
      rewrite Forall_forall in Hlatest. by apply Hlatest.
    + left. exists latest. destruct (proj1 (Helem latest)) as [Hin Hs]; [by left|].
      done.
Qed.

End StoreBehaviour.

Section StoreRoundTrips.
Import Stretcher PasswordStore StoreSpec StretcherSpec.

(** X6.  [removePassword] undoes [generatePassword]: when the list has
    fewer than 100 entries and none for the service and version, generating
    and then removing that service and version gives the list as it was,
    whether or not the generation succeeded. *)
Theorem remove_undoes_generate (w : world) (serviceName : list Z) (v : Z) (s : store) :
  (serviceName, v) ∉ (entry_key <$> passwords s) ->
  (length (passwords s) < 100)%nat ->
  passwords (removePassword serviceName v (snd (generatePassword w serviceName v s))) =
  passwords s.
Proof.
  intros Hnew Hlen.
  assert (filter (fun p => negb (same_entry serviceName v p)) (passwords s) = passwords s)
    as Hkeep.
  { apply filter_all, Forall_forall. intros p Hp.
    destruct (same_entry serviceName v p) eqn:Hsame; [|done].
    apply same_entry_key in Hsame. exfalso. apply Hnew.
    apply list_elem_of_fmap. by exists p. }
  rewrite generatePassword_run. unfold removePassword.
  destruct (credentials w) as [|credential rest]; [done|].
  destruct (getEntropy w (id credential) (challenge_text serviceName v))
    as [[entropy|]|error]; cbn [snd passwords set_passwords]; [|done..].
  rewrite record_password_add by done.
  rewrite take_ge by (cbn [length]; lia).
  rewrite filter_cons_False; [done|].
  assert (same_entry serviceName v
            {| service := serviceName; password := simple_stretcher entropy serviceName v;
               version := v; generated := clock w; credentialId := id credential |} = true)
    as -> by by apply same_entry_key.
  cbn. tauto.
Qed.

Lemma remove_undoes_generate_witness :
  let w := {| credentials := [ {| id := js "key"; name := js "k"; created := 0 |} ];
              isSupported := true;
              credentials_get := fun _ _ => Returned (Some [1; 2; 3; 4; 5; 6; 7; 8]);
              clock := 7 |} in
  passwords (removePassword (js "example.com") 1
               (snd (generatePassword w (js "example.com") 1 initial_store))) =
  passwords initial_store.
Proof.
  cbv zeta. apply remove_undoes_generate.
  - apply not_elem_of_nil.
  - cbn. lia.
Defined.

(** X7.  What [loadPasswords] reads from what [savePasswords] wrote is the
    saved list with every version 0 turned into 1.  A list without version
    0 comes back as it was; an absent or unreadable item leaves the list
    alone. *)
Theorem load_after_save (saved s : store) :
  passwords (loadPasswords (savePasswords saved) s) =
    map (fun p => {| service := service p; password := password p;
                     version := (if version p =? 0 then 1 else version p);
                     generated := generated p; credentialId := credentialId p |})
        (passwords saved) /\
  (Forall (fun p => version p <> 0) (passwords saved) ->
   passwords (loadPasswords (savePasswords saved) s) = passwords saved) /\
  loadPasswords NoItem s = s /\
  loadPasswords Unreadable s = s.
Proof.
  assert (passwords (loadPasswords (savePasswords saved) s) =
    map (fun p => {| service := service p; password := password p;
                     version := (if version p =? 0 then 1 else version p);
                     generated := generated p; credentialId := credentialId p |})
        (passwords saved)) as Hload.
  { unfold loadPasswords, savePasswords. cbn [passwords set_passwords].
    by rewrite map_map. }
  split; [exact Hload|]. split; [|split; reflexivity].
  intros Hnonzero. rewrite Hload. clear Hload.
  induction Hnonzero as [|p l Hp _ IH]; [done|]. cbn [map]. rewrite IH. f_equal.
  destruct (Z.eqb_spec (version p) 0); [done|]. by destruct p.
Qed.

Lemma load_after_save_witness :
  let saved :=
    {| passwords := [ {| service := js "example.com"; password := js "pw"; version := 2;
                         generated := 5; credentialId := js "key" |} ];
       isGenerating := false; lastError := None |} in
  passwords (loadPasswords (savePasswords saved) initial_store) = passwords saved.
Proof.
  cbv zeta. apply load_after_save. repeat constructor. cbn. lia.
Defined.

End StoreRoundTrips.

(** * Further properties of the label and the hash input *)

Section LabelAndSeed.
Import Stretcher PasswordStore StoreSpec StretcherSpec.

(** X8.  The service name that [generatePasswordFromEntropy] extracts never
    holds a dot, and extracting from it again gives it back. *)
Theorem extract_service_name_dot_free (fullServiceName : list Z) :
  (dot ∉ extract_service_name fullServiceName) /\
  extract_service_name (extract_service_name fullServiceName) =
    extract_service_name fullServiceName.
Proof.
  assert (dot ∉ extract_service_name fullServiceName) as Hfree.
  { rewrite extract_service_name_reverse.
    pose proof (split_segments dot fullServiceName) as Hsegs.
    pose proof (join_split dot fullServiceName) as Hjoin.
    rewrite <- (reverse_involutive (split dot fullServiceName)) in Hsegs, Hjoin.
    destruct (reverse (split dot fullServiceName)) as [|last [|pen r]].
    - rewrite <- Hjoin. apply not_elem_of_nil.
    - rewrite reverse_singleton in Hsegs, Hjoin. cbn in Hjoin. subst.
      by inversion Hsegs.
    - rewrite !reverse_cons in Hsegs.
      apply Forall_app in Hsegs as [Hsegs _]. apply Forall_app in Hsegs as [_ Hpen].
      by inversion Hpen. }
  split; [exact Hfree|]. by apply extract_service_name_no_dot.
Qed.

(** X9.  Of a name with at least two dots only the second-to-last part
    counts: whatever stands before it, and whatever dot-free part stands
    after it, the password is the same. *)
Theorem subdomains_and_suffix_ignored
    (entropy prefix label suffix suffix' : list Z) (v : Z) :
  dot ∉ label -> dot ∉ suffix -> dot ∉ suffix' ->
  extract_service_name (prefix ++ dot :: label ++ dot :: suffix) = label /\
  generatePasswordFromEntropy entropy (prefix ++ dot :: label ++ dot :: suffix) v =
  generatePasswordFromEntropy entropy (label ++ dot :: suffix') v.
Proof.
  intros Hlabel Hsuffix Hsuffix'.
  assert (extract_service_name (prefix ++ dot :: label ++ dot :: suffix) = label) as Hlong.
  { rewrite extract_service_name_reverse, split_app.
    rewrite (split_app_sep dot label suffix Hlabel), (split_without_sep dot suffix Hsuffix).
    rewrite reverse_app. by change (reverse [label; suffix]) with [suffix; label]. }
  split; [exact Hlong|].
  rewrite !generatePasswordFromEntropy_simple. unfold simple_stretcher.
  by rewrite Hlong, extract_service_name_two.
Qed.

Lemma subdomains_and_suffix_ignored_witness :
  extract_service_name (js "mail.accounts" ++ dot :: js "example" ++ dot :: js "com") =
    js "example" /\
  generatePasswordFromEntropy [1; 2; 3] (js "mail.accounts" ++ dot :: js "example" ++ dot :: js "com") 1 =
  generatePasswordFromEntropy [1; 2; 3] (js "example" ++ dot :: js "org") 1.
Proof.
  apply subdomains_and_suffix_ignored; vm_compute; intros H;
    repeat (apply elem_of_cons in H as [H|H]; [discriminate H|]);
    by apply elem_of_nil in H.
Defined.

(** X10.  For one entropy, the bytes that are hashed tell the label bytes
    and the version: two requests with the same hash input have the same
    UTF-8 label and the same version. *)
Theorem hash_input_tells_label_and_version
    (entropy label1 label2 : list Z) (v1 v2 : Z) :
  seed_data entropy (TextEncoder.encode label1)
            (TextEncoder.encode (js "v" ++ Number_toString v1)) =
  seed_data entropy (TextEncoder.encode label2)
            (TextEncoder.encode (js "v" ++ Number_toString v2)) ->
  TextEncoder.encode label1 = TextEncoder.encode label2 /\ v1 = v2.
Proof.
  rewrite !seed_data_concat, !version_text_encoded. intros [= Heq].
  apply app_inv_head in Heq.
  assert (forall v, 118 ∉ Number_toString v) as Hmark.
  { intros v Hin. pose proof (Number_toString_chars v) as Hchars.
    rewrite Forall_forall in Hchars. specialize (Hchars 118 Hin). lia. }
  apply app_mark_inj in Heq as [Hlabel Hversion]; [|apply Hmark..].
  split; [done | by apply Number_toString_inj].
Qed.

Lemma hash_input_tells_label_and_version_witness :
  TextEncoder.encode (js "example") = TextEncoder.encode (js "example") /\ 12 = 12.
Proof.
  apply (hash_input_tells_label_and_version [1; 2; 3] (js "example") (js "example") 12 12).
  reflexivity.
Defined.

(** X11.  Nothing separates the entropy from the label in the hash input.
    For ASCII text without a dot and a service name with at most one dot
    (a label alone, or a label and a suffix), the text in front of the
    name is in front of the label, and the password is the same whether
    the text is the last bytes of the entropy or the first characters of
    the service name. *)
Theorem entropy_and_label_run_together (entropy text fullServiceName : list Z) (v : Z) :
  Forall (fun c => 0 <= c < 128) text -> dot ∉ text ->
  (length (split dot fullServiceName) <= 2)%nat ->
  extract_service_name (text ++ fullServiceName) =
    text ++ extract_service_name fullServiceName /\
  generatePasswordFromEntropy (entropy ++ text) fullServiceName v =
  generatePasswordFromEntropy entropy (text ++ fullServiceName) v.
Proof.
  intros Htext Hdot Hname.
  pose proof (extract_service_name_prefix text fullServiceName Hdot Hname) as Hlabel.
  split; [done|].
  rewrite !generatePasswordFromEntropy_simple. unfold simple_stretcher.
  rewrite Hlabel, (encode_ascii_app text _ Htext).
  by rewrite <- !app_assoc.
Qed.

Lemma entropy_and_label_run_together_witness :
  extract_service_name (js "my" ++ js "bank.com") =
    js "my" ++ extract_service_name (js "bank.com") /\
  generatePasswordFromEntropy ([1; 2; 3] ++ js "my") (js "bank.com") 1 =
  generatePasswordFromEntropy [1; 2; 3] (js "my" ++ js "bank.com") 1.
Proof.
  apply entropy_and_label_run_together.
  - repeat constructor; cbn; lia.
  - vm_compute. intros H.
    repeat (apply elem_of_cons in H as [H|H]; [discriminate H|]). by apply elem_of_nil in H.
  - vm_compute. lia.
Defined.

End LabelAndSeed.

(** * Further properties of the codename service *)

Section CodenameBehaviour.
Import Heap CryptoService.

(** X12.  The codename reads the first twelve bytes of the seed and no
    others: seeds that agree there give the same result. *)
Theorem codename_reads_twelve_bytes (masterDictionary : list ChineseCharEntry)
    (masterSeed1 masterSeed2 : list Z) :
  take 12 masterSeed1 = take 12 masterSeed2 ->
  codename_of_seed masterDictionary masterSeed1 =
  codename_of_seed masterDictionary masterSeed2.
Proof.
  intros Heq. unfold codename_of_seed.
  rewrite <- (slice_take 0 4 12 masterSeed1), <- (slice_take 4 8 12 masterSeed1),
    <- (slice_take 8 12 12 masterSeed1) by lia.
  rewrite <- (slice_take 0 4 12 masterSeed2), <- (slice_take 4 8 12 masterSeed2),
    <- (slice_take 8 12 12 masterSeed2) by lia.
  by rewrite Heq.
Qed.

Lemma codename_reads_twelve_bytes_witness :
  codename_of_seed [] ((Z.of_nat <$> seq 0 12) ++ [7; 7]) =
  codename_of_seed [] ((Z.of_nat <$> seq 0 12) ++ [9]).
Proof. apply codename_reads_twelve_bytes. reflexivity. Defined.

(** X13.  When the authenticator returns data and the dictionary has
    entries, [generateCodename] returns: the codename is the characters of
    three entries of the dictionary, the note their transcriptions, then
    their tones. *)
Theorem generateCodename_returns (masterDictionary : list ChineseCharEntry)
    (authenticate : string -> list Z -> outcome (option (list Z)))
    (credentialId : string) (domainString raw : list Z) :
  masterDictionary <> [] ->
  authenticate credentialId (generateDeterministicChallenge domainString) =
    Returned (Some raw) ->
  exists c1 c2 c3,
    c1 ∈ masterDictionary /\ c2 ∈ masterDictionary /\ c3 ∈ masterDictionary /\
    generateCodename masterDictionary authenticate credentialId domainString =
    Returned
      {| chineseChar := char c1 ++ char c2 ++ char c3;
         pinyinNote := pinyin c1 ++ js " " ++ pinyin c2 ++ js " " ++ pinyin c3 ++ js " "
                       ++ Number_toString (tone c1) ++ Number_toString (tone c2)
                       ++ Number_toString (tone c3) |}.
Proof.
  intros Hne Hauth. unfold generateCodename. rewrite Hauth. cbn [obind].
  unfold codename_of_assertion. rewrite deriveMasterSeed_returns. cbn [obind].
  destruct (codename_of_seed_returns masterDictionary
              (HKDF.hkdf (deterministic_bytes raw) (TextEncoder.encode domainString)
                 (ascii_bytes "encryptio-codename-generation") 64) Hne)
    as (c1 & c2 & c3 & H1 & H2 & H3 & ->); [rewrite hkdf_length; lia|].
  by exists c1, c2, c3.
Qed.

Lemma generateCodename_returns_witness :
  exists c1 c2 c3,
    c1 ∈ [ {| char := [0x9F8D]; pinyin := js "Long"; tone := 2 |} ] /\
    c2 ∈ [ {| char := [0x9F8D]; pinyin := js "Long"; tone := 2 |} ] /\
    c3 ∈ [ {| char := [0x9F8D]; pinyin := js "Long"; tone := 2 |} ] /\
    generateCodename [ {| char := [0x9F8D]; pinyin := js "Long"; tone := 2 |} ]
      (fun _ _ => Returned (Some (Z.of_nat <$> seq 1 37))) "key" (js "example") =
    Returned
      {| chineseChar := char c1 ++ char c2 ++ char c3;
         pinyinNote := pinyin c1 ++ js " " ++ pinyin c2 ++ js " " ++ pinyin c3 ++ js " "
                       ++ Number_toString (tone c1) ++ Number_toString (tone c2)
                       ++ Number_toString (tone c3) |}.
Proof.
  apply (generateCodename_returns _ _ _ _ (Z.of_nat <$> seq 1 37)).
  - discriminate.
  - reflexivity.
Defined.

(** X14.  [generateCodename] throws exactly when the authenticator gives no
    data (it throws, or returns nothing) or the dictionary is empty; what
    it throws is always an Error whose message starts with "Codename
    generation failed: ". *)
Theorem generateCodename_throws_iff (masterDictionary : list ChineseCharEntry)
    (authenticate : string -> list Z -> outcome (option (list Z)))
    (credentialId : string) (domainString : list Z) :
  (throws (generateCodename masterDictionary authenticate credentialId domainString) <->
   masterDictionary = [] \/
   ~ exists raw, authenticate credentialId (generateDeterministicChallenge domainString) =
                 Returned (Some raw)) /\
  (forall error,
      generateCodename masterDictionary authenticate credentialId domainString =
        Threw error ->
      err_name error = "Error"%string /\
      exists reason,
        err_message error = ("Codename generation failed: " ++ reason)%string).
Proof.
  split.
  - destruct (authenticate credentialId (generateDeterministicChallenge domainString))
      as [[raw|]|error] eqn:Hauth.
    + destruct (decide (masterDictionary = [])) as [->|Hne].
      * split; [by left|]. intros _. unfold generateCodename. rewrite Hauth. cbn [obind].
        unfold codename_of_assertion. rewrite deriveMasterSeed_returns. cbn [obind].
        destruct (codename_of_seed_empty
                    (HKDF.hkdf (deterministic_bytes raw) (TextEncoder.encode domainString)
                       (ascii_bytes "encryptio-codename-generation") 64)) as [e ->].
        by eexists.
      * destruct (generateCodename_returns masterDictionary authenticate credentialId
                    domainString raw Hne Hauth) as (c1 & c2 & c3 & _ & _ & _ & Hrun).
        split.
        -- intros [e He]. congruence.
        -- intros [->|Hno]; [done|]. exfalso. apply Hno. by exists raw.
    + split.
      * intros _. right. by intros [raw [=]].
      * intros _. unfold generateCodename. rewrite Hauth. by eexists.
    + split.
      * intros _. right. by intros [raw [=]].
      * intros _. unfold generateCodename. rewrite Hauth. by eexists.
  - intros error. unfold generateCodename.
    destruct (obind _ _) as [r|e]; [done|]. intros [= <-]. cbn [err_name err_message].
    split; [done|]. by eexists.
Qed.

(** X15.  Zeroing the bytes 21 to 24 twice is zeroing them once: a
    buffer that [getDeterministicAuthenticatorData] returned goes through
    it unchanged, to one more new buffer. *)
Theorem normalization_idempotent (h : gmap positive (list Z)) (a : positive)
    (data : list Z) :
  h !! a = Some data ->
  deterministic_bytes (deterministic_bytes data) = deterministic_bytes data /\
  exists d1 d2 h1 h2,
    getDeterministicAuthenticatorData a h = (Returned d1, h1) /\
    getDeterministicAuthenticatorData d1 h1 = (Returned d2, h2) /\
    d1 <> d2 /\ h2 !! d1 = h2 !! d2 /\ h2 !! d2 = Some (deterministic_bytes data) /\
    h2 !! a = Some data.
Proof.
  intros Ha.
  assert (deterministic_bytes (deterministic_bytes data) = deterministic_bytes data)
    as Hidem.
  { apply deterministic_bytes_agree; [apply deterministic_bytes_length|].
    intros i Hi. by apply deterministic_bytes_other. }
  split; [exact Hidem|].
  set (d1 := fresh (dom h)). set (h1 := <[d1 := deterministic_bytes data]> h).
  set (d2 := fresh (dom h1)).
  exists d1, d2, h1, (<[d2 := deterministic_bytes data]> h1).
  assert (h1 !! d1 = Some (deterministic_bytes data)) as Hd1 by apply lookup_insert_eq.
  assert (d1 <> d2) as Hne.
  { intros Heq. pose proof (fresh_address_unused h1) as Hun. fold d2 in Hun.
    rewrite <- Heq in Hun. congruence. }
  assert (a <> d1) as Hne1.
  { intros ->. pose proof (fresh_address_unused h) as Hun. fold d1 in Hun. congruence. }
  assert (a <> d2) as Hne2.
  { intros ->. pose proof (fresh_address_unused h1) as Hun. fold d2 in Hun.
    subst h1. rewrite lookup_insert_ne in Hun by done. congruence. }
  split; [by apply getDeterministicAuthenticatorData_run|].
  split.
  { rewrite (getDeterministicAuthenticatorData_run h1 d1 _ Hd1). by rewrite Hidem. }
  split; [done|].
  rewrite lookup_insert_eq, !lookup_insert_ne by done.
  split; [done|]. split; [done|]. subst h1. by rewrite lookup_insert_ne.
Qed.

Lemma normalization_idempotent_witness :
  deterministic_bytes (deterministic_bytes (Z.of_nat <$> seq 1 37)) =
  deterministic_bytes (Z.of_nat <$> seq 1 37).
Proof.
  apply (normalization_idempotent {[1%positive := Z.of_nat <$> seq 1 37]} 1%positive).
  reflexivity.
Defined.

End CodenameBehaviour.

(** * The credential id, from registration to authentication *)

Section CredentialId.
Import JSText WebAuthnService CredentialIdSpec AuthStore AuthSpec Registration.

(** X16.  The bytes [authenticateSecurityKey] makes of a credential id are
    the raw id [registerSecurityKey] made the text from; the text has two
    characters a byte, all of them digits or letters from a to f. *)
Theorem credential_id_round_trip (rawId : list Z) :
  Forall (fun b => 0 <= b < 256) rawId ->
  credentialIdBuffer (credentialId_of_rawId rawId) = rawId /\
  length (credentialId_of_rawId rawId) = (2 * length rawId)%nat /\
  forallb is_lower_hex (credentialId_of_rawId rawId) = true.
Proof.
  unfold credentialIdBuffer, credentialId_of_rawId, Uint8Array_from_numbers.
  induction 1 as [|b rawId Hb _ (IH1 & IH2 & IH3)]; [done|].
  destruct (hex_pair b Hb) as (c1 & c2 & Htext & H1 & H2 & Hparse & H3 & H4).
  cbn [map concat]. rewrite Htext. cbn [app].
  rewrite match_one_or_two_pair by done. cbn [map]. rewrite Hparse, IH1.
  split; [|split].
  - f_equal. unfold to_uint8. apply Z.mod_small. lia.
  - cbn [length]. rewrite IH2. lia.
  - cbn [forallb]. by rewrite H3, H4, IH3.
Qed.

Lemma credential_id_round_trip_witness :
  credentialIdBuffer (credentialId_of_rawId [0; 10; 255; 16]) = [0; 10; 255; 16] /\
  length (credentialId_of_rawId [0; 10; 255; 16]) = (2 * length [0; 10; 255; 16])%nat /\
  forallb is_lower_hex (credentialId_of_rawId [0; 10; 255; 16]) = true.
Proof. apply credential_id_round_trip. repeat constructor; lia. Defined.

(** X17.  Through every sequence of calls on the authentication store,
    whatever the database holds and whichever of its requests fail, the
    store says a key is registered exactly when it holds a credential
    id. *)
Theorem auth_registered_iff_credential (db : gmap string (list Z)) (calls : list call) :
  registered_iff_credential (fst (fold_left perform calls (initialState, db))).
Proof.
  assert (forall s, registered_iff_credential (fst s) ->
                    registered_iff_credential (fst (fold_left perform calls s))) as H.
  { induction calls as [|c calls IH]; intros s Hinv; [done|].
    apply IH, perform_registered_iff_credential, Hinv. }
  apply H. unfold registered_iff_credential. cbn. split; [done | by intros [? [=]]].
Qed.

End CredentialId.

Section AuthBehaviour.
Import JSText WebAuthnService CredentialIdSpec AuthStore AuthSpec Registration.

(** X18.  [initializeAuth] always ends the loading state.  From the initial
    state it finds a key registered exactly when both reads succeed and the
    database holds a credential id and a user name that are not empty, and
    these are then the ones in the store; it reports an error exactly when
    a read fails. *)
Theorem initializeAuth_outcome (fault1 fault2 : option db_fault)
    (db : gmap string (list Z)) :
  isLoading (initializeAuth fault1 fault2 initialState db) = false /\
  (isKeyRegistered (initializeAuth fault1 fault2 initialState db) = true <->
   fault1 = None /\ fault2 = None /\
   exists id name,
     db !! CREDENTIAL_ID_KEY = Some id /\ id <> [] /\
     db !! USERNAME_KEY = Some name /\ name <> [] /\
     credentialId (initializeAuth fault1 fault2 initialState db) = Some id /\
     username (initializeAuth fault1 fault2 initialState db) = Some name) /\
  (is_Some (error (initializeAuth fault1 fault2 initialState db)) <->
   fault1 <> None \/ (fault1 = None /\ fault2 <> None)).
Proof.
  unfold initializeAuth, getData.
  destruct fault1 as [f1|]; cbn [obind].
  { split; [done|]. split; [split; [done | by intros [[=] _]]|].
    split; [by left | by eexists]. }
  destruct fault2 as [f2|]; cbn [obind].
  { split; [done|]. split; [split; [done | by intros (_ & [=] & _)]|].
    split; [by right | by eexists]. }
  destruct (db !! CREDENTIAL_ID_KEY) as [[|c id]|]; cbn [truthy andb].
  - split; [done|]. split; [split; [done | by intros (_ & _ & ? & ? & [= <-] & ? & _)]|].
    split; [by intros [? [=]] | by intros [?|[_ ?]]].
  - destruct (db !! USERNAME_KEY) as [[|n name]|]; cbn [truthy].
    + split; [done|]. split; [split; [done | by intros (_ & _ & ? & ? & _ & _ & [= <-] & ? & _)]|].
      split; [by intros [? [=]] | by intros [?|[_ ?]]].
    + split; [done|]. split.
      * split; [|done]. intros _. split; [done|]. split; [done|].
        by exists (c :: id), (n :: name).
      * split; [by intros [? [=]] | by intros [?|[_ ?]]].
    + split; [done|]. split; [split; [done | by intros (_ & _ & ? & ? & _ & _ & [=] & _)]|].
      split; [by intros [? [=]] | by intros [?|[_ ?]]].
  - split; [done|]. split; [split; [done | by intros (_ & _ & ? & ? & [=] & _)]|].
    split; [by intros [? [=]] | by intros [?|[_ ?]]].
Qed.

(** X19.  [clearAuth] is not all or nothing.  When both deletions succeed
    the store is the initial state again, which shows as loading, and the
    database has neither value.  When the first fails nothing changes but
    the error: the database, the key, the credential id, the user name
    and the loading state are as they were.  When only the second fails
    the store is as it was but for the error, and still shows the key it
    showed, but the credential id is gone from the database and the next
    session starts without a key. *)
Theorem clearAuth_outcomes (fault : db_fault) (state : AuthState)
    (db : gmap string (list Z)) :
  (clearAuth None None state db =
     (initialState, delete USERNAME_KEY (delete CREDENTIAL_ID_KEY db)) /\
   isLoading initialState = true /\
   isKeyRegistered (restart (snd (clearAuth None None state db))) = false) /\
  (forall fault2,
     snd (clearAuth (Some fault) fault2 state db) = db /\
     isKeyRegistered (fst (clearAuth (Some fault) fault2 state db)) = isKeyRegistered state /\
     credentialId (fst (clearAuth (Some fault) fault2 state db)) = credentialId state /\
     username (fst (clearAuth (Some fault) fault2 state db)) = username state /\
     isLoading (fst (clearAuth (Some fault) fault2 state db)) = isLoading state /\
     is_Some (error (fst (clearAuth (Some fault) fault2 state db)))) /\
  (isKeyRegistered (fst (clearAuth None (Some fault) state db)) = isKeyRegistered state /\
   credentialId (fst (clearAuth None (Some fault) state db)) = credentialId state /\
   username (fst (clearAuth None (Some fault) state db)) = username state /\
   isLoading (fst (clearAuth None (Some fault) state db)) = isLoading state /\
   is_Some (error (fst (clearAuth None (Some fault) state db))) /\
   snd (clearAuth None (Some fault) state db) !! CREDENTIAL_ID_KEY = None /\
   snd (clearAuth None (Some fault) state db) !! USERNAME_KEY = db !! USERNAME_KEY /\
   isKeyRegistered (restart (snd (clearAuth None (Some fault) state db))) = false).
Proof.
  unfold clearAuth, deleteData, restart, initializeAuth, getData. cbn [fst snd obind].
  split; [|split].
  - split; [done|]. split; [done|].
    rewrite lookup_delete_ne, lookup_delete_eq by done. done.
  - intros fault2. repeat split; by eexists.
  - rewrite lookup_delete_eq, lookup_delete_ne by done. cbn [truthy andb].
    repeat split; by eexists.
Qed.

(** X20.  A registration that goes through survives a restart.  With a
    user name that is not blank and has at most 32 characters after
    trimming, a key that answers with a raw id that is not empty, and a
    database that works: the store shows the key as registered and no
    longer loading, and a new session reads from the database the same
    credential id, whose bytes are the raw id, and the trimmed user
    name. *)
Theorem registration_survives_restart (usernameInput rawId : list Z)
    (s : AuthState * gmap string (list Z)) :
  trim usernameInput <> [] ->
  (length (trim usernameInput) <= 32)%nat ->
  rawId <> [] ->
  Forall (fun b => 0 <= b < 256) rawId ->
  isKeyRegistered
    (fst (handleRegister usernameInput true (Returned (Some rawId)) None None None s)) = true /\
  isLoading
    (fst (handleRegister usernameInput true (Returned (Some rawId)) None None None s)) = false /\
  error
    (fst (handleRegister usernameInput true (Returned (Some rawId)) None None None s)) = None /\
  exists id,
    credentialId
      (fst (handleRegister usernameInput true (Returned (Some rawId)) None None None s)) =
      Some id /\
    credentialIdBuffer id = rawId /\
    isKeyRegistered
      (restart (snd (handleRegister usernameInput true (Returned (Some rawId))
                       None None None s))) = true /\
    credentialId
      (restart (snd (handleRegister usernameInput true (Returned (Some rawId))
                       None None None s))) = Some id /\
    username
      (restart (snd (handleRegister usernameInput true (Returned (Some rawId))
                       None None None s))) = Some (trim usernameInput).
Proof.
  intros Hname Hlen HrawId Hbytes.
  destruct (credential_id_facts rawId Hbytes) as (Hround & Hidlen).
  destruct s as [state db].
  rewrite (handleRegister_registers usernameInput rawId state db) by done.
  cbn [fst snd isKeyRegistered isLoading error credentialId].
  split; [done|]. split; [done|]. split; [done|].
  exists (credentialId_of_rawId rawId). split; [done|]. split; [done|].
  unfold restart, initializeAuth, getData. cbn [obind].
  rewrite lookup_insert_eq, lookup_insert_ne, !lookup_insert_eq by done.
  destruct (credentialId_of_rawId rawId) as [|c id] eqn:Hid.
  { destruct rawId; [done|]. cbn in Hidlen. lia. }
  by destruct (trim usernameInput).
Qed.

Lemma registration_survives_restart_witness :
  isKeyRegistered
    (restart (snd (handleRegister (js "  alice ") true (Returned (Some [0; 10; 255; 16]))
                     None None None (initialState, ∅)))) = true /\
  username
    (restart (snd (handleRegister (js "  alice ") true (Returned (Some [0; 10; 255; 16]))
                     None None None (initialState, ∅)))) = Some (js "alice").
Proof.
  destruct (registration_survives_restart (js "  alice ") [0; 10; 255; 16] (initialState, ∅))
    as (_ & _ & _ & id & _ & _ & Hreg & _ & Huser).
  - discriminate.
  - vm_compute. lia.
  - discriminate.
  - repeat constructor; lia.
  - split; [exact Hreg | exact Huser].
Defined.

End AuthBehaviour.

(** * The password generator component *)

Section ComponentBehaviour.
Import JSText PasswordStore StoreSpec StretcherSpec PasswordGenerator DisplaySpec.




(** X23.  The name and the version beside a new password are read after
    the call to the store.  When the name field was changed meanwhile to
    a name without entries, the component shows the password under that
    name, and the list has no such entry. *)
Theorem edited_name_mislabels (w : world) (edit : view -> view) (v : view) (s : store)
    (pw : list Z) :
  trim (serviceName v) <> [] ->
  fst (PasswordStore.generatePassword w (trim (serviceName v)) (passwordVersion v) s)
    = Some pw ->
  trim (serviceName (edit v)) <> [] ->
  trim (serviceName (edit v)) <> trim (serviceName v) ->
  (forall p, p ∈ passwords s -> service p <> trim (serviceName (edit v))) ->
  currentPassword (fst (PasswordGenerator.generatePassword w edit v s)) = pw /\
  currentService (fst (PasswordGenerator.generatePassword w edit v s)) =
    trim (serviceName (edit v)) /\
  ~ uncurry shows_stored (PasswordGenerator.generatePassword w edit v s).
Proof.
  intros Hname Hpw Hother Hchanged Hfree.
  rewrite component_generatePassword_run by done.
  revert Hpw. rewrite generatePassword_run.
  destruct (credentials w) as [|credential rest]; [done|].
  destruct (getEntropy w _ _) as [[entropy|]|]; [|done..].
  cbn [fst snd]. intros [= <-]. split; [done|]. split; [done|].
  cbn [uncurry]. intros [Hnone|(p & Hp & Hs & _)]; [done|].
  cbn [passwords] in Hp. cbn in Hs.
  set (g := {| service := trim (serviceName v); password := _ |}) in Hp.
  assert (p = g \/ p ∈ passwords s) as [->|Hold].
  { unfold record_password in Hp.
    destruct (findIndex_cases (same_entry (service g) (version g)) (passwords s))
      as [[Hnone _]|(i & x & Hfound & Hi & _)].
    - rewrite Hnone in Hp. change (0 <=? -1) with false in Hp. cbv iota in Hp.
      assert (p ∈ g :: passwords s) as Hin.
      { destruct (100 <? length (g :: passwords s))%nat; [|done].
        eapply elem_of_sublist; [exact Hp | apply sublist_take]. }
      apply elem_of_cons in Hin as [->|Hin]; [by left | by right].
    - rewrite Hfound in Hp. destruct (Z.leb_spec 0 (Z.of_nat i)); [|lia].
      rewrite Nat2Z.id in Hp.
      assert (p ∈ <[i := g]> (passwords s)) as Hin.
      { destruct (100 <? length (<[i := g]> (passwords s)))%nat; [|done].
        eapply elem_of_sublist; [exact Hp | apply sublist_take]. }
      apply list_elem_of_lookup in Hin as [j Hj].
      destruct (decide (i = j)) as [<-|Hne].
      + rewrite list_lookup_insert_eq in Hj by (by eapply lookup_lt_Some). left. congruence.
      + rewrite list_lookup_insert_ne in Hj by done. right.
        apply list_elem_of_lookup. by exists j. }
  - by apply Hchanged.
  - by apply (Hfree p Hold).
Qed.

Lemma edited_name_mislabels_witness :
  let w := {| credentials := [ {| id := js "key"; name := js "k"; created := 0 |} ];
              isSupported := true;
              credentials_get := fun _ _ => Returned (Some [1; 2; 3; 4; 5; 6; 7; 8]);
              clock := 7 |} in
  let v := {| serviceName := js "example.com"; passwordVersion := 1;
              currentPassword := []; currentService := []; currentVersion := 1;
              showVersionHistory := false |} in
  let edit := set_serviceName (js "bank.com") in
  currentPassword (fst (PasswordGenerator.generatePassword w edit v initial_store)) =
    js "LA[XD!^nNkQJ88ZhFHgp" /\
  currentService (fst (PasswordGenerator.generatePassword w edit v initial_store)) =
    trim (serviceName (edit v)) /\
  ~ uncurry shows_stored (PasswordGenerator.generatePassword w edit v initial_store).
Proof.
  cbv zeta. apply edited_name_mislabels.
  - vm_compute. discriminate.
  - vm_compute. reflexivity.
  - vm_compute. discriminate.
  - vm_compute. discriminate.
  - intros p Hp. by apply elem_of_nil in Hp.
Defined.

End ComponentBehaviour.

(** * The date encoder *)

Section DateBehaviour.
Import JSText DateEncoder DateSpec.

(** X24.  For a date DD.MM.YYYY with a day from 1 to 31, a month from 1
    to 12 and a year of four digits that does not start with 0,
    [encodeDateXorYear] gives five capital letters, whatever the current
    year: the first from A to L, the second A or B, the fourth from A to
    D. *)
Theorem encoded_date_is_five_letters (day month year : Z) :
  is_date day month year ->
  exists c1 c2 c3 c4 c5,
    (forall currentYear,
       encodeDateXorYear currentYear (date_text day month year) =
       Returned [c1; c2; c3; c4; c5]) /\
    65 <= c1 <= 76 /\ 65 <= c2 <= 66 /\ 65 <= c3 <= 90 /\
    65 <= c4 <= 68 /\ 65 <= c5 <= 90.
Proof.
  intros Hdate.
  eexists _, _, _, _, _. split.
  { intros currentYear. by apply encodeDateXorYear_date. }
  destruct Hdate as (Hday & Hmonth & Hyear).
  assert (0 <= year mod 10 <= 9) as Hdigit by (pose proof (Z.mod_pos_bound year 10); lia).
  assert (0 <= year mod 100 <= 99) as Htwo by (pose proof (Z.mod_pos_bound year 100); lia).
  pose proof (month_checked _ _ Hdigit Hmonth) as Hm.
  pose proof (day_checked _ _ Hdigit Hday) as Hd.
  pose proof (year_letters_checked _ Htwo) as Hy.
  unfold month_check, day_check, year_letters_check, is_capital in *.
  destruct (day_letters day (year mod 10)) as [d1 d2].
  destruct (year_letters (year mod 100)) as [y1 y2]. cbn [fst snd].
  cbv zeta in Hm. rewrite !andb_true_iff in Hm, Hd, Hy. lia.
Qed.

Lemma encoded_date_is_five_letters_witness :
  exists c1 c2 c3 c4 c5,
    (forall currentYear,
       encodeDateXorYear currentYear (date_text 15 5 2023) =
       Returned [c1; c2; c3; c4; c5]) /\
    65 <= c1 <= 76 /\ 65 <= c2 <= 66 /\ 65 <= c3 <= 90 /\
    65 <= c4 <= 68 /\ 65 <= c5 <= 90.
Proof. apply encoded_date_is_five_letters. unfold is_date. lia. Defined.

(** X25.  [decodeDateXorYear] does not undo [encodeDateXorYear]: from the
    letters of such a date, with the year of the date as the reference
    year, it gives a date with the same year and with a day from 1 to
    31 and a month from 1 to 12, but never the day and never the month
    that were encoded. *)
Theorem day_and_month_not_restored (day month year : Z) :
  is_date day month year ->
  exists code day' month',
    (forall currentYear,
       encodeDateXorYear currentYear (date_text day month year) = Returned code) /\
    decodeDateXorYear code year = Returned (date_text day' month' year) /\
    1 <= day' <= 31 /\ 1 <= month' <= 12 /\ day' <> day /\ month' <> month /\
    date_text day' month' year <> date_text day month year.
Proof.
  intros Hdate.
  exists [month_letter month (year mod 10);
          fst (day_letters day (year mod 10)); snd (day_letters day (year mod 10));
          fst (year_letters (year mod 100)); snd (year_letters (year mod 100))],
         (decoded_day (fst (day_letters day (year mod 10)))
                      (snd (day_letters day (year mod 10))) (year mod 10)),
         (decoded_month (month_letter month (year mod 10)) (year mod 10)).
  split.
  { intros currentYear. by apply encodeDateXorYear_date. }
  destruct Hdate as (Hday & Hmonth & Hyear).
  assert (0 <= year mod 10 <= 9) as Hdigit by (pose proof (Z.mod_pos_bound year 10); lia).
  assert (0 <= year mod 100 <= 99) as Htwo by (pose proof (Z.mod_pos_bound year 100); lia).
  pose proof (month_checked _ _ Hdigit Hmonth) as Hm.
  pose proof (day_checked _ _ Hdigit Hday) as Hd.
  pose proof (year_letters_checked _ Htwo) as Hy.
  rewrite decodeDateXorYear_fields. rewrite Z.rem_mod_nonneg by lia.
  unfold month_check, day_check, year_letters_check, is_capital in *.
  destruct (day_letters day (year mod 10)) as [d1 d2].
  destruct (year_letters (year mod 100)) as [y1 y2]. cbn [fst snd].
  cbv zeta in Hm. rewrite !andb_true_iff in Hm, Hd, Hy.
  rewrite !negb_true_iff in Hm, Hd.
  assert (decoded_year y1 y2 year = year) as ->.
  { unfold decoded_year. destruct Hy as [_ Hy]. apply Z.eqb_eq in Hy. rewrite Hy.
    pose proof (Z.div_mod year 100). pose proof (Z.mod_pos_bound year 100).
    destruct (Z.ltb_spec (year + 50) (year / 100 * 100 + year mod 100)); lia. }
  split; [reflexivity|].
  assert (decoded_day d1 d2 (year mod 10) <> day) as Hdiffers by lia.
  split; [lia|]. split; [lia|]. split; [done|]. split; [lia|].
  intros Heq. apply Hdiffers. apply date_text_day in Heq; [done | lia..].
Qed.

Lemma day_and_month_not_restored_witness :
  exists code day' month',
    (forall currentYear,
       encodeDateXorYear currentYear (date_text 15 5 2023) = Returned code) /\
    decodeDateXorYear code 2023 = Returned (date_text day' month' 2023) /\
    1 <= day' <= 31 /\ 1 <= month' <= 12 /\ day' <> 15 /\ month' <> 5 /\
    date_text day' month' 2023 <> date_text 15 5 2023.
Proof. apply day_and_month_not_restored. unfold is_date. lia. Defined.

(** X26.  With a reference year that is not negative, and five code
    units of which the first three are not before the letter A,
    [decodeDateXorYear] gives a text of day, month and year between
    dots, with a day from 1 to 31 and a month from 1 to 12. *)
Theorem decoded_date_in_range (c1 c2 c3 c4 c5 referenceYear : Z) :
  65 <= c1 < 65536 -> 65 <= c2 < 65536 -> 65 <= c3 < 65536 -> 0 <= referenceYear ->
  exists day month year,
    decodeDateXorYear [c1; c2; c3; c4; c5] referenceYear =
      Returned (date_text day month year) /\
    1 <= day <= 31 /\ 1 <= month <= 12.
Proof.
  intros H1 H2 H3 Hyear. rewrite decodeDateXorYear_fields.
  eexists _, _, _. split; [reflexivity|].
  pose proof (Z.rem_bound_pos referenceYear 10 Hyear) as Hdigit.
  split.
  - apply decoded_field_in_range; lia.
  - apply decoded_field_in_range; lia.
Qed.

Lemma decoded_date_in_range_witness :
  exists day month year,
    decodeDateXorYear (js "LFGAX") 2023 = Returned (date_text day month year) /\
    1 <= day <= 31 /\ 1 <= month <= 12.
Proof. apply (decoded_date_in_range 76 70 71 65 88 2023); lia. Defined.

End DateBehaviour.
